(** * JSON-RPC over stdio and HTTP: a shallow embedding of the two servers

    The development follows [src/stdio/json-rpc_stdio-server.ts] and
    [src/http/json-rpc_http-server.ts].  The parts of the JavaScript
    runtime the two files lean on (TextDecoder, String.prototype.split,
    JSON.parse, JSON.stringify, property access, the [+] operator, the
    functions of Object.prototype) are modelled as executable functions,
    so that every statement below can be run on concrete input. *)

From Stdlib Require Import Ascii String.
From Stdlib Require Import Strings.Byte.
From Stdlib Require Import SpecFloat.
From Stdlib Require Import ZArith NArith Lia Bool List.
Import ListNotations.

Set Implicit Arguments.
Set Warnings "-register-all".

(** ** JavaScript strings

    A JavaScript string is a sequence of UTF-16 code units. *)

Definition jsstring := list N.

Fixpoint str_eqb (a b : jsstring) : bool :=
  match a, b with
  | [], [] => true
  | x :: a', y :: b' => N.eqb x y && str_eqb a' b'
  | _, _ => false
  end.

(** ASCII literals: [u "abc"] is the JavaScript string abc. *)
Fixpoint u (s : string) : jsstring :=
  match s with
  | EmptyString => []
  | String c s' => N_of_ascii c :: u s'
  end.

(** [js] is [u] with every apostrophe read as a double quote, which keeps
    JSON texts legible: [js "{'id':1}"] is the text {"id":1}. *)
Definition js (s : string) : jsstring :=
  map (fun c => if N.eqb c 39 then 34%N else c) (u s).

(** ** Numbers

    A JavaScript number is an IEEE 754 binary64 value; [spec_float] with
    [prec = 53] and [emax = 1024] is exactly that. *)
Module JsNumber.

Definition number := spec_float.

Definition prec : Z := 53.
Definition emax : Z := 1024.

Definition NaN : number := S754_nan.
Definition add (x y : number) : number := SFadd prec emax x y.
Definition of_Z (z : Z) : number := binary_normalize prec emax z 0 false.

Definition is_finite (x : number) : bool :=
  match x with
  | S754_zero _ | S754_finite _ _ _ => true
  | _ => false
  end.

(** The number nearest to [m * 10^e] (ties to even), [m >= 0]: the value
    of a decimal literal with digits [m] and decimal exponent [e]. *)
Definition of_decimal (neg : bool) (m e : Z) : number :=
  if (m <=? 0)%Z then S754_zero neg
  else if (0 <=? e)%Z then
    binary_normalize prec emax (cond_Zopp neg (m * 10 ^ e)) 0 neg
  else
    let '(q, e', l) := SFdiv_core_binary prec emax m 0 (10 ^ (- e)) 0 in
    binary_round_aux prec emax neg q e' l.

(** Decimal digits of a non-negative integer, most significant first. *)
Fixpoint digits_fuel (fuel : nat) (z : Z) (acc : jsstring) : jsstring :=
  match fuel with
  | O => acc
  | S fuel' =>
      let acc' := Z.to_N (48 + z mod 10) :: acc in
      if (z <? 10)%Z then acc' else digits_fuel fuel' (z / 10) acc'
  end.

Definition digits (z : Z) : jsstring :=
  digits_fuel (S (Z.to_nat (Z.log2 z))) z [].

(** [x = num / den] as a positive rational. *)
Definition as_ratio (m : positive) (e : Z) : Z * Z :=
  if (0 <=? e)%Z then (Zpos m * 2 ^ e, 1)%Z else (Zpos m, 2 ^ (- e))%Z.

(** [10^n <= num / den]. *)
Definition pow10_le (n num den : Z) : bool :=
  if (0 <=? n)%Z then (10 ^ n * den <=? num)%Z
  else (den <=? num * 10 ^ (- n))%Z.

(** The least [n >= start] with [num / den < 10^n]. *)
Fixpoint magnitude_from (fuel : nat) (start num den : Z) : Z :=
  match fuel with
  | O => start
  | S fuel' =>
      if pow10_le start num den then magnitude_from fuel' (start + 1) num den
      else start
  end.

Definition magnitude (num den : Z) : Z :=
  let a := (Z.log2 num - Z.log2 den)%Z in
  magnitude_from 8 ((a - 1) * 30103 / 100000 - 1) num den.

(** The integers [s] and [s + 1] around [num / den / 10^t], and which of
    them is nearer (ties to the even one). *)
Definition floor_scaled (num den t : Z) : Z :=
  if (0 <=? t)%Z then (num / (den * 10 ^ t))%Z
  else (num * 10 ^ (- t) / den)%Z.

Definition nearer_low (num den t s : Z) : bool :=
  let twice_x := if (0 <=? t)%Z then (2 * num)%Z else (2 * num * 10 ^ (- t))%Z in
  let middle := if (0 <=? t)%Z then ((2 * s + 1) * den * 10 ^ t)%Z
                else ((2 * s + 1) * den)%Z in
  match (twice_x ?= middle)%Z with
  | Lt => true
  | Eq => Z.even s
  | Gt => false
  end.

(** Number::toString, steps 5: the shortest digit string [s] of [k]
    digits and the exponent [n] with [s * 10^(n-k)] reading back as [x]. *)
Fixpoint shortest (fuel : nat) (k : Z) (x : number) (num den n0 : Z)
  : Z * Z * Z :=
  let t := (n0 - k)%Z in
  let lo := floor_scaled num den t in
  let hi := (lo + 1)%Z in
  let ok_lo := SFeqb (of_decimal false lo t) x in
  let ok_hi := SFeqb (of_decimal false hi t) x in
  let pick_lo := if ok_lo then (if ok_hi then nearer_low num den t lo else true)
                 else false in
  match fuel with
  | O => (lo, k, n0)
  | S fuel' =>
      if pick_lo then (lo, k, n0)
      else if ok_hi then
        (if (hi =? 10 ^ k)%Z then (10 ^ (k - 1), k, n0 + 1) else (hi, k, n0))%Z
      else shortest fuel' (k + 1) x num den n0
  end.

Definition exponent_part (n : Z) : jsstring :=
  (101%N :: (if (0 <=? n - 1)%Z then 43%N else 45%N) :: digits (Z.abs (n - 1))).

(** Number::toString(x, 10). *)
Definition to_string (x : number) : jsstring :=
  match x with
  | S754_nan => u "NaN"
  | S754_zero _ => u "0"
  | S754_infinity s => (if s then u "-" else []) ++ u "Infinity"
  | S754_finite sgn m e =>
      let '(num, den) := as_ratio m e in
      let n0 := magnitude num den in
      let '(s, k, n) := shortest 17 1 (S754_finite false m e) num den n0 in
      let ds := digits s in
      let body :=
        if ((k <=? n) && (n <=? 21))%Z then
          ds ++ repeat 48%N (Z.to_nat (n - k))
        else if ((0 <? n) && (n <=? 21))%Z then
          firstn (Z.to_nat n) ds ++ u "." ++ skipn (Z.to_nat n) ds
        else if ((-6 <? n) && (n <=? 0))%Z then
          u "0." ++ repeat 48%N (Z.to_nat (- n)) ++ ds
        else if (k =? 1)%Z then ds ++ exponent_part n
        else firstn 1 ds ++ u "." ++ skipn 1 ds ++ exponent_part n
      in (if sgn then u "-" else []) ++ body
  end.

End JsNumber.

(** ** Values and completions *)

Inductive native :=
  | ObjectConstructor | DefineGetter | DefineSetter | HasOwnProperty
  | LookupGetter | LookupSetter | IsPrototypeOf | PropertyIsEnumerable
  | ObjectToString | ValueOf | ToLocaleString.

(** The two arrow functions each server stores in its [methods] record. *)
Inductive handler_id := EchoHandler | AddHandler.

Inductive func := Handler (h : handler_id) | Native (n : native).

(** The JavaScript values the servers can meet: what JSON.parse builds,
    undefined, the wrapper objects [Object(primitive)] returns, and
    functions.  The properties of an object are kept in the order
    OrdinaryOwnPropertyKeys lists them. *)
Inductive value :=
  | VUndefined
  | VNull
  | VBool (b : bool)
  | VNum (n : JsNumber.number)
  | VStr (s : jsstring)
  | VArr (elems : list value)
  | VObj (props : list (jsstring * value))
  | VBoxed (prim : value)
  | VFun (f : func).

(** An Error instance: its [name] and its [message]. *)
Record error := mk_error { err_name : jsstring; err_message : jsstring }.

Definition TypeError (msg : jsstring) : error := mk_error (u "TypeError") msg.
Definition SyntaxError (msg : jsstring) : error := mk_error (u "SyntaxError") msg.
Definition Error (msg : jsstring) : error := mk_error (u "Error") msg.

(** The outcome of evaluating an expression or awaiting a promise: a value,
    or a thrown exception (a rejected promise).  Every exception the
    modelled runtime and the two servers raise is an Error instance. *)
Inductive completion (A : Type) :=
  | Normal (a : A)
  | Throw (e : error).
Arguments Normal {A} a.
Arguments Throw {A} e.

Definition bind (A B : Type) (c : completion A) (k : A -> completion B)
  : completion B :=
  match c with
  | Normal a => k a
  | Throw e => Throw e
  end.

Notation "x <- c ;; k" := (bind c (fun x => k))
  (at level 61, c at next level, right associativity).

(** [try { body } catch (err) { handler }]. *)
Definition try_catch (A : Type) (body : completion A)
  (handler : error -> completion A) : completion A :=
  match body with
  | Normal a => Normal a
  | Throw e => handler e
  end.

(** ** Object properties *)
Module Props.

Definition is_digit (c : N) : bool := N.leb 48 c && N.leb c 57.

Fixpoint decimal_value (acc : Z) (s : jsstring) : Z :=
  match s with
  | [] => acc
  | c :: rest => decimal_value (10 * acc + (Z.of_N c - 48)) rest
  end.

(** An array index: the canonical decimal form of an integer below
    [2^32 - 1]. *)
Definition array_index (key : jsstring) : option Z :=
  match key with
  | [] => None
  | c :: rest =>
      if forallb is_digit key
         && (negb (N.eqb c 48) || match rest with [] => true | _ => false end)
         && (Nat.leb (List.length key) 10)
         && (decimal_value 0 key <? 4294967295)%Z
      then Some (decimal_value 0 key) else None
  end.

Fixpoint lookup (A : Type) (props : list (jsstring * A)) (key : jsstring)
  : option A :=
  match props with
  | [] => None
  | (k, v) :: rest => if str_eqb k key then Some v else lookup rest key
  end.

Fixpoint replace (A : Type) (props : list (jsstring * A)) (key : jsstring)
  (v : A) : list (jsstring * A) :=
  match props with
  | [] => []
  | (k, w) :: rest =>
      if str_eqb k key then (k, v) :: rest else (k, w) :: replace rest key v
  end.

(** A new integer key goes before the first larger integer key and before
    every other key. *)
Fixpoint insert_index (A : Type) (props : list (jsstring * A)) (i : Z)
  (key : jsstring) (v : A) : list (jsstring * A) :=
  match props with
  | [] => [(key, v)]
  | (k, w) :: rest =>
      match array_index k with
      | Some j => if (j <? i)%Z then (k, w) :: insert_index rest i key v
                  else (key, v) :: props
      | None => (key, v) :: props
      end
  end.

(** CreateDataProperty on an ordinary object: an existing key keeps its
    place, a new integer key is sorted in, any other new key goes last. *)
Definition define (A : Type) (props : list (jsstring * A)) (key : jsstring)
  (v : A) : list (jsstring * A) :=
  match lookup props key with
  | Some _ => replace props key v
  | None =>
      match array_index key with
      | Some i => insert_index props i key v
      | None => props ++ [(key, v)]
      end
  end.

End Props.

(** ** JSON.parse and JSON.stringify *)
Module JSON.

Import JsNumber.

Inductive token :=
  | TLBrace | TRBrace | TLBracket | TRBracket | TComma | TColon
  | TString (s : jsstring)
  | TAtom (v : value).

(** *** Lexing *)

Definition is_letter (c : N) : bool :=
  (N.leb 65 c && N.leb c 90) || (N.leb 97 c && N.leb c 122).

(** Characters of the unquoted lexemes: numbers, null, true, false. *)
Definition is_word_char (c : N) : bool :=
  Props.is_digit c || is_letter c || N.eqb c 43 || N.eqb c 45 || N.eqb c 46.

Definition is_whitespace (c : N) : bool :=
  N.eqb c 9 || N.eqb c 10 || N.eqb c 13 || N.eqb c 32.

Definition hex_digit (c : N) : option N :=
  if Props.is_digit c then Some (c - 48)%N
  else if N.leb 65 c && N.leb c 70 then Some (c - 55)%N
  else if N.leb 97 c && N.leb c 102 then Some (c - 87)%N
  else None.

Fixpoint take_digits (s : jsstring) : jsstring * jsstring :=
  match s with
  | c :: rest =>
      if Props.is_digit c then
        let '(ds, tail) := take_digits rest in (c :: ds, tail)
      else ([], s)
  | [] => ([], [])
  end.

(** The JSONNumber grammar: [-? int frac? exp?]. *)
Definition number_of_word (w : jsstring) : option number :=
  let '(neg, w1) := match w with
                    | 45%N :: rest => (true, rest)
                    | _ => (false, w)
                    end in
  let '(int_part, w2) := take_digits w1 in
  let int_ok := match int_part with
                | [] => false
                | [_] => true
                | c :: _ => negb (N.eqb c 48)
                end in
  let '(frac_ok, frac_part, w3) :=
    match w2 with
    | 46%N :: rest =>
        let '(ds, tail) := take_digits rest in
        (match ds with [] => false | _ => true end, ds, tail)
    | _ => (true, [], w2)
    end in
  let '(exp_ok, exp, w4) :=
    match w3 with
    | c :: rest =>
        if N.eqb c 101 || N.eqb c 69 then
          let '(eneg, rest1) := match rest with
                                | 45%N :: r => (true, r)
                                | 43%N :: r => (false, r)
                                | _ => (false, rest)
                                end in
          let '(ds, tail) := take_digits rest1 in
          (match ds with [] => false | _ => true end,
           cond_Zopp eneg (Props.decimal_value 0 ds), tail)
        else (true, 0%Z, w3)
    | [] => (true, 0%Z, w3)
    end in
  if int_ok && frac_ok && exp_ok && match w4 with [] => true | _ => false end
  then Some (of_decimal neg (Props.decimal_value 0 (int_part ++ frac_part))
               (exp - Z.of_nat (List.length frac_part)))
  else None.

Definition atom_of_word (w : jsstring) : option value :=
  if str_eqb w (u "null") then Some VNull
  else if str_eqb w (u "true") then Some (VBool true)
  else if str_eqb w (u "false") then Some (VBool false)
  else option_map VNum (number_of_word w).

(** The lexer's state; accumulated characters are kept in reverse. *)
Inductive lex_state :=
  | LIdle
  | LWord (acc : jsstring)
  | LString (acc : jsstring)
  | LEscape (acc : jsstring)
  | LHex (acc : jsstring) (remaining : nat) (code : N).

Definition lex_idle (c : N) : option (list token * lex_state) :=
  if is_whitespace c then Some ([], LIdle)
  else if N.eqb c 123 then Some ([TLBrace], LIdle)
  else if N.eqb c 125 then Some ([TRBrace], LIdle)
  else if N.eqb c 91 then Some ([TLBracket], LIdle)
  else if N.eqb c 93 then Some ([TRBracket], LIdle)
  else if N.eqb c 44 then Some ([TComma], LIdle)
  else if N.eqb c 58 then Some ([TColon], LIdle)
  else if N.eqb c 34 then Some ([], LString [])
  else if is_word_char c then Some ([], LWord [c])
  else None.

Definition escape_char (c : N) : option N :=
  if N.eqb c 34 then Some 34%N
  else if N.eqb c 92 then Some 92%N
  else if N.eqb c 47 then Some 47%N
  else if N.eqb c 98 then Some 8%N
  else if N.eqb c 102 then Some 12%N
  else if N.eqb c 110 then Some 10%N
  else if N.eqb c 114 then Some 13%N
  else if N.eqb c 116 then Some 9%N
  else None.

Definition lex_step (st : lex_state) (c : N)
  : option (list token * lex_state) :=
  match st with
  | LIdle => lex_idle c
  | LWord acc =>
      if is_word_char c then Some ([], LWord (c :: acc))
      else
        match atom_of_word (rev acc), lex_idle c with
        | Some v, Some (toks, st') => Some (TAtom v :: toks, st')
        | _, _ => None
        end
  | LString acc =>
      if N.eqb c 34 then Some ([TString (rev acc)], LIdle)
      else if N.eqb c 92 then Some ([], LEscape acc)
      else if N.ltb c 32 then None
      else Some ([], LString (c :: acc))
  | LEscape acc =>
      if N.eqb c 117 then Some ([], LHex acc 4 0)
      else option_map (fun e => ([], LString (e :: acc))) (escape_char c)
  | LHex acc remaining code =>
      match hex_digit c with
      | None => None
      | Some d =>
          let code' := (16 * code + d)%N in
          match remaining with
          | 1%nat => Some ([], LString (code' :: acc))
          | _ => Some ([], LHex acc (Nat.pred remaining) code')
          end
      end
  end.

Fixpoint lex (st : lex_state) (s : jsstring) : option (list token) :=
  match s with
  | [] =>
      match st with
      | LIdle => Some []
      | LWord acc => option_map (fun v => [TAtom v]) (atom_of_word (rev acc))
      | _ => None
      end
  | c :: rest =>
      match lex_step st c with
      | None => None
      | Some (toks, st') => option_map (app toks) (lex st' rest)
      end
  end.

(** *** Parsing: a pushdown automaton over the tokens *)

(** An open container: an array with the elements read so far (in
    reverse), or an object with its properties so far and the key whose
    value is being read. *)
Inductive frame :=
  | FArray (done : list value)
  | FObject (done : list (jsstring * value)) (key : jsstring).

Inductive parse_state :=
  | PValue (stack : list frame)
  | PArrayFirst (stack : list frame)
  | PArrayNext (stack : list frame) (done : list value)
  | PObjectFirst (stack : list frame)
  | PObjectKey (stack : list frame) (done : list (jsstring * value))
  | PObjectColon (stack : list frame) (done : list (jsstring * value))
      (key : jsstring)
  | PObjectNext (stack : list frame) (done : list (jsstring * value))
  | PEnd (v : value).

(** A value is complete: it goes into the innermost open container. *)
Definition complete (stack : list frame) (v : value) : parse_state :=
  match stack with
  | [] => PEnd v
  | FArray done :: stack' => PArrayNext stack' (v :: done)
  | FObject done key :: stack' => PObjectNext stack' (Props.define done key v)
  end.

Definition start_value (stack : list frame) (t : token)
  : option parse_state :=
  match t with
  | TAtom v => Some (complete stack v)
  | TString str => Some (complete stack (VStr str))
  | TLBracket => Some (PArrayFirst stack)
  | TLBrace => Some (PObjectFirst stack)
  | _ => None
  end.

Definition parse_step (st : parse_state) (t : token) : option parse_state :=
  match st, t with
  | PValue stack, _ => start_value stack t
  | PArrayFirst stack, TRBracket => Some (complete stack (VArr []))
  | PArrayFirst stack, _ => start_value (FArray [] :: stack) t
  | PArrayNext stack done, TComma => Some (PValue (FArray done :: stack))
  | PArrayNext stack done, TRBracket => Some (complete stack (VArr (rev done)))
  | PObjectFirst stack, TRBrace => Some (complete stack (VObj []))
  | PObjectFirst stack, TString key => Some (PObjectColon stack [] key)
  | PObjectKey stack done, TString key => Some (PObjectColon stack done key)
  | PObjectColon stack done key, TColon =>
      Some (PValue (FObject done key :: stack))
  | PObjectNext stack done, TComma => Some (PObjectKey stack done)
  | PObjectNext stack done, TRBrace => Some (complete stack (VObj done))
  | _, _ => None
  end.

Fixpoint parse_tokens (st : parse_state) (toks : list token) : option value :=
  match toks with
  | [] => match st with PEnd v => Some v | _ => None end
  | t :: rest =>
      match parse_step st t with
      | Some st' => parse_tokens st' rest
      | None => None
      end
  end.

(** [JSON.parse(text)]: the value, or a SyntaxError.  The message of the
    SyntaxError is the engine's; both servers discard it. *)
Definition parse (text : jsstring) : completion value :=
  match lex LIdle text with
  | Some toks =>
      match parse_tokens (PValue []) toks with
      | Some v => Normal v
      | None => Throw (SyntaxError (u "Unexpected token in JSON"))
      end
  | None => Throw (SyntaxError (u "Unexpected token in JSON"))
  end.

(** *** Serialising *)

(** What a value is on the wire. *)
Inductive json :=
  | JNull
  | JBool (b : bool)
  | JNum (n : number)
  | JStr (s : jsstring)
  | JArr (elems : list json)
  | JObj (members : list (jsstring * json)).

(** SerializeJSONProperty without the text: [None] is undefined, the
    outcome for undefined and for functions.  A member of an object whose
    value is undefined is left out, an element of an array that is
    undefined becomes null, a number that is not finite becomes null, a
    wrapper object becomes its primitive.  No value here has a callable
    toJSON. *)
Fixpoint wire (v : value) : option json :=
  match v with
  | VUndefined => None
  | VNull => Some JNull
  | VBool b => Some (JBool b)
  | VNum n => Some (if is_finite n then JNum n else JNull)
  | VStr s => Some (JStr s)
  | VArr elems =>
      Some (JArr ((fix elements (l : list value) : list json :=
                     match l with
                     | [] => []
                     | e :: l' =>
                         match wire e with
                         | Some j => j
                         | None => JNull
                         end :: elements l'
                     end) elems))
  | VObj props =>
      Some (JObj ((fix members (l : list (jsstring * value))
                     : list (jsstring * json) :=
                     match l with
                     | [] => []
                     | (k, e) :: l' =>
                         match wire e with
                         | Some j => (k, j) :: members l'
                         | None => members l'
                         end
                     end) props))
  | VBoxed prim => wire prim
  | VFun _ => None
  end.

Definition hex_char (d : N) : N :=
  if N.ltb d 10 then (48 + d)%N else (87 + d)%N.

Definition unicode_escape (c : N) : jsstring :=
  [92; 117; hex_char (N.shiftr c 12); hex_char (N.land (N.shiftr c 8) 15);
   hex_char (N.land (N.shiftr c 4) 15); hex_char (N.land c 15)]%N.

Definition is_high_surrogate (c : N) : bool := N.leb 55296 c && N.leb c 56319.
Definition is_low_surrogate (c : N) : bool := N.leb 56320 c && N.leb c 57343.

(** QuoteJSONString, without the enclosing quotes. *)
Fixpoint quote_chars (s : jsstring) : jsstring :=
  match s with
  | [] => []
  | c :: rest =>
      if N.eqb c 8 then u "\b" ++ quote_chars rest
      else if N.eqb c 9 then u "\t" ++ quote_chars rest
      else if N.eqb c 10 then u "\n" ++ quote_chars rest
      else if N.eqb c 12 then u "\f" ++ quote_chars rest
      else if N.eqb c 13 then u "\r" ++ quote_chars rest
      else if N.eqb c 34 then [92; 34]%N ++ quote_chars rest
      else if N.eqb c 92 then [92; 92]%N ++ quote_chars rest
      else if N.ltb c 32 then unicode_escape c ++ quote_chars rest
      else if is_high_surrogate c then
        match rest with
        | d :: rest' =>
            if is_low_surrogate d then c :: d :: quote_chars rest'
            else unicode_escape c ++ quote_chars rest
        | [] => unicode_escape c
        end
      else if is_low_surrogate c then unicode_escape c ++ quote_chars rest
      else c :: quote_chars rest
  end.

Definition quote (s : jsstring) : jsstring :=
  34%N :: quote_chars s ++ [34%N].

Fixpoint join (sep : jsstring) (parts : list jsstring) : jsstring :=
  match parts with
  | [] => []
  | [p] => p
  | p :: rest => p ++ sep ++ join sep rest
  end.

Fixpoint render (j : json) : jsstring :=
  match j with
  | JNull => u "null"
  | JBool b => if b then u "true" else u "false"
  | JNum n => to_string n
  | JStr s => quote s
  | JArr elems => u "[" ++ join (u ",") (map render elems) ++ u "]"
  | JObj members =>
      u "{"
      ++ join (u ",")
           ((fix each (l : list (jsstring * json)) : list jsstring :=
               match l with
               | [] => []
               | (k, e) :: l' => (quote k ++ u ":" ++ render e) :: each l'
               end) members)
      ++ u "}"
  end.

(** [JSON.stringify(v)]; [None] is undefined. *)
Definition stringify (v : value) : option jsstring :=
  option_map render (wire v).

(** The member [key] of a serialised object. *)
Definition member (key : jsstring) (j : json) : option json :=
  match j with
  | JObj members => Props.lookup members key
  | _ => None
  end.

End JSON.

(** ** The operations of the language the servers use *)
Module Runtime.

Import JsNumber.

(** Object.prototype as Deno sets it up: the standard properties, with
    the [__proto__] accessor deleted at start-up (the runtime the two
    servers are written for; elsewhere [__proto__] is one more inherited
    name). *)
Definition Object_prototype : list (jsstring * value) :=
  [ (u "constructor", VFun (Native ObjectConstructor));
    (u "__defineGetter__", VFun (Native DefineGetter));
    (u "__defineSetter__", VFun (Native DefineSetter));
    (u "hasOwnProperty", VFun (Native HasOwnProperty));
    (u "__lookupGetter__", VFun (Native LookupGetter));
    (u "__lookupSetter__", VFun (Native LookupSetter));
    (u "isPrototypeOf", VFun (Native IsPrototypeOf));
    (u "propertyIsEnumerable", VFun (Native PropertyIsEnumerable));
    (u "toString", VFun (Native ObjectToString));
    (u "valueOf", VFun (Native ValueOf));
    (u "toLocaleString", VFun (Native ToLocaleString)) ].

Definition string_element (s : jsstring) (key : jsstring) : option value :=
  match Props.array_index key with
  | Some i => option_map (fun c => VStr [c]) (nth_error s (Z.to_nat i))
  | None =>
      if str_eqb key (u "length") then Some (VNum (of_Z (Z.of_nat (List.length s))))
      else None
  end.

(** The own property [key] of a value that is not undefined or null. *)
Definition own_property (v : value) (key : jsstring) : option value :=
  match v with
  | VObj props => Props.lookup props key
  | VArr elems =>
      match Props.array_index key with
      | Some i => nth_error elems (Z.to_nat i)
      | None =>
          if str_eqb key (u "length")
          then Some (VNum (of_Z (Z.of_nat (List.length elems))))
          else None
      end
  | VStr s => string_element s key
  | VBoxed (VStr s) => string_element s key
  | _ => None
  end.

(** The plain object [props]: own properties, then Object.prototype. *)
Definition get_ordinary (props : list (jsstring * value)) (key : jsstring)
  : value :=
  match Props.lookup props key with
  | Some v => v
  | None =>
      match Props.lookup Object_prototype key with
      | Some f => f
      | None => VUndefined
      end
  end.

(** [v.key] and [v[key]].  Reading a property of undefined or null
    throws.  For an array, a string, a number or a boolean the walk goes
    from the own properties straight to Object.prototype: the keys the
    servers read from such values (jsonrpc, method, id, params, text, 0
    and 1) name no property of Array.prototype, String.prototype,
    Number.prototype or Boolean.prototype. *)
Definition Get (v : value) (key : jsstring) : completion value :=
  match v with
  | VUndefined =>
      Throw (TypeError (u "Cannot read properties of undefined (reading '"
                        ++ key ++ u "')"))
  | VNull =>
      Throw (TypeError (u "Cannot read properties of null (reading '"
                        ++ key ++ u "')"))
  | _ =>
      Normal match own_property v key with
             | Some w => w
             | None => get_ordinary [] key
             end
  end.

Definition ToBoolean (v : value) : bool :=
  match v with
  | VUndefined | VNull => false
  | VBool b => b
  | VNum (S754_zero _) | VNum S754_nan => false
  | VNum _ => true
  | VStr [] => false
  | VStr _ => true
  | _ => true
  end.

(** [v === s] for a string literal [s]. *)
Definition strict_equals_string (v : value) (s : jsstring) : bool :=
  match v with
  | VStr t => str_eqb t s
  | _ => false
  end.

(** [v ?? d]. *)
Definition nullish (v d : value) : value :=
  match v with
  | VUndefined | VNull => d
  | _ => v
  end.

(** ToString on a primitive. *)
Definition prim_to_string (v : value) : jsstring :=
  match v with
  | VUndefined => u "undefined"
  | VNull => u "null"
  | VBool b => if b then u "true" else u "false"
  | VNum n => to_string n
  | VStr s => s
  | _ => []
  end.

(** ToPrimitive.  A plain object answers through Object.prototype.valueOf
    (which gives the object back) and Object.prototype.toString, unless
    an own property [toString] hides the latter: a property read from
    JSON is never callable, and the conversion throws.  An array answers
    through Array.prototype.join.  For these values both hints give the
    same result. *)
Fixpoint ToPrimitive (v : value) : completion value :=
  match v with
  | VArr elems =>
      parts <- (fix each (l : list value) : completion (list jsstring) :=
                  match l with
                  | [] => Normal []
                  | e :: l' =>
                      str <- match e with
                             | VUndefined | VNull => Normal []
                             | _ => p <- ToPrimitive e ;; Normal (prim_to_string p)
                             end ;;
                      strs <- each l' ;;
                      Normal (str :: strs)
                  end) elems ;;
      Normal (VStr (JSON.join (u ",") parts))
  | VObj props =>
      match Props.lookup props (u "toString") with
      | Some _ => Throw (TypeError (u "Cannot convert object to primitive value"))
      | None => Normal (VStr (u "[object Object]"))
      end
  | VBoxed prim => Normal prim
  | VFun _ => Normal (VStr (u "function () { [native code] }"))
  | _ => Normal v
  end.

Definition ToString (v : value) : completion jsstring :=
  p <- ToPrimitive v ;; Normal (prim_to_string p).

Definition ToPropertyKey (v : value) : completion jsstring := ToString v.

(** ToNumber on undefined, null, a boolean or a number; [plus] below
    asks for nothing else. *)
Definition to_number (v : value) : number :=
  match v with
  | VNull => S754_zero false
  | VBool true => of_Z 1
  | VBool false => S754_zero false
  | VNum n => n
  | _ => NaN
  end.

(** [a + b]. *)
Definition plus (a b : value) : completion value :=
  lprim <- ToPrimitive a ;;
  rprim <- ToPrimitive b ;;
  match lprim, rprim with
  | VStr l, _ => Normal (VStr (l ++ prim_to_string rprim))
  | _, VStr r => Normal (VStr (prim_to_string lprim ++ r))
  | _, _ => Normal (VNum (add (to_number lprim) (to_number rprim)))
  end.

Definition is_object (v : value) : bool :=
  match v with
  | VArr _ | VObj _ | VBoxed _ | VFun _ => true
  | _ => false
  end.

Definition no_receiver : error :=
  TypeError (u "Cannot convert undefined or null to object").

(** A function of Object.prototype called as [f(arg)], that is with
    [this] undefined. *)
Definition call_native (n : native) (arg : value) : completion value :=
  match n with
  | ObjectConstructor =>
      Normal match arg with
             | VUndefined | VNull => VObj []
             | VBool _ | VNum _ | VStr _ => VBoxed arg
             | _ => arg
             end
  | ObjectToString => Normal (VStr (u "[object Undefined]"))
  | IsPrototypeOf =>
      if is_object arg then Throw no_receiver else Normal (VBool false)
  | HasOwnProperty | PropertyIsEnumerable =>
      _ <- ToPropertyKey arg ;; Throw no_receiver
  | ValueOf | ToLocaleString
  | DefineGetter | DefineSetter | LookupGetter | LookupSetter =>
      Throw no_receiver
  end.

(** [await x] on a value that is not a promise or a thenable: no value
    here has a callable [then]. *)
Definition await (A : Type) (x : completion A) : completion A := x.

End Runtime.

(** ** TextDecoder

    [new TextDecoder()] is the UTF-8 decoder of the Encoding standard with
    [fatal = false] and [ignoreBOM = false].  The servers call
    [decoder.decode(bytes)] without [{stream: true}], so every call starts
    from a fresh decoder, flushes at the end of its argument and drops one
    leading U+FEFF. *)
Module TextDecoder.

Record state := mk_state {
  code_point : N;
  bytes_seen : N;
  bytes_needed : N;
  lower : N;
  upper : N
}.

Definition init : state := mk_state 0 0 0 128 191.

Definition replacement : N := 65533.

Definition in_range (lo hi b : N) : bool := N.leb lo b && N.leb b hi.

(** One byte read while no sequence is pending. *)
Definition lead (b : N) : list N * state :=
  if in_range 0 127 b then ([b], init)
  else if in_range 194 223 b then
    ([], mk_state (N.land b 31) 0 1 128 191)
  else if in_range 224 239 b then
    ([], mk_state (N.land b 15) 0 2
                  (if N.eqb b 224 then 160 else 128)
                  (if N.eqb b 237 then 159 else 191))
  else if in_range 240 244 b then
    ([], mk_state (N.land b 7) 0 3
                  (if N.eqb b 240 then 144 else 128)
                  (if N.eqb b 244 then 143 else 191))
  else ([replacement], init).

(** The decoder's handler on one byte.  A byte outside the expected range
    ends the pending sequence with U+FFFD and is read again as a lead. *)
Definition step (st : state) (b : N) : list N * state :=
  if N.eqb (bytes_needed st) 0 then lead b
  else if negb (in_range (lower st) (upper st) b) then
    let '(out, st') := lead b in (replacement :: out, st')
  else
    let cp := N.lor (N.shiftl (code_point st) 6) (N.land b 63) in
    let seen := N.succ (bytes_seen st) in
    if N.eqb seen (bytes_needed st) then ([cp], init)
    else ([], mk_state cp seen (bytes_needed st) 128 191).

(** End of queue: a pending sequence yields one U+FFFD. *)
Definition flush (st : state) : list N :=
  if N.eqb (bytes_needed st) 0 then [] else [replacement].

(** Code points produced from [st] on [bytes], and the state reached. *)
Fixpoint run (st : state) (bytes : list byte) : list N * state :=
  match bytes with
  | [] => ([], st)
  | b :: rest =>
      let '(out, st1) := step st (Byte.to_N b) in
      let '(outs, st2) := run st1 rest in
      (out ++ outs, st2)
  end.

Definition scalars (bytes : list byte) : list N :=
  let '(out, st) := run init bytes in out ++ flush st.

Definition strip_bom (cps : list N) : list N :=
  match cps with
  | c :: rest => if N.eqb c 65279 then rest else cps
  | [] => []
  end.

(** A code point as UTF-16 code units. *)
Definition utf16 (cp : N) : list N :=
  if N.ltb cp 65536 then [cp]
  else let v := (cp - 65536)%N in
       [(55296 + N.shiftr v 10)%N; (56320 + N.land v 1023)%N].

Definition decode (bytes : list byte) : jsstring :=
  flat_map utf16 (strip_bom (scalars bytes)).

End TextDecoder.

(** ** The frame reader: [readLines] *)
Module FrameReader.

Definition newline : N := 10.

(** [buf.split("\n")]: the pieces between line feeds; never empty. *)
Fixpoint split (s : jsstring) : list jsstring :=
  match s with
  | [] => [[]]
  | c :: rest =>
      if N.eqb c newline then [] :: split rest
      else match split rest with
           | piece :: pieces => (c :: piece) :: pieces
           | [] => [[c]]
           end
  end.

(** [lines.pop()]: the last element, or [None] for undefined on an empty
    array, with the array that is left. *)
Fixpoint pop (A : Type) (l : list A) : option A * list A :=
  match l with
  | [] => (None, [])
  | [x] => (Some x, [])
  | x :: rest => let '(last, front) := pop rest in (last, x :: front)
  end.

(** [x ?? d] on the result of [pop]. *)
Definition coalesce (A : Type) (x : option A) (d : A) : A :=
  match x with Some v => v | None => d end.

(** The truth value of a string: non-empty. *)
Definition truthy_string (s : jsstring) : bool :=
  match s with [] => false | _ => true end.

(** The generator.  A reader is the list of byte chunks its successive
    [read] calls deliver before it returns [null]; the result is the
    sequence of yielded strings.  [buf] is the loop's variable. *)
Fixpoint readLines_from (buf : jsstring) (reads : list (list byte))
  : list jsstring :=
  match reads with
  | [] => if truthy_string buf then [buf] else []
  | chunk :: rest =>
      let buf1 := buf ++ TextDecoder.decode chunk in
      let '(last, lines) := pop (split buf1) in
      lines ++ readLines_from (coalesce last []) rest
  end.

Definition readLines (reads : list (list byte)) : list jsstring :=
  readLines_from [] reads.

End FrameReader.

(** ** TextEncoder *)
Module TextEncoder.

(** Code units to code points; a surrogate without its partner becomes
    U+FFFD. *)
Fixpoint scalars (s : jsstring) : list N :=
  match s with
  | [] => []
  | c :: rest =>
      if JSON.is_high_surrogate c then
        match rest with
        | d :: rest' =>
            if JSON.is_low_surrogate d
            then (65536 + N.shiftl (c - 55296) 10 + (d - 56320))%N :: scalars rest'
            else 65533%N :: scalars rest
        | [] => [65533%N]
        end
      else if JSON.is_low_surrogate c then 65533%N :: scalars rest
      else c :: scalars rest
  end.

Definition utf8 (cp : N) : list N :=
  if N.ltb cp 128 then [cp]
  else if N.ltb cp 2048 then
    [192 + N.shiftr cp 6; 128 + N.land cp 63]%N
  else if N.ltb cp 65536 then
    [224 + N.shiftr cp 12; 128 + N.land (N.shiftr cp 6) 63;
     128 + N.land cp 63]%N
  else
    [240 + N.shiftr cp 18; 128 + N.land (N.shiftr cp 12) 63;
     128 + N.land (N.shiftr cp 6) 63; 128 + N.land cp 63]%N.

Definition to_byte (n : N) : byte :=
  match Byte.of_N n with
  | Some b => b
  | None => x00
  end.

Definition encode (s : jsstring) : list byte :=
  map to_byte (flat_map utf8 (scalars s)).

End TextEncoder.

(** ** The stdio server *)
Module Stdio.

Import Runtime.

(** [echo: (params) => params.text] *)
Definition echo (params : value) : completion value :=
  Get params (u "text").

(** [add: (params) => params[0] + params[1]] *)
Definition add (params : value) : completion value :=
  a <- Get params (u "0") ;;
  b <- Get params (u "1") ;;
  plus a b.

Definition methods : list (jsstring * value) :=
  [ (u "echo", VFun (Handler EchoHandler));
    (u "add", VFun (Handler AddHandler)) ].

(** [methodFunc(arg)] *)
Definition call (methodFunc : value) (arg : value) : completion value :=
  match methodFunc with
  | VFun (Handler EchoHandler) => echo arg
  | VFun (Handler AddHandler) => add arg
  | VFun (Native n) => call_native n arg
  | _ => Throw (TypeError (u "methodFunc is not a function"))
  end.

(** The object literal [{ code, message }]. *)
Definition error_object (code : Z) (message : jsstring) : value :=
  VObj [ (u "code", VNum (JsNumber.of_Z code)); (u "message", VStr message) ].

(** The object literal [{ jsonrpc: "2.0", id, error: { code, message } }]. *)
Definition failure (id : value) (code : Z) (message : jsstring) : value :=
  VObj [ (u "jsonrpc", VStr (u "2.0")); (u "id", id);
         (u "error", error_object code message) ].

(** The object literal [{ jsonrpc: "2.0", id, result }]; the property is
    there even when [result] is undefined. *)
Definition success (id : value) (result : value) : value :=
  VObj [ (u "jsonrpc", VStr (u "2.0")); (u "id", id); (u "result", result) ].

(** [request.jsonrpc !== "2.0" || !request.method] *)
Definition invalid (request : value) : completion bool :=
  jsonrpc <- Get request (u "jsonrpc") ;;
  if negb (strict_equals_string jsonrpc (u "2.0")) then Normal true
  else method <- Get request (u "method") ;; Normal (negb (ToBoolean method)).

(** [methods[request.method]] *)
Definition lookup_method (request : value) : completion value :=
  method <- Get request (u "method") ;;
  key <- ToPropertyKey method ;;
  Normal (get_ordinary methods key).

(** [await methodFunc(request.params)], the body of the inner [try]. *)
Definition invoke (methodFunc request : value) : completion value :=
  await (params <- Get request (u "params") ;; call methodFunc params).

(** The body of the outer [try], from the parsed request on. *)
Definition dispatch (request : value) : completion (option jsstring) :=
  bad <- invalid request ;;
  if bad then Throw (Error (u "Invalid Request"))
  else
    methodFunc <- lookup_method request ;;
    if negb (ToBoolean methodFunc) then
      id <- Get request (u "id") ;;
      Normal (JSON.stringify
                (failure (nullish id VNull) (-32601) (u "Method not found")))
    else
      match invoke methodFunc request with
      | Throw err =>
          id <- Get request (u "id") ;;
          Normal (JSON.stringify
                    (failure (nullish id VNull) (-32000) (err_message err)))
      | Normal result =>
          id <- Get request (u "id") ;;
          Normal (JSON.stringify (success (nullish id VNull) result))
      end.

(** The response of the outer [catch]. *)
Definition parse_error : value :=
  failure VNull (-32700) (u "Parse error").

(** [processMessage(line)]: the string the promise resolves to ([None]
    for undefined), or the exception it rejects with. *)
Definition processMessage (line : jsstring) : completion (option jsstring) :=
  try_catch
    (request <- JSON.parse line ;; dispatch request)
    (fun _err => Normal (JSON.stringify parse_error)).

(** [response + "\n"] *)
Definition with_newline (response : option jsstring) : jsstring :=
  match response with
  | Some str => str
  | None => u "undefined"
  end ++ [10%N].

(** The main loop: what is written to stdout, one write per line read. *)
Fixpoint serve (lines : list jsstring) : completion (list (list byte)) :=
  match lines with
  | [] => Normal []
  | line :: rest =>
      response <- await (processMessage line) ;;
      writes <- serve rest ;;
      Normal (TextEncoder.encode (with_newline response) :: writes)
  end.

Definition main (stdin : list (list byte)) : completion (list (list byte)) :=
  serve (FrameReader.readLines stdin).

End Stdio.

(** ** The HTTP server *)
Module Http.

Import Runtime.

(** What the handler reads of a request: its verb and the outcome of
    [await req.text()]. *)
Record Request := mk_request {
  req_method : jsstring;
  req_text : completion jsstring
}.

(** [new Response(body, { status, headers })]; the status defaults to
    200. *)
Record Response := mk_response {
  body : option jsstring;
  status : Z;
  headers : list (jsstring * jsstring)
}.

Definition json_headers : list (jsstring * jsstring) :=
  [ (u "Content-Type", u "application/json") ].

Definition echo (params : value) : completion value :=
  Get params (u "text").

Definition add (params : value) : completion value :=
  a <- Get params (u "0") ;;
  b <- Get params (u "1") ;;
  plus a b.

Definition methods : list (jsstring * value) :=
  [ (u "echo", VFun (Handler EchoHandler));
    (u "add", VFun (Handler AddHandler)) ].

Definition call (methodFunc : value) (arg : value) : completion value :=
  match methodFunc with
  | VFun (Handler EchoHandler) => echo arg
  | VFun (Handler AddHandler) => add arg
  | VFun (Native n) => call_native n arg
  | _ => Throw (TypeError (u "methodFunc is not a function"))
  end.

(** The object literal [{ code, message }]. *)
Definition error_object (code : Z) (message : jsstring) : value :=
  VObj [ (u "code", VNum (JsNumber.of_Z code)); (u "message", VStr message) ].

(** The object literal [{ jsonrpc: "2.0", id, error: { code, message } }]. *)
Definition failure (id : value) (code : Z) (message : jsstring) : value :=
  VObj [ (u "jsonrpc", VStr (u "2.0")); (u "id", id);
         (u "error", error_object code message) ].

(** The object literal [{ jsonrpc: "2.0", id, result }]; the property is
    there even when [result] is undefined. *)
Definition success (id : value) (result : value) : value :=
  VObj [ (u "jsonrpc", VStr (u "2.0")); (u "id", id); (u "result", result) ].

Definition invalid (rpcReq : value) : completion bool :=
  jsonrpc <- Get rpcReq (u "jsonrpc") ;;
  if negb (strict_equals_string jsonrpc (u "2.0")) then Normal true
  else method <- Get rpcReq (u "method") ;; Normal (negb (ToBoolean method)).

Definition ok (response : value) : Response :=
  mk_response (JSON.stringify response) 200 json_headers.

(** [methods[rpcReq.method]] *)
Definition lookup_method (rpcReq : value) : completion value :=
  method <- Get rpcReq (u "method") ;;
  key <- ToPropertyKey method ;;
  Normal (get_ordinary methods key).

(** [await methodFunc(rpcReq.params)], the body of the inner [try]. *)
Definition invoke (methodFunc rpcReq : value) : completion value :=
  await (params <- Get rpcReq (u "params") ;; call methodFunc params).

(** The body of the [try], from the parsed request on.  The template
    literal of the not-found message converts [rpcReq.method] with
    ToString. *)
Definition dispatch (rpcReq : value) : completion Response :=
  bad <- invalid rpcReq ;;
  if bad then Throw (Error (u "Invalid Request: missing jsonrpc or method"))
  else
    methodFunc <- lookup_method rpcReq ;;
    if negb (ToBoolean methodFunc) then
      id <- Get rpcReq (u "id") ;;
      method <- Get rpcReq (u "method") ;;
      name <- ToString method ;;
      Normal (ok (failure id (-32601) (u "Method not found: " ++ name)))
    else
      match invoke methodFunc rpcReq with
      | Throw err =>
          id <- Get rpcReq (u "id") ;;
          Normal (ok (failure (nullish id VNull) (-32000) (err_message err)))
      | Normal result =>
          id <- Get rpcReq (u "id") ;;
          Normal (ok (success (nullish id VNull) result))
      end.

(** The response of the outer [catch]. *)
Definition parse_error : value :=
  failure VNull (-32700) (u "Parse error").

Definition handler (req : Request) : completion Response :=
  if negb (str_eqb (req_method req) (u "POST")) then
    Normal (mk_response (Some (u "Method Not Allowed")) 405 [])
  else
    try_catch
      (bodyText <- await (req_text req) ;;
       rpcReq <- JSON.parse bodyText ;;
       dispatch rpcReq)
      (fun _err =>
         Normal (mk_response (JSON.stringify parse_error) 400 json_headers)).

End Http.

(** ** The HTTP client *)
Module HttpClient.

Import Runtime.

(** The default value of the third parameter, [id = 1]: taken when the
    argument is undefined. *)
Definition default_id (id : value) : value :=
  match id with
  | VUndefined => VNum (JsNumber.of_Z 1)
  | _ => id
  end.

(** The object literal [{ jsonrpc: "2.0", method, params, id }]. *)
Definition payload (method params id : value) : value :=
  VObj [ (u "jsonrpc", VStr (u "2.0")); (u "method", method);
         (u "params", params); (u "id", id) ].

(** [await response.json()]: the bytes of the body decoded as UTF-8 and
    parsed. *)
Definition response_json (response : list byte) : completion value :=
  JSON.parse (TextDecoder.decode response).

(** The template literal
    [`Error ${json.error.code}: ${json.error.message}: ${json.error.data}`]:
    every substitution is read and converted with ToString before the
    next one is looked at.  The keys read here (error, code, message,
    data, result) name no property of Array.prototype, String.prototype,
    Number.prototype or Boolean.prototype either. *)
Definition error_text (json : value) : completion jsstring :=
  error1 <- Get json (u "error") ;;
  code <- Get error1 (u "code") ;;
  code_str <- ToString code ;;
  error2 <- Get json (u "error") ;;
  message <- Get error2 (u "message") ;;
  message_str <- ToString message ;;
  error3 <- Get json (u "error") ;;
  data <- Get error3 (u "data") ;;
  data_str <- ToString data ;;
  Normal (u "Error " ++ code_str ++ u ": " ++ message_str ++ u ": " ++ data_str).

Section Client.

(** [fetch("http://localhost:8000", { method: "POST", body, headers })]:
    from the body sent (undefined sends none) to the bytes of the body of
    the response, or the exception the promise rejects with. *)
Variable fetch : option jsstring -> completion (list byte).

Definition jsonRPCRequest (method params id : value) : completion value :=
  let payload := payload method params (default_id id) in
  response <- await (fetch (JSON.stringify payload)) ;;
  json <- await (response_json response) ;;
  err <- Get json (u "error") ;;
  if ToBoolean err then
    text <- error_text json ;;
    Throw (Error text)
  else Get json (u "result").

End Client.

End HttpClient.

(** ** The stdio client *)
Module StdioClient.

Import Runtime.

(** [JSON.stringify(request) + "\n"] *)
Definition message (request : value) : jsstring :=
  match JSON.stringify request with
  | Some str => str
  | None => u "undefined"
  end ++ [10%N].

Section Client.

(** The server process between its two pipes: from the bytes written to
    its stdin to what the reads of its stdout give, up to the end of the
    stream.  The client's [readLines] is the server's, word for word. *)
Variable serverProcess : list byte -> list (list byte).

(** [sendRequest(request)]: the first line read is parsed and returned;
    the loop body returns, so no second line is looked at. *)
Definition sendRequest (request : value) : completion value :=
  match FrameReader.readLines
          (serverProcess (TextEncoder.encode (message request))) with
  | line :: _ => JSON.parse line
  | [] => Throw (Error (u "No response received"))
  end.

End Client.

End StdioClient.

(** * Vocabulary of the statements *)

Import FrameReader TextDecoder JSON Runtime.

(** ** Frames *)

(** What the contract asks for: the whole input decoded at once, cut at
    every line feed, the piece after the last line feed kept only when it
    is not empty. *)
Definition frames_of_text (text : jsstring) : list jsstring :=
  let '(last, lines) := pop (split text) in
  lines ++ (if truthy_string (coalesce last []) then [coalesce last []] else []).

Definition expected_frames (reads : list (list byte)) : list jsstring :=
  frames_of_text (TextDecoder.decode (concat reads)).

(** A chunk that ends on a character boundary. *)
Definition ends_clean (chunk : list byte) : bool :=
  N.eqb (TextDecoder.bytes_needed (snd (TextDecoder.run TextDecoder.init chunk))) 0.

(** A chunk whose first decoded character is a byte order mark. *)
Definition starts_with_bom (chunk : list byte) : bool :=
  match TextDecoder.scalars chunk with
  | c :: _ => N.eqb c 65279
  | [] => false
  end.

(** A chunking that splits no multi-byte sequence and has no byte order
    mark at the start of a later chunk. *)
Definition aligned (reads : list (list byte)) : bool :=
  forallb ends_clean reads && forallb (fun c => negb (starts_with_bom c)) (tl reads).

Definition cons_head (c : N) (pieces : list jsstring) : list jsstring :=
  match pieces with
  | piece :: rest => (c :: piece) :: rest
  | [] => [[c]]
  end.

Definition init_lines (s : jsstring) : list jsstring := snd (pop (split s)).

Definition last_line (s : jsstring) : jsstring := coalesce (fst (pop (split s))) [].

Definition no_newline (s : jsstring) : bool :=
  forallb (fun c => negb (N.eqb c newline)) s.

(** A state with no pending sequence is the initial state. *)
Definition settled (st : state) : Prop := bytes_needed st = 0%N -> st = init.

Definition no_bom (cps : list N) : bool :=
  match cps with
  | c :: _ => negb (N.eqb c 65279)
  | [] => true
  end.

(** Values made of null, booleans, numbers, strings, arrays and plain
    objects only. *)
Fixpoint plain (v : value) : Prop :=
  match v with
  | VNull | VBool _ | VNum _ | VStr _ => True
  | VArr elems =>
      (fix all (l : list value) : Prop :=
         match l with
         | [] => True
         | e :: l' => plain e /\ all l'
         end) elems
  | VObj props =>
      (fix all (l : list (jsstring * value)) : Prop :=
         match l with
         | [] => True
         | (_, e) :: l' => plain e /\ all l'
         end) props
  | _ => False
  end.

Definition plain_props (props : list (jsstring * value)) : Prop :=
  Forall (fun kv => plain (snd kv)) props.

Definition plain_token (t : token) : Prop :=
  match t with
  | TAtom v => plain v
  | _ => True
  end.

Definition plain_frame (f : frame) : Prop :=
  match f with
  | FArray done => Forall plain done
  | FObject done _ => plain_props done
  end.

Definition plain_state (st : parse_state) : Prop :=
  match st with
  | PValue stack | PArrayFirst stack | PObjectFirst stack =>
      Forall plain_frame stack
  | PArrayNext stack done => Forall plain_frame stack /\ Forall plain done
  | PObjectKey stack done | PObjectColon stack done _ | PObjectNext stack done =>
      Forall plain_frame stack /\ plain_props done
  | PEnd v => plain v
  end.

Definition optional (key : jsstring) (j : option json)
  : list (jsstring * json) :=
  match j with
  | Some x => [(key, x)]
  | None => []
  end.

(** The serialised form of an error response; [id] is absent when the
    response object holds undefined there. *)
Definition error_json (id : option json) (code : Z) (message : jsstring)
  : json :=
  JObj ((u "jsonrpc", JStr (u "2.0"))
        :: optional (u "id") id
        ++ [(u "error", JObj [ (u "code", JNum (JsNumber.of_Z code));
                               (u "message", JStr message) ])]).

(** The serialised form of a success response; [result] is absent when
    the handler returned undefined. *)
Definition result_json (id result : option json) : json :=
  JObj ((u "jsonrpc", JStr (u "2.0"))
        :: optional (u "id") id ++ optional (u "result") result).

Definition parse_error_json : json :=
  error_json (Some JNull) (-32700) (u "Parse error").

Definition parse_error_text : jsstring :=
  js "{'jsonrpc':'2.0','id':null,'error':{'code':-32700,'message':'Parse error'}}".

(** The value a property read gives on a value known not to be undefined
    or null. *)
Definition field (v : value) (key : jsstring) : value :=
  match Get v key with
  | Normal w => w
  | Throw _ => VUndefined
  end.

(** The steps every request goes through before a handler is looked at:
    parse, check, look the method up. *)
Definition intake (text : jsstring) : completion (value * value) :=
  request <- JSON.parse text ;;
  bad <- Stdio.invalid request ;;
  if bad then Throw (Error (u "Invalid Request"))
  else methodFunc <- Stdio.lookup_method request ;; Normal (request, methodFunc).

Definition is_post (req : Http.Request) : bool :=
  str_eqb (Http.req_method req) (u "POST").

(** A POST request whose body reads as [text]. *)
Definition post (text : jsstring) : Http.Request :=
  Http.mk_request (u "POST") (Normal text).

Definition json_response (status : Z) (j : json) : Http.Response :=
  Http.mk_response (Some (render j)) status Http.json_headers.

(** The text [${rpcReq.method}] of a request that passed the lookup. *)
Definition method_name (request : value) : jsstring :=
  match ToString (field request (u "method")) with
  | Normal name => name
  | Throw _ => []
  end.

Definition has_member (key : jsstring) (j : json) : bool :=
  match member key j with
  | Some _ => true
  | None => false
  end.

(** An integral number as an integer. *)
Definition integer_of (n : JsNumber.number) : option Z :=
  match n with
  | S754_zero _ => Some 0%Z
  | S754_finite s m e =>
      if (0 <=? e)%Z then Some (cond_Zopp s (Zpos m * 2 ^ e))
      else if (Zpos m mod 2 ^ (- e) =? 0)%Z
           then Some (cond_Zopp s (Zpos m / 2 ^ (- e)))
           else None
  | _ => None
  end.

(** What a client finds in a response text: [JSON.parse(text)[key]]. *)
Definition read_member (text : jsstring) (key : jsstring) : option value :=
  match JSON.parse text with
  | Normal (VObj props) => Props.lookup props key
  | _ => None
  end.

(** [JSON.parse(text).error.code] *)
Definition read_error_code (text : jsstring) : option Z :=
  match read_member text (u "error") with
  | Some (VObj props) =>
      match Props.lookup props (u "code") with
      | Some (VNum n) => integer_of n
      | _ => None
      end
  | _ => None
  end.

(** The text [processMessage] resolves to. *)
Definition response_text (line : jsstring) : jsstring :=
  match Stdio.processMessage line with
  | Normal (Some text) => text
  | _ => []
  end.

(** A response with the version member and not both of result and error. *)
Definition well_shaped (j : json) : Prop :=
  member (u "jsonrpc") j = Some (JStr (u "2.0"))
  /\ has_member (u "result") j && has_member (u "error") j = false.

(** A response with neither result nor error. *)
Definition bare (j : json) : Prop :=
  has_member (u "result") j = false /\ has_member (u "error") j = false.

(** The request in [text] is valid, its method resolves, and the handler
    returns undefined. *)
Definition returns_undefined (text : jsstring) : Prop :=
  exists request methodFunc,
    JSON.parse text = Normal request
    /\ Stdio.invalid request = Normal false
    /\ Stdio.lookup_method request = Normal methodFunc
    /\ ToBoolean methodFunc = true
    /\ Stdio.invoke methodFunc request = Normal VUndefined.

(** The body cannot be read, is not JSON, or holds something that fails
    the request check or whose method cannot be made a property key. *)
Definition rejected (req : Http.Request) : Prop :=
  (exists e, Http.req_text req = Throw e)
  \/ exists text,
      Http.req_text req = Normal text
      /\ ((exists e, JSON.parse text = Throw e)
          \/ exists request,
              JSON.parse text = Normal request
              /\ (request = VNull
                  \/ Stdio.invalid request = Normal true
                  \/ (Stdio.invalid request = Normal false
                      /\ exists e,
                          ToPropertyKey (field request (u "method")) = Throw e))).

(** The body holds a valid request, whose method lookup gave
    [methodFunc]. *)
Definition accepted (req : Http.Request) (request methodFunc : value) : Prop :=
  exists text,
    Http.req_text req = Normal text
    /\ JSON.parse text = Normal request
    /\ Stdio.invalid request = Normal false
    /\ Stdio.lookup_method request = Normal methodFunc.

(** ** More about frames *)

(** Every frame followed by a line feed, one after the other. *)
Definition with_line_feeds (frames : list jsstring) : jsstring :=
  flat_map (fun frame => frame ++ [newline]) frames.

(** The text is empty or ends with a line feed. *)
Definition ends_with_line_feed (text : jsstring) : bool :=
  N.eqb (last text newline) newline.

(** What the reads decode to, chunk by chunk as [readLines] does it. *)
Definition decoded_chunks (reads : list (list byte)) : jsstring :=
  concat (map TextDecoder.decode reads).

Definition is_ascii (b : byte) : bool := N.ltb (Byte.to_N b) 128.

(** ** Reading back what JSON.stringify wrote *)

(** The tokens of a serialised value. *)
Fixpoint tokens (j : json) : list token :=
  match j with
  | JNull => [TAtom VNull]
  | JBool b => [TAtom (VBool b)]
  | JNum n => [TAtom (VNum n)]
  | JStr s => [TString s]
  | JArr elems =>
      TLBracket
      :: match elems with
         | [] => []
         | e :: more =>
             tokens e
             ++ (fix each (l : list json) : list token :=
                   match l with
                   | [] => []
                   | x :: l' => TComma :: tokens x ++ each l'
                   end) more
         end
      ++ [TRBracket]
  | JObj members =>
      TLBrace
      :: match members with
         | [] => []
         | (k, e) :: more =>
             TString k :: TColon :: tokens e
             ++ (fix each (l : list (jsstring * json)) : list token :=
                   match l with
                   | [] => []
                   | (k', x) :: l' =>
                       TComma :: TString k' :: TColon :: tokens x ++ each l'
                   end) more
         end
      ++ [TRBrace]
  end.

(** The value JSON.parse builds from a serialised value: the members of an
    object are defined one after the other, so a repeated key keeps its
    last value and integer keys come first. *)
Fixpoint value_of (j : json) : value :=
  match j with
  | JNull => VNull
  | JBool b => VBool b
  | JNum n => VNum n
  | JStr s => VStr s
  | JArr elems => VArr (map value_of elems)
  | JObj members =>
      VObj ((fix each (l : list (jsstring * json))
               (done : list (jsstring * value)) : list (jsstring * value) :=
               match l with
               | [] => done
               | (k, e) :: l' => each l' (Props.define done k (value_of e))
               end) members [])
  end.

(** A number whose decimal form, as Number::toString writes it, reads back
    as the same number. *)
Definition reads_back (n : JsNumber.number) : Prop :=
  atom_of_word (JsNumber.to_string n) = Some (VNum n).

(** A serialised value all of whose numbers read back. *)
Fixpoint readable (j : json) : Prop :=
  match j with
  | JNum n => reads_back n
  | JArr elems =>
      (fix all (l : list json) : Prop :=
         match l with
         | [] => True
         | e :: l' => readable e /\ all l'
         end) elems
  | JObj members =>
      (fix all (l : list (jsstring * json)) : Prop :=
         match l with
         | [] => True
         | (_, e) :: l' => readable e /\ all l'
         end) members
  | _ => True
  end.

(** The text that follows a number or a literal does not go on with a
    character of a number or a literal. *)
Definition delimited (rest : jsstring) : Prop :=
  match rest with
  | [] => True
  | c :: _ => is_word_char c = false
  end.

(** The parser at the start of a value, inside [stack]. *)
Definition parse_from_value (stack : list frame) (toks : list token)
  : option value :=
  match toks with
  | [] => None
  | t :: rest =>
      match start_value stack t with
      | Some st => parse_tokens st rest
      | None => None
      end
  end.

(** The members of an object defined one after the other. *)
Fixpoint define_members (l : list (jsstring * json))
  (done : list (jsstring * value)) : list (jsstring * value) :=
  match l with
  | [] => done
  | (k, e) :: l' => define_members l' (Props.define done k (value_of e))
  end.

(** One member of a serialised object, as text and as tokens. *)
Definition render_member (kv : jsstring * json) : jsstring :=
  quote (fst kv) ++ u ":" ++ render (snd kv).

Definition member_tokens (kv : jsstring * json) : list token :=
  TString (fst kv) :: TColon :: tokens (snd kv).

(** ** Well-formed text *)

(** A string of 16-bit code units in which every surrogate has its
    partner. *)
Fixpoint well_formed (s : jsstring) : bool :=
  match s with
  | [] => true
  | c :: rest =>
      if is_high_surrogate c then
        match rest with
        | d :: rest' => is_low_surrogate d && well_formed rest'
        | [] => false
        end
      else negb (is_low_surrogate c) && N.ltb c 65536 && well_formed rest
  end.

(** A Unicode scalar value: a code point that is not a surrogate. *)
Definition is_scalar (cp : N) : Prop :=
  (cp < 1114112)%N /\ ~ (55296 <= cp <= 57343)%N.

(** The text does not begin with a byte order mark. *)
Definition no_leading_bom (s : jsstring) : bool :=
  match s with
  | c :: _ => negb (N.eqb c 65279)
  | [] => true
  end.

(** A string of 16-bit code units. *)
Definition code_units (s : jsstring) : bool :=
  forallb (fun c => N.ltb c 65536) s.

(** A serialised value whose strings and keys are strings of code units. *)
Fixpoint proper (j : json) : Prop :=
  match j with
  | JStr s => code_units s = true
  | JArr elems =>
      (fix all (l : list json) : Prop :=
         match l with
         | [] => True
         | e :: l' => proper e /\ all l'
         end) elems
  | JObj members =>
      (fix all (l : list (jsstring * json)) : Prop :=
         match l with
         | [] => True
         | (k, e) :: l' => (code_units k = true /\ proper e) /\ all l'
         end) members
  | _ => True
  end.

(** Text that is well formed wherever it stands and holds no line feed. *)
Definition clean (s : jsstring) : Prop :=
  (forall rest, well_formed (s ++ rest) = well_formed rest)
  /\ no_newline s = true.

(** A character that is neither a surrogate nor a line feed. *)
Definition tame (c : N) : bool := N.ltb c 55296 && negb (N.eqb c 10).

(** ** The two ends put together *)

Definition body_text (body : option jsstring) : jsstring :=
  match body with
  | Some text => text
  | None => []
  end.

(** [fetch] answered by [Deno.serve(handler)]: a body travels as UTF-8
    both ways, and a handler that rejects is answered for by Deno.serve
    with its 500 response. *)
Definition served (body : option jsstring) : completion (list byte) :=
  let text := TextDecoder.decode (TextEncoder.encode (body_text body)) in
  Normal (TextEncoder.encode
            match Http.handler (post text) with
            | Normal response => body_text (Http.body response)
            | Throw _ => u "Internal Server Error"
            end).

(** A pipe hands [bytes] over as [reads]: nothing lost, nothing added, no
    character cut in two and no byte order mark at the start of a later
    read. *)
Definition carries (bytes : list byte) (reads : list (list byte)) : Prop :=
  concat reads = bytes /\ aligned reads = true.

(** The process runs the stdio server on the [bytes] it is sent: the
    server reads them from a pipe, and what it writes comes back through
    a pipe. *)
Definition runs_server (serverProcess : list byte -> list (list byte))
  (bytes : list byte) : Prop :=
  exists stdin writes,
    carries bytes stdin
    /\ Stdio.main stdin = Normal writes
    /\ carries (concat writes) (serverProcess bytes).

(** An id a client may send: a number that reads back, or a string. *)
Definition sendable (id : value) : Prop :=
  match id with
  | VNum n => reads_back n
  | VStr s => code_units s = true
  | _ => False
  end.

(** The request object [{ jsonrpc: "2.0", id, method, params }]. *)
Definition request_of (id method params : value) : value :=
  VObj [ (u "jsonrpc", VStr (u "2.0")); (u "id", id);
         (u "method", method); (u "params", params) ].

(** What JSON.stringify makes of the value, if anything, is text of code
    units whose numbers read back. *)
Definition transmittable (v : value) : Prop :=
  forall j, wire v = Some j -> proper j /\ readable j.


(** [encoder.encode(line + "\n")], the bytes of one write of the main
    loop. *)
Definition written (line : jsstring) : list byte :=
  TextEncoder.encode (line ++ [newline]).

(** A line that can be written and read back: no line feed in it, and no
    surrogate without its partner. *)
Definition one_line (line : jsstring) : Prop :=
  no_newline line = true /\ well_formed line = true.

(** A pipe that hands its bytes over in two reads, cut after the seventh
    byte. *)
Definition in_two_reads (bytes : list byte) : list (list byte) :=
  [firstn 7 bytes; skipn 7 bytes].

(** The stdio server between two such pipes. *)
Definition piped_server (bytes : list byte) : list (list byte) :=
  match Stdio.main (in_two_reads bytes) with
  | Normal writes => in_two_reads (concat writes)
  | Throw _ => []
  end.

(** A write that is one line: it ends with the byte of a line feed and
    holds no other. *)
Definition single_line (write : list byte) : Prop :=
  exists body, write = body ++ [x0a] /\ ~ In x0a body.

(** * Properties *)

(** ** The frame reader *)
Section FrameReaderFacts.

Import FrameReader.

Lemma split_cons c s :
  split (c :: s) = if N.eqb c newline then [] :: split s else cons_head c (split s).
Proof. simpl. destruct (N.eqb c newline); [reflexivity|]. now destruct (split s). Qed.

Lemma split_not_nil s : split s <> [].
Proof.
  destruct s as [|c s]; [discriminate|].
  rewrite split_cons. destruct (N.eqb c newline); [discriminate|].
  destruct (split s); discriminate.
Qed.

Lemma pop_cons (A : Type) (x : A) (l : list A) :
  l <> [] -> pop (x :: l) = (fst (pop l), x :: snd (pop l)).
Proof.
  intros Hl. destruct l as [|y l]; [congruence|].
  change (pop (x :: y :: l))
    with (let '(last, front) := pop (y :: l) in (last, x :: front)).
  now destruct (pop (y :: l)).
Qed.

Lemma pop_app (A : Type) (l l' : list A) :
  l' <> [] -> pop (l ++ l') = (fst (pop l'), l ++ snd (pop l')).
Proof.
  intros Hl'. induction l as [|x l IH]; simpl app.
  - now destruct (pop l').
  - rewrite pop_cons, IH; [reflexivity|]. now destruct l.
Qed.

Lemma pop_some (A : Type) (l : list A) :
  l <> [] -> exists x, fst (pop l) = Some x /\ l = snd (pop l) ++ [x].
Proof.
  induction l as [|y l IH]; [congruence|]. intros _.
  destruct l as [|z l].
  - exists y. now split.
  - destruct IH as [x [Hx Hl]]; [discriminate|].
    exists x. rewrite pop_cons by discriminate. cbn [fst snd app].
    split; [exact Hx|]. f_equal. exact Hl.
Qed.

Lemma split_decompose s : split s = init_lines s ++ [last_line s].
Proof.
  unfold init_lines, last_line.
  destruct (pop_some (split_not_nil s)) as [x [Hx Hs]].
  now rewrite Hx.
Qed.

Lemma pop_split_cons_head c pieces :
  pieces <> [] ->
  pop (cons_head c pieces)
  = match snd (pop pieces) with
    | [] => (option_map (cons c) (fst (pop pieces)), [])
    | first :: more => (fst (pop pieces), (c :: first) :: more)
    end.
Proof.
  destruct pieces as [|piece rest]; [congruence|]. intros _. simpl cons_head.
  destruct rest as [|r rest]; [reflexivity|].
  rewrite (pop_cons (c :: piece)), (pop_cons piece) by discriminate.
  reflexivity.
Qed.

(** The text after the last line feed of [s] is what a later chunk
    extends. *)
Lemma split_app s t :
  split (s ++ t) = init_lines s ++ split (last_line s ++ t).
Proof.
  unfold init_lines, last_line.
  induction s as [|c s IH].
  - reflexivity.
  - rewrite <- app_comm_cons, !split_cons.
    destruct (N.eqb c newline) eqn:Hc.
    + rewrite pop_cons by apply split_not_nil. cbn [fst snd app].
      now rewrite IH.
    + rewrite pop_split_cons_head by apply split_not_nil.
      rewrite IH.
      destruct (pop_some (split_not_nil s)) as [x [Hx Hs]].
      rewrite Hx in *. simpl coalesce in *.
      destruct (snd (pop (split s))) as [|first more]; simpl.
      * now rewrite Hc.
      * reflexivity.
Qed.

Lemma no_newline_split s : no_newline s = true -> split s = [s].
Proof.
  induction s as [|c s IH]; [reflexivity|].
  simpl no_newline. rewrite andb_true_iff, negb_true_iff. intros [Hc Hs].
  now rewrite split_cons, Hc, IH.
Qed.

Lemma last_line_no_newline s : no_newline (last_line s) = true.
Proof.
  unfold last_line. induction s as [|c s IH]; [reflexivity|].
  rewrite split_cons. destruct (N.eqb c newline) eqn:Hc.
  - now rewrite pop_cons by apply split_not_nil.
  - rewrite pop_split_cons_head by apply split_not_nil.
    destruct (pop_some (split_not_nil s)) as [x [Hx Hs]].
    rewrite Hx in *. simpl coalesce in IH.
    destruct (snd (pop (split s))); simpl; [|exact IH].
    now rewrite Hc, IH.
Qed.

Lemma frames_of_text_app s t :
  frames_of_text (s ++ t) = init_lines s ++ frames_of_text (last_line s ++ t).
Proof.
  unfold frames_of_text. rewrite split_app.
  rewrite pop_app by apply split_not_nil.
  destruct (pop (split (last_line s ++ t))) as [last lines].
  simpl fst. simpl snd. now rewrite app_assoc.
Qed.

(** The loop yields the frames of its buffer followed by everything the
    remaining reads decode to. *)
Lemma readLines_from_frames reads : forall buf,
  no_newline buf = true ->
  readLines_from buf reads
  = frames_of_text (buf ++ concat (map TextDecoder.decode reads)).
Proof.
  induction reads as [|chunk rest IH]; intros buf Hbuf.
  - simpl. rewrite app_nil_r. unfold frames_of_text.
    now rewrite (no_newline_split _ Hbuf).
  - simpl readLines_from. simpl map. simpl concat.
    rewrite app_assoc, frames_of_text_app.
    pose proof (split_decompose (buf ++ TextDecoder.decode chunk)) as Hd.
    pose proof (last_line_no_newline (buf ++ TextDecoder.decode chunk)) as Hl.
    unfold init_lines, last_line in *.
    destruct (pop (split (buf ++ TextDecoder.decode chunk))) as [last lines].
    simpl fst in *. simpl snd in *.
    now rewrite IH.
Qed.

End FrameReaderFacts.

(** ** Decoding chunk by chunk *)
Section DecoderFacts.

Import TextDecoder FrameReader.

Lemma lead_settled b : settled (snd (lead b)).
Proof.
  unfold lead, settled.
  repeat match goal with
         | |- context [if ?c then _ else _] => destruct c
         end; simpl; intros H; try reflexivity; discriminate.
Qed.

Lemma step_settled st b : settled st -> settled (snd (step st b)).
Proof.
  intros Hst. unfold step.
  destruct (N.eqb (bytes_needed st) 0) eqn:Hn; [apply lead_settled|].
  destruct (negb (in_range (lower st) (upper st) b)).
  - pose proof (lead_settled b) as Hl. now destruct (lead b).
  - destruct (N.eqb (N.succ (bytes_seen st)) (bytes_needed st)).
    + now intros _.
    + intros H. simpl in H. apply N.eqb_neq in Hn. contradiction.
Qed.

Lemma run_settled bytes : forall st, settled st -> settled (snd (run st bytes)).
Proof.
  induction bytes as [|b rest IH]; intros st Hst; [exact Hst|].
  simpl. pose proof (step_settled (Byte.to_N b) Hst) as H1.
  destruct (step st (Byte.to_N b)) as [out st1].
  specialize (IH st1 H1). now destruct (run st1 rest).
Qed.

Lemma run_app a b st :
  run st (a ++ b)
  = (fst (run st a) ++ fst (run (snd (run st a)) b),
     snd (run (snd (run st a)) b)).
Proof.
  revert st. induction a as [|x a IH]; intros st.
  - simpl. now destruct (run st b).
  - simpl. destruct (step st (Byte.to_N x)) as [out st1].
    rewrite IH. destruct (run st1 a) as [outs st2]. simpl.
    now rewrite app_assoc.
Qed.

Lemma ends_clean_init chunk :
  ends_clean chunk = true -> snd (run init chunk) = init.
Proof.
  unfold ends_clean. intros H. apply N.eqb_eq in H.
  apply (run_settled chunk (st := init)); [now intros _|exact H].
Qed.

Lemma scalars_app a b :
  ends_clean a = true -> scalars (a ++ b) = scalars a ++ scalars b.
Proof.
  intros Ha. unfold scalars. rewrite run_app.
  pose proof (ends_clean_init _ Ha) as Hi.
  destruct (run init a) as [oa sa]. simpl in Hi. subst sa. simpl fst. simpl snd.
  destruct (run init b) as [ob sb]. simpl.
  now rewrite app_nil_r, app_assoc.
Qed.

Lemma ends_clean_concat reads :
  forallb ends_clean reads = true -> ends_clean (concat reads) = true.
Proof.
  induction reads as [|c rest IH]; [reflexivity|].
  simpl. rewrite andb_true_iff. intros [Hc Hrest].
  unfold ends_clean in *. rewrite run_app.
  apply N.eqb_eq in Hc.
  rewrite (run_settled c (st := init) (fun _ => eq_refl) Hc).
  now apply IH.
Qed.

Lemma scalars_concat reads :
  forallb ends_clean reads = true ->
  scalars (concat reads) = concat (map scalars reads).
Proof.
  induction reads as [|c rest IH]; [reflexivity|].
  simpl. rewrite andb_true_iff. intros [Hc Hrest].
  now rewrite scalars_app, IH.
Qed.

Lemma strip_bom_no_bom cps : no_bom cps = true -> strip_bom cps = cps.
Proof.
  destruct cps as [|c cps]; [reflexivity|]. simpl.
  now destruct (N.eqb c 65279).
Qed.

Lemma no_bom_concat (chunks : list (list byte)) :
  forallb (fun c => negb (starts_with_bom c)) chunks = true ->
  no_bom (concat (map scalars chunks)) = true
  /\ concat (map (fun c => strip_bom (scalars c)) chunks)
     = concat (map scalars chunks).
Proof.
  induction chunks as [|c rest IH]; [now split|].
  simpl. rewrite andb_true_iff. intros [Hc Hrest].
  destruct (IH Hrest) as [IH1 IH2]. unfold starts_with_bom in Hc.
  rewrite IH2. destruct (scalars c) as [|x xs]; [now split|].
  simpl in *. rewrite negb_true_iff in Hc. rewrite Hc. now split.
Qed.

Lemma flat_map_concat (A B : Type) (f : A -> list B) (l : list (list A)) :
  flat_map f (concat l) = concat (map (flat_map f) l).
Proof.
  induction l as [|x l IH]; [reflexivity|].
  simpl. now rewrite flat_map_app, IH.
Qed.

Lemma strip_bom_app a rest :
  no_bom rest = true -> strip_bom (a ++ rest) = strip_bom a ++ rest.
Proof.
  intros H. destruct a as [|x xs]; [now apply strip_bom_no_bom|].
  simpl. now destruct (N.eqb x 65279).
Qed.

(** On an aligned chunking, decoding chunk by chunk is decoding the whole
    input. *)
Lemma decode_concat reads :
  aligned reads = true ->
  TextDecoder.decode (concat reads) = concat (map TextDecoder.decode reads).
Proof.
  unfold aligned. rewrite andb_true_iff. intros [Hclean Hbom].
  unfold decode. rewrite scalars_concat by exact Hclean.
  destruct reads as [|c rest]; [reflexivity|].
  cbn [tl map concat] in *. destruct (no_bom_concat _ Hbom) as [H1 H2].
  rewrite strip_bom_app by exact H1. rewrite flat_map_app. f_equal.
  rewrite <- H2, flat_map_concat, map_map. reflexivity.
Qed.

End DecoderFacts.

(** X1.  On an aligned chunking [readLines] yields the frames of the
    whole decoded input. *)
Theorem readLines_aligned reads :
  aligned reads = true ->
  FrameReader.readLines reads = expected_frames reads.
Proof.
  intros H. unfold FrameReader.readLines, expected_frames.
  rewrite readLines_from_frames by reflexivity.
  now rewrite decode_concat.
Qed.

Lemma readLines_aligned_example :
  aligned [[x61; x0a; xc3; xa9]; [x62; x0a]; [x63]] = true
  /\ FrameReader.readLines [[x61; x0a; xc3; xa9]; [x62; x0a]; [x63]]
     = [u "a"; [233; 98]%N; u "c"].
Proof.
  split; [reflexivity|].
  rewrite (@readLines_aligned [[x61; x0a; xc3; xa9]; [x62; x0a]; [x63]]);
    reflexivity.
Defined.

(** C2.  The reader is specified to yield, for every way the input bytes
    are cut into reads, the frames of the whole decoded input.  A read that
    ends inside a multi-byte character breaks this: the two bytes of U+00E9
    delivered by two reads come out as two U+FFFD, where the whole input
    decodes to the one character. *)
Theorem readLines_split_character :
  FrameReader.readLines [[xc3]; [xa9]] = [[65533; 65533]%N]
  /\ expected_frames [[xc3]; [xa9]] = [[233%N]]
  /\ FrameReader.readLines [[xc3; xa9]] = [[233%N]].
Proof. repeat split; reflexivity. Qed.

(** ** What JSON.parse builds *)
Section ParsedValues.

Import JSON.

Lemma plain_array elems : plain (VArr elems) <-> Forall plain elems.
Proof.
  induction elems as [|e l IH]; simpl.
  - split; auto.
  - split.
    + intros [He Hl]. constructor; [exact He|now apply IH].
    + intros H. inversion H; subst. split; [assumption|now apply IH].
Qed.

Lemma plain_object props : plain (VObj props) <-> plain_props props.
Proof.
  unfold plain_props. induction props as [|[k e] l IH]; simpl.
  - split; auto.
  - split.
    + intros [He Hl]. constructor; [exact He|now apply IH].
    + intros H. inversion H; subst. split; [assumption|now apply IH].
Qed.

Lemma lookup_plain props key v :
  plain_props props -> Props.lookup props key = Some v -> plain v.
Proof.
  unfold plain_props. induction props as [|[k e] l IH]; simpl; [discriminate|].
  intros H. inversion H; subst. destruct (str_eqb k key).
  - now intros [= <-].
  - now apply IH.
Qed.

Lemma replace_plain props key v :
  plain_props props -> plain v -> plain_props (Props.replace props key v).
Proof.
  unfold plain_props. intros Hp Hv.
  induction props as [|[k e] l IH]; simpl; [constructor|].
  inversion Hp; subst. destruct (str_eqb k key); constructor; auto.
Qed.

Lemma insert_index_plain props i key v :
  plain_props props -> plain v -> plain_props (Props.insert_index props i key v).
Proof.
  unfold plain_props. intros Hp Hv.
  induction props as [|[k e] l IH]; simpl; [now constructor|].
  inversion Hp; subst.
  destruct (Props.array_index k) as [j|]; [destruct (j <? i)%Z|];
    repeat constructor; auto.
Qed.

Lemma define_plain props key v :
  plain_props props -> plain v -> plain_props (Props.define props key v).
Proof.
  intros Hp Hv. unfold Props.define.
  destruct (Props.lookup props key); [now apply replace_plain|].
  destruct (Props.array_index key); [now apply insert_index_plain|].
  apply Forall_app. split; [exact Hp|now constructor].
Qed.

Lemma atom_plain w v : atom_of_word w = Some v -> plain v.
Proof.
  unfold atom_of_word.
  destruct (str_eqb w (u "null")); [now intros [= <-]|].
  destruct (str_eqb w (u "true")); [now intros [= <-]|].
  destruct (str_eqb w (u "false")); [now intros [= <-]|].
  destruct (number_of_word w); simpl; [now intros [= <-]|discriminate].
Qed.

Lemma lex_idle_plain c toks st :
  lex_idle c = Some (toks, st) -> Forall plain_token toks.
Proof.
  unfold lex_idle.
  repeat match goal with
         | |- context [if ?b then _ else _] => destruct b
         end; intros [= <- <-]; repeat constructor.
Qed.

Lemma lex_step_plain st c toks st' :
  lex_step st c = Some (toks, st') -> Forall plain_token toks.
Proof.
  destruct st as [|acc|acc|acc|acc remaining code]; simpl.
  - apply lex_idle_plain.
  - destruct (is_word_char c); [now intros [= <- <-]|].
    destruct (atom_of_word (rev acc)) as [v|] eqn:Hv; [|discriminate].
    destruct (lex_idle c) as [[toks0 st0]|] eqn:Hc; [|discriminate].
    intros [= <- <-]. constructor; [exact (atom_plain _ Hv)|].
    exact (lex_idle_plain _ Hc).
  - repeat match goal with
           | |- context [if ?b then _ else _] => destruct b
           end; try discriminate; intros [= <- <-]; repeat constructor.
  - destruct (N.eqb c 117); [now intros [= <- <-]|].
    destruct (escape_char c); simpl; [now intros [= <- <-]|discriminate].
  - destruct (hex_digit c); [|discriminate].
    destruct remaining as [|[|k]]; intros [= <- <-]; constructor.
Qed.

Lemma lex_plain text : forall st toks,
  lex st text = Some toks -> Forall plain_token toks.
Proof.
  induction text as [|c rest IH]; intros st toks; simpl.
  - destruct st; try discriminate.
    + now intros [= <-].
    + destruct (atom_of_word (rev acc)) as [v|] eqn:Hv; simpl; [|discriminate].
      intros [= <-]. constructor; [exact (atom_plain _ Hv)|constructor].
  - destruct (lex_step st c) as [[toks0 st0]|] eqn:Hs; [|discriminate].
    destruct (lex st0 rest) as [toks1|] eqn:Hr; simpl; [|discriminate].
    intros [= <-]. apply Forall_app. split.
    + exact (lex_step_plain _ _ Hs).
    + exact (IH _ _ Hr).
Qed.

Lemma complete_plain stack v :
  Forall plain_frame stack -> plain v -> plain_state (complete stack v).
Proof.
  intros Hs Hv. destruct stack as [|[done|done key] stack]; simpl.
  - exact Hv.
  - inversion Hs; subst. split; [assumption|]. constructor; assumption.
  - inversion Hs; subst. split; [assumption|]. now apply define_plain.
Qed.

Lemma start_value_plain stack t st :
  Forall plain_frame stack -> plain_token t ->
  start_value stack t = Some st -> plain_state st.
Proof.
  intros Hs Ht. destruct t; simpl; try discriminate; intros [= <-];
    try exact Hs; now apply complete_plain.
Qed.

Lemma parse_step_plain st t st' :
  plain_state st -> plain_token t ->
  parse_step st t = Some st' -> plain_state st'.
Proof.
  intros Hst Ht.
  destruct st as [stack|stack|stack done|stack|stack done|stack done key
                 |stack done|v]; simpl in Hst.
  - apply start_value_plain; assumption.
  - destruct t; simpl; try discriminate; intros H;
      try (injection H as <-);
      try (apply complete_plain; [assumption|exact I]);
      try (refine (start_value_plain (stack := FArray [] :: stack) _ _ H);
           [repeat constructor; assumption|assumption]);
      try (simpl; repeat constructor; assumption).
  - destruct Hst as [Hs Hd].
    destruct t; simpl; try discriminate; intros [= <-].
    + apply complete_plain; [assumption|].
      apply plain_array, Forall_rev, Hd.
    + simpl. constructor; assumption.
  - destruct t; simpl; try discriminate; intros [= <-].
    + apply complete_plain; [assumption|exact I].
    + simpl. split; [assumption|constructor].
  - destruct Hst as [Hs Hd].
    destruct t; simpl; try discriminate; intros [= <-]. now split.
  - destruct Hst as [Hs Hd].
    destruct t; simpl; try discriminate; intros [= <-].
    simpl. constructor; assumption.
  - destruct Hst as [Hs Hd].
    destruct t; simpl; try discriminate; intros [= <-].
    + apply complete_plain; [assumption|]. now apply plain_object.
    + now split.
  - destruct t; discriminate.
Qed.

Lemma parse_tokens_plain toks : forall st v,
  plain_state st -> Forall plain_token toks ->
  parse_tokens st toks = Some v -> plain v.
Proof.
  induction toks as [|t rest IH]; intros st v Hst Ht; simpl.
  - destruct st; try discriminate. now intros [= <-].
  - inversion Ht; subst.
    destruct (parse_step st t) as [st'|] eqn:Hs; [|discriminate].
    apply IH; [|assumption]. exact (parse_step_plain _ _ Hst H1 Hs).
Qed.

(** JSON.parse returns a plain value. *)
Lemma parse_plain text v : JSON.parse text = Normal v -> plain v.
Proof.
  unfold JSON.parse.
  destruct (lex LIdle text) as [toks|] eqn:Hl; [|discriminate].
  destruct (parse_tokens (PValue []) toks) as [w|] eqn:Hp; [|discriminate].
  intros [= <-].
  exact (parse_tokens_plain _ (Forall_nil _ : plain_state (PValue [])) (lex_plain _ _ Hl) Hp).
Qed.

(** A plain value has a wire form. *)
Lemma wire_plain v : plain v -> wire v <> None.
Proof. destruct v; simpl; try discriminate; contradiction. Qed.

End ParsedValues.

(** ** Responses on the wire *)
Section WireResponses.

Import JSON Runtime.

Lemma render_parse_error : render parse_error_json = parse_error_text.
Proof. vm_compute. reflexivity. Qed.

Lemma stringify_failure id code message :
  JsNumber.is_finite (JsNumber.of_Z code) = true ->
  JSON.stringify (Stdio.failure id code message)
  = Some (render (error_json (wire id) code message)).
Proof.
  intros Hfin. unfold JSON.stringify, Stdio.failure, Stdio.error_object, error_json.
  cbn [wire]. rewrite Hfin. now destruct (wire id).
Qed.

Lemma stringify_success id result :
  JSON.stringify (Stdio.success id result)
  = Some (render (result_json (wire id) (wire result))).
Proof.
  unfold JSON.stringify, Stdio.success, result_json. cbn [wire].
  now destruct (wire id), (wire result).
Qed.

Lemma stringify_parse_error :
  JSON.stringify Stdio.parse_error = Some (render parse_error_json).
Proof. apply stringify_failure. reflexivity. Qed.

(** The two servers share the request check, the lookup, the handlers and
    the response objects. *)
Lemma http_shares_stdio :
  Http.invalid = Stdio.invalid /\ Http.lookup_method = Stdio.lookup_method
  /\ Http.invoke = Stdio.invoke /\ Http.failure = Stdio.failure
  /\ Http.success = Stdio.success /\ Http.parse_error = Stdio.parse_error
  /\ Http.methods = Stdio.methods /\ Http.echo = Stdio.echo
  /\ Http.add = Stdio.add /\ Http.call = Stdio.call.
Proof. repeat split. Qed.

Lemma invalid_Get request b key :
  Stdio.invalid request = Normal b -> Get request key = Normal (field request key).
Proof.
  unfold Stdio.invalid, field. destruct request; try discriminate; reflexivity.
Qed.

Lemma intake_inv line request f :
  intake line = Normal (request, f) ->
  JSON.parse line = Normal request
  /\ Stdio.invalid request = Normal false
  /\ Stdio.lookup_method request = Normal f.
Proof.
  unfold intake. destruct (JSON.parse line) as [r|e]; [|discriminate].
  cbn [bind]. destruct (Stdio.invalid r) as [[|]|e] eqn:Hv; try discriminate.
  cbn [bind]. destruct (Stdio.lookup_method r) as [g|e] eqn:Hg; [|discriminate].
  cbn [bind]. intros [= <- <-]. now repeat split.
Qed.

Lemma intake_intro line request f :
  JSON.parse line = Normal request ->
  Stdio.invalid request = Normal false ->
  Stdio.lookup_method request = Normal f ->
  intake line = Normal (request, f).
Proof.
  unfold intake. intros ->. cbn [bind]. intros ->. cbn [bind]. now intros ->.
Qed.

(** [processMessage], branch by branch, as text on the wire. *)
Lemma processMessage_cases line :
  Stdio.processMessage line
  = match intake line with
    | Throw _ => Normal (Some (render parse_error_json))
    | Normal (request, methodFunc) =>
        let id := wire (nullish (field request (u "id")) VNull) in
        if negb (ToBoolean methodFunc) then
          Normal (Some (render (error_json id (-32601) (u "Method not found"))))
        else
          match Stdio.invoke methodFunc request with
          | Throw err =>
              Normal (Some (render (error_json id (-32000) (err_message err))))
          | Normal result =>
              Normal (Some (render (result_json id (wire result))))
          end
    end.
Proof.
  unfold Stdio.processMessage, intake, Stdio.dispatch.
  destruct (JSON.parse line) as [request|e]; cbn [bind try_catch];
    [|exact (f_equal Normal stringify_parse_error)].
  destruct (Stdio.invalid request) as [bad|e] eqn:Hbad; cbn [bind try_catch];
    [|exact (f_equal Normal stringify_parse_error)].
  destruct bad; cbn [bind try_catch];
    [exact (f_equal Normal stringify_parse_error)|].
  destruct (Stdio.lookup_method request) as [f|e]; cbn [bind try_catch];
    [|exact (f_equal Normal stringify_parse_error)].
  rewrite (invalid_Get _ (u "id") Hbad).
  destruct (negb (ToBoolean f)); cbn [bind try_catch].
  - now rewrite stringify_failure.
  - destruct (Stdio.invoke f request) as [result|err]; cbn [bind try_catch].
    + now rewrite stringify_success.
    + now rewrite stringify_failure.
Qed.

End WireResponses.

Section HttpResponses.

Import JSON Runtime.

Lemma lookup_method_name request f :
  Stdio.lookup_method request = Normal f ->
  Get request (u "method") = Normal (field request (u "method"))
  /\ ToString (field request (u "method")) = Normal (method_name request)
  /\ f = get_ordinary Stdio.methods (method_name request).
Proof.
  unfold Stdio.lookup_method, method_name, field, ToPropertyKey.
  destruct (Get request (u "method")) as [m|e]; [|discriminate].
  cbn [bind]. destruct (ToString m) as [key|e]; [|discriminate].
  cbn [bind]. now intros [= <-].
Qed.

(** [handler] on a POST request, branch by branch. *)
Lemma handler_cases req :
  is_post req = true ->
  Http.handler req
  = match (bodyText <- Http.req_text req ;; intake bodyText) with
    | Throw _ => Normal (json_response 400 parse_error_json)
    | Normal (rpcReq, methodFunc) =>
        let id := field rpcReq (u "id") in
        if negb (ToBoolean methodFunc) then
          Normal (json_response 200
                    (error_json (wire id) (-32601)
                       (u "Method not found: " ++ method_name rpcReq)))
        else
          match Http.invoke methodFunc rpcReq with
          | Throw err =>
              Normal (json_response 200
                        (error_json (wire (nullish id VNull)) (-32000)
                           (err_message err)))
          | Normal result =>
              Normal (json_response 200
                        (result_json (wire (nullish id VNull)) (wire result)))
          end
    end.
Proof.
  unfold is_post, Http.handler. intros ->. cbn [negb].
  unfold intake, Http.dispatch, Http.ok, json_response, await.
  change Http.invalid with Stdio.invalid.
  change Http.lookup_method with Stdio.lookup_method.
  change Http.parse_error with Stdio.parse_error.
  change Http.failure with Stdio.failure.
  change Http.success with Stdio.success.
  rewrite stringify_parse_error.
  destruct (Http.req_text req) as [text|e]; cbn [bind try_catch]; [|reflexivity].
  destruct (JSON.parse text) as [request|e]; cbn [bind try_catch]; [|reflexivity].
  destruct (Stdio.invalid request) as [bad|e] eqn:Hbad; cbn [bind try_catch];
    [|reflexivity].
  destruct bad; cbn [bind try_catch]; [reflexivity|].
  destruct (Stdio.lookup_method request) as [f|e] eqn:Hf; cbn [bind try_catch];
    [|reflexivity].
  rewrite (invalid_Get _ (u "id") Hbad).
  destruct (lookup_method_name _ Hf) as [Hm [Hn _]].
  destruct (negb (ToBoolean f)); cbn [bind try_catch].
  - rewrite Hm. cbn [bind]. rewrite Hn. cbn [bind try_catch].
    now rewrite stringify_failure.
  - destruct (Http.invoke f request) as [result|err]; cbn [bind try_catch].
    + now rewrite stringify_success.
    + now rewrite stringify_failure.
Qed.

End HttpResponses.

(** ** Reading a response *)
Section ReadingResponses.

Import JSON Runtime.

Lemma error_json_members id code message :
  member (u "jsonrpc") (error_json id code message) = Some (JStr (u "2.0"))
  /\ member (u "id") (error_json id code message) = id
  /\ has_member (u "error") (error_json id code message) = true
  /\ has_member (u "result") (error_json id code message) = false.
Proof. destruct id; repeat split. Qed.

Lemma result_json_members id result :
  member (u "jsonrpc") (result_json id result) = Some (JStr (u "2.0"))
  /\ member (u "id") (result_json id result) = id
  /\ has_member (u "error") (result_json id result) = false
  /\ member (u "result") (result_json id result) = result.
Proof. destruct id, result; repeat split. Qed.

(** The request check in words: the value is not null, and its jsonrpc
    is not the string 2.0 or its method is missing, empty or otherwise
    falsy. *)
Lemma invalid_true_iff request :
  Stdio.invalid request = Normal true
  <-> request <> VUndefined /\ request <> VNull
      /\ (strict_equals_string (field request (u "jsonrpc")) (u "2.0") = false
          \/ ToBoolean (field request (u "method")) = false).
Proof.
  unfold Stdio.invalid. split.
  - intros H. pose proof (invalid_Get _ (u "jsonrpc") H) as Hj.
    pose proof (invalid_Get _ (u "method") H) as Hm.
    rewrite Hj in H. cbn [bind] in H. rewrite Hm in H.
    repeat split; try (intros ->; discriminate).
    destruct (strict_equals_string (field request (u "jsonrpc")) (u "2.0"));
      [right|now left].
    cbn [negb bind] in H. injection H as H. now apply negb_true_iff.
  - intros [Hu [Hn Hc]].
    assert (Hg : forall key, Get request key = Normal (field request key))
      by (intros key; unfold field; destruct request; try reflexivity; congruence).
    rewrite (Hg (u "jsonrpc")). cbn [bind]. rewrite (Hg (u "method")).
    destruct (strict_equals_string (field request (u "jsonrpc")) (u "2.0"));
      [|reflexivity].
    cbn [negb bind]. destruct Hc as [Hc|Hc]; [discriminate|now rewrite Hc].
Qed.

End ReadingResponses.

(** ** The responses of the two servers *)

Import JSON Runtime.

(** C6.  A payload that is not valid JSON gets, from both servers, the error
    response with code -32700, message Parse error and id null; the HTTP
    server sends it with status 400. *)
Theorem parse_failure_response line e :
  JSON.parse line = Throw e ->
  Stdio.processMessage line
  = Normal (Some (render (error_json (Some JNull) (-32700) (u "Parse error"))))
  /\ Http.handler (post line)
     = Normal (json_response 400
                 (error_json (Some JNull) (-32700) (u "Parse error"))).
Proof.
  intros H. split.
  - rewrite processMessage_cases. unfold intake. now rewrite H.
  - rewrite handler_cases by reflexivity. unfold intake, post. cbn. now rewrite H.
Qed.

Lemma parse_failure_response_witness :
  JSON.parse (u "not json") = Throw (SyntaxError (u "Unexpected token in JSON"))
  /\ Stdio.processMessage (u "not json") = Normal (Some (render parse_error_json))
  /\ Http.handler (post (u "not json"))
     = Normal (json_response 400 parse_error_json).
Proof.
  split; [reflexivity|].
  exact (@parse_failure_response (u "not json") _ eq_refl).
Defined.

(** Scenario D, as text. *)
Example scenario_parse_error :
  Stdio.processMessage (u "not json") = Normal (Some parse_error_text).
Proof. vm_compute. reflexivity. Qed.

(** C1 as stated fails: a well-formed payload with the wrong version is
    answered with code -32700, not -32600. *)
Lemma invalid_request_counterexample :
  exists request,
    JSON.parse (js "{'jsonrpc':'1.0','id':1,'method':'echo'}") = Normal request
    /\ Stdio.invalid request = Normal true
    /\ Stdio.processMessage (js "{'jsonrpc':'1.0','id':1,'method':'echo'}")
       = Normal (Some parse_error_text)
    /\ read_error_code parse_error_text = Some (-32700)%Z
    /\ read_error_code parse_error_text <> Some (-32600)%Z.
Proof.
  eexists. split; [vm_compute; reflexivity|].
  repeat split; try (vm_compute; reflexivity).
  vm_compute. discriminate.
Qed.

(** C1, amended.  A payload that parses but fails the request check (it is
    null, its jsonrpc is not the string 2.0, or its method is missing or
    empty) is answered like a payload that does not parse: code -32700,
    message Parse error, id null, and status 400 over HTTP. *)
Theorem invalid_request_response line request :
  JSON.parse line = Normal request ->
  Stdio.invalid request = Normal true \/ request = VNull ->
  Stdio.processMessage line
  = Normal (Some (render (error_json (Some JNull) (-32700) (u "Parse error"))))
  /\ Http.handler (post line)
     = Normal (json_response 400
                 (error_json (Some JNull) (-32700) (u "Parse error"))).
Proof.
  intros Hp Hbad.
  assert (Ha : exists e, intake line = Throw e).
  { unfold intake. rewrite Hp. cbn [bind].
    destruct Hbad as [-> | ->]; eexists; reflexivity. }
  destruct Ha as [e Ha]. split.
  - rewrite processMessage_cases. now rewrite Ha.
  - rewrite handler_cases by reflexivity. unfold post. cbn [Http.req_text bind].
    now rewrite Ha.
Qed.

Lemma invalid_request_response_witness :
  JSON.parse (js "{'jsonrpc':'2.0','id':1}")
  = Normal (VObj [(u "jsonrpc", VStr (u "2.0")); (u "id", VNum (JsNumber.of_Z 1))])
  /\ Stdio.invalid
       (VObj [(u "jsonrpc", VStr (u "2.0")); (u "id", VNum (JsNumber.of_Z 1))])
     = Normal true
  /\ Stdio.processMessage (js "{'jsonrpc':'2.0','id':1}")
     = Normal (Some (render parse_error_json))
  /\ Http.handler (post (js "{'jsonrpc':'2.0','id':1}"))
     = Normal (json_response 400 parse_error_json).
Proof.
  split; [reflexivity|]. split; [reflexivity|].
  exact (@invalid_request_response (js "{'jsonrpc':'2.0','id':1}") _
           eq_refl (or_introl eq_refl)).
Defined.

Lemma processMessage_some line :
  exists j, Stdio.processMessage line = Normal (Some (render j)).
Proof.
  rewrite processMessage_cases.
  destruct (intake line) as [[request f]|e]; [|eexists; reflexivity].
  cbv zeta. destruct (negb (ToBoolean f)); [eexists; reflexivity|].
  destruct (Stdio.invoke f request); eexists; reflexivity.
Qed.

(** Every response carries the version, and the id null when the request
    has no id of its own. *)
Lemma processMessage_response line :
  exists j,
    Stdio.processMessage line = Normal (Some (render j))
    /\ member (u "jsonrpc") j = Some (JStr (u "2.0"))
    /\ forall request,
        JSON.parse line = Normal request ->
        nullish (field request (u "id")) VNull = VNull ->
        member (u "id") j = Some JNull.
Proof.
  rewrite processMessage_cases. unfold intake.
  destruct (JSON.parse line) as [request|e]; cbn [bind].
  2:{ eexists. split; [reflexivity|]. split; [reflexivity|]. discriminate. }
  destruct (Stdio.invalid request) as [[|]|e]; cbn [bind];
    try (eexists; split; [reflexivity|]; split; [reflexivity|];
         intros; reflexivity).
  destruct (Stdio.lookup_method request) as [f|e]; cbn [bind];
    try (eexists; split; [reflexivity|]; split; [reflexivity|];
         intros; reflexivity).
  cbv zeta. destruct (negb (ToBoolean f)).
  - eexists. split; [reflexivity|].
    split; [apply error_json_members|].
    intros r [= <-] ->. apply error_json_members.
  - destruct (Stdio.invoke f request) as [result|err];
      (eexists; split; [reflexivity|]).
    + split; [apply result_json_members|].
      intros r [= <-] ->. apply result_json_members.
    + split; [apply error_json_members|].
      intros r [= <-] ->. apply error_json_members.
Qed.

(** C8.  [processMessage] never rejects: for every line it resolves to the
    text of a response.  When the request carries no id (or a null one) the
    response carries the id null.  The main loop writes one response, with
    its line feed, for every frame, in order. *)
Theorem processMessage_always_responds line :
  (exists j,
      Stdio.processMessage line = Normal (Some (render j))
      /\ member (u "jsonrpc") j = Some (JStr (u "2.0"))
      /\ forall request,
          JSON.parse line = Normal request ->
          nullish (field request (u "id")) VNull = VNull ->
          member (u "id") j = Some JNull)
  /\ forall lines,
      Stdio.serve lines
      = Normal (map (fun l => TextEncoder.encode (response_text l ++ [10%N])) lines).
Proof.
  split; [apply processMessage_response|].
  induction lines as [|l rest IH]; [reflexivity|].
  cbn [Stdio.serve map]. rewrite IH. unfold await, response_text.
  destruct (processMessage_some l) as [j ->]. reflexivity.
Qed.

Example notification_gets_a_response :
  Stdio.processMessage (js "{'jsonrpc':'2.0','method':'echo','params':{'text':'hi'}}")
  = Normal (Some (js "{'jsonrpc':'2.0','id':null,'result':'hi'}")).
Proof. vm_compute. reflexivity. Qed.

(** C10.  For a request without an id: the stdio server answers with the
    id null in every branch; the HTTP server's answer for a valid request
    whose method does not resolve has no id member at all, and in every
    other branch it carries the id null. *)
Theorem absent_id_in_responses line request :
  JSON.parse line = Normal request ->
  field request (u "id") = VUndefined ->
  (exists j,
      Stdio.processMessage line = Normal (Some (render j))
      /\ member (u "id") j = Some JNull)
  /\ (forall methodFunc,
         Http.invalid request = Normal false ->
         Http.lookup_method request = Normal methodFunc ->
         ToBoolean methodFunc = false ->
         Http.handler (post line)
         = Normal (json_response 200
                     (error_json None (-32601)
                        (u "Method not found: " ++ method_name request)))
         /\ member (u "id")
              (error_json None (-32601)
                 (u "Method not found: " ++ method_name request)) = None)
  /\ (~ (exists methodFunc,
            Http.invalid request = Normal false
            /\ Http.lookup_method request = Normal methodFunc
            /\ ToBoolean methodFunc = false) ->
      exists status j,
        Http.handler (post line) = Normal (json_response status j)
        /\ member (u "id") j = Some JNull).
Proof.
  intros Hp Hid. split; [|split].
  - destruct (processMessage_response line) as [j [Hj [_ Hnull]]].
    exists j. split; [exact Hj|]. apply (Hnull request Hp). now rewrite Hid.
  - intros f Hv Hf Ht.
    rewrite handler_cases by reflexivity. unfold post. cbn [Http.req_text bind].
    rewrite (intake_intro _ Hp Hv Hf). cbv zeta. rewrite Ht, Hid. now split.
  - intros Hnot.
    rewrite handler_cases by reflexivity. unfold post. cbn [Http.req_text bind].
    unfold intake. rewrite Hp. cbn [bind].
    change Http.invalid with Stdio.invalid in Hnot.
    change Http.lookup_method with Stdio.lookup_method in Hnot.
    destruct (Stdio.invalid request) as [[|]|e]; cbn [bind];
      try (do 2 eexists; split; reflexivity).
    destruct (Stdio.lookup_method request) as [f|e]; cbn [bind];
      try (do 2 eexists; split; reflexivity).
    cbv zeta. rewrite Hid.
    destruct (ToBoolean f) eqn:Ht; cbn [negb].
    + destruct (Http.invoke f request); do 2 eexists; split; reflexivity.
    + exfalso. apply Hnot. exists f. now repeat split.
Qed.

Lemma absent_id_in_responses_witness :
  (exists j,
      Stdio.processMessage (js "{'jsonrpc':'2.0','method':'nope'}")
      = Normal (Some (render j))
      /\ member (u "id") j = Some JNull)
  /\ Http.handler (post (js "{'jsonrpc':'2.0','method':'nope'}"))
     = Normal (json_response 200
                 (error_json None (-32601) (u "Method not found: nope"))).
Proof.
  destruct (@absent_id_in_responses
              (js "{'jsonrpc':'2.0','method':'nope'}") _ eq_refl eq_refl)
    as [Hstdio [Hhttp _]].
  split; [exact Hstdio|].
  exact (proj1 (Hhttp _ eq_refl eq_refl eq_refl)).
Defined.

Example absent_id_on_the_wire :
  Http.handler (post (js "{'jsonrpc':'2.0','method':'nope'}"))
  = Normal (Http.mk_response
              (Some (js "{'jsonrpc':'2.0','error':{'code':-32601,'message':'Method not found: nope'}}"))
              200 Http.json_headers)
  /\ Stdio.processMessage (js "{'jsonrpc':'2.0','method':'nope'}")
     = Normal (Some (js "{'jsonrpc':'2.0','id':null,'error':{'code':-32601,'message':'Method not found'}}")).
Proof. split; vm_compute; reflexivity. Qed.

(** C5 as stated fails twice: a name inherited from Object.prototype is
    absent from the registry and yet is not answered with -32601, and the
    HTTP server's message carries the method name. *)
Lemma method_not_found_counterexample :
  Props.lookup Stdio.methods (u "valueOf") = None
  /\ Stdio.processMessage (js "{'jsonrpc':'2.0','id':7,'method':'valueOf'}")
     = Normal (Some (js "{'jsonrpc':'2.0','id':7,'error':{'code':-32000,'message':'Cannot convert undefined or null to object'}}"))
  /\ Http.handler (post (js "{'jsonrpc':'2.0','id':3,'method':'nope'}"))
     = Normal (Http.mk_response
                 (Some (js "{'jsonrpc':'2.0','id':3,'error':{'code':-32601,'message':'Method not found: nope'}}"))
                 200 Http.json_headers).
Proof. repeat split; vm_compute; reflexivity. Qed.

(** C5, amended.  For a valid request whose method names no property of the
    methods record, neither its own echo and add nor one inherited from
    Object.prototype (the standard names, [__proto__] included), both
    servers answer with code -32601.  The stdio server's message is Method
    not found and its id is the request's id, or null when there is none;
    the HTTP server's message is Method not found: followed by the name,
    and its id is the request's id, left out when there is none. *)
Theorem method_not_found_response line request name :
  JSON.parse line = Normal request ->
  Stdio.invalid request = Normal false ->
  ToPropertyKey (field request (u "method")) = Normal name ->
  Props.lookup Stdio.methods name = None ->
  Props.lookup Object_prototype name = None ->
  str_eqb name (u "__proto__") = false ->
  Stdio.processMessage line
  = Normal (Some (render (error_json
                            (wire (nullish (field request (u "id")) VNull))
                            (-32601) (u "Method not found"))))
  /\ Http.handler (post line)
     = Normal (json_response 200
                 (error_json (wire (field request (u "id"))) (-32601)
                    (u "Method not found: " ++ name))).
Proof.
  intros Hp Hv Hk Hown Hproto _.
  assert (Ha : intake line = Normal (request, VUndefined)).
  { unfold intake, Stdio.lookup_method. rewrite Hp. cbn [bind]. rewrite Hv.
    cbn [bind]. rewrite (invalid_Get _ (u "method") Hv). cbn [bind].
    rewrite Hk. cbn [bind]. unfold get_ordinary.
    change Http.methods with Stdio.methods. now rewrite Hown, Hproto. }
  assert (Hn : method_name request = name).
  { unfold method_name. unfold ToPropertyKey in Hk. now rewrite Hk. }
  split.
  - rewrite processMessage_cases, Ha. reflexivity.
  - rewrite handler_cases by reflexivity. unfold post. cbn [Http.req_text bind].
    rewrite Ha. cbn. now rewrite Hn.
Qed.

Lemma method_not_found_response_witness :
  Stdio.processMessage (js "{'jsonrpc':'2.0','id':3,'method':'nope'}")
  = Normal (Some (render (error_json (Some (JNum (JsNumber.of_Z 3))) (-32601)
                            (u "Method not found"))))
  /\ Http.handler (post (js "{'jsonrpc':'2.0','id':3,'method':'nope'}"))
     = Normal (json_response 200
                 (error_json (Some (JNum (JsNumber.of_Z 3))) (-32601)
                    (u "Method not found: nope"))).
Proof.
  exact (@method_not_found_response
           (js "{'jsonrpc':'2.0','id':3,'method':'nope'}") _ (u "nope")
           eq_refl eq_refl eq_refl eq_refl eq_refl eq_refl).
Defined.

(** Scenario C, as text. *)
Example scenario_method_not_found :
  Stdio.processMessage (js "{'jsonrpc':'2.0','id':3,'method':'nope'}")
  = Normal (Some (js "{'jsonrpc':'2.0','id':3,'error':{'code':-32601,'message':'Method not found'}}")).
Proof. vm_compute. reflexivity. Qed.

(** ** What handlers return *)
Section HandlerResults.

Lemma string_element_plain s key w :
  string_element s key = Some w -> plain w.
Proof.
  unfold string_element. destruct (Props.array_index key).
  - destruct (nth_error s (Z.to_nat z)); simpl; [now intros [= <-]|discriminate].
  - destruct (str_eqb key (u "length")); [now intros [= <-]|discriminate].
Qed.

Lemma own_property_plain v key w :
  plain v -> own_property v key = Some w -> plain w.
Proof.
  destruct v; simpl; try contradiction; try discriminate.
  - intros _. apply string_element_plain.
  - intros Hv. apply plain_array in Hv.
    destruct (Props.array_index key).
    + intros Hn. apply nth_error_In in Hn.
      rewrite Forall_forall in Hv. now apply Hv.
    + match goal with
      | |- context [if ?c then _ else _] => destruct c
      end; [now intros [= <-]|discriminate].
  - intros Hv. apply plain_object in Hv. now apply lookup_plain.
Qed.

(** A property read from a plain value is plain, or comes from
    Object.prototype. *)
Lemma Get_plain v key w :
  plain v -> Get v key = Normal w -> plain w \/ w = get_ordinary [] key.
Proof.
  intros Hv. unfold Get.
  destruct (own_property v key) as [x|] eqn:Hx.
  - destruct v; try contradiction; intros [= <-]; left;
      exact (@own_property_plain _ _ _ Hv Hx).
  - destruct v; try contradiction; intros [= <-]; now right.
Qed.

Lemma plus_value a b r :
  plus a b = Normal r -> (exists s, r = VStr s) \/ (exists n, r = VNum n).
Proof.
  unfold plus. destruct (ToPrimitive a) as [l|e]; [|discriminate].
  cbn [bind]. destruct (ToPrimitive b) as [x|e]; [|discriminate].
  cbn [bind]. destruct l, x; intros [= <-]; eauto.
Qed.

(** A handler called on what a parsed request holds under [params]
    returns undefined or a value with a wire form. *)
Lemma call_result f params result :
  plain params \/ params = VUndefined ->
  Stdio.call f params = Normal result ->
  wire result = None -> result = VUndefined.
Proof.
  intros Hp. destruct f as [| | | | | | | |[[|]|n]]; simpl; try discriminate.
  - unfold Stdio.echo. destruct Hp as [Hp| ->]; [|discriminate].
    intros Hg Hw. destruct (@Get_plain _ _ _ Hp Hg) as [Hr|Hr]; [|exact Hr].
    now apply wire_plain in Hr.
  - unfold Stdio.add.
    destruct (Get params (u "0")) as [a|e]; [|discriminate]. cbn [bind].
    destruct (Get params (u "1")) as [b|e]; [|discriminate]. cbn [bind].
    intros Hr. destruct (@plus_value _ _ _ Hr) as [[s ->]|[x ->]]; discriminate.
  - destruct n; simpl; try discriminate.
    + destruct Hp as [Hp| ->]; [|intros [= <-]; discriminate].
      destruct params; try contradiction; intros [= <-]; discriminate.
    + destruct (ToPropertyKey params); discriminate.
    + destruct (is_object params); [discriminate|]. intros [= <-]. discriminate.
    + destruct (ToPropertyKey params); discriminate.
    + intros [= <-]. discriminate.
Qed.

Lemma invoke_result request f result :
  plain request ->
  Stdio.invoke f request = Normal result ->
  wire result = None -> result = VUndefined.
Proof.
  intros Hr. unfold Stdio.invoke, await.
  destruct (Get request (u "params")) as [params|e] eqn:Hg; [|discriminate].
  cbn [bind]. apply call_result.
  destruct (@Get_plain _ _ _ Hr Hg) as [H|H]; [now left|now right].
Qed.

End HandlerResults.

Lemma error_json_shape id code message text :
  well_shaped (error_json id code message)
  /\ (bare (error_json id code message) <-> returns_undefined text /\ False).
Proof.
  unfold well_shaped, bare.
  destruct (error_json_members id code message) as [Hv [_ [He Hr]]].
  rewrite Hv, He, Hr. split; [now split|].
  split; [intros [_ Hf]; discriminate|tauto].
Qed.

Lemma result_json_shape id result :
  well_shaped (result_json id (wire result))
  /\ (bare (result_json id (wire result)) <-> wire result = None).
Proof.
  unfold well_shaped, bare, has_member.
  destruct (result_json_members id (wire result)) as [Hv [_ [He Hr]]].
  unfold has_member in He. rewrite Hv, Hr.
  destruct (member (u "error") (result_json id (wire result))); [discriminate|].
  destruct (wire result); (split; [now split|]);
    (split; [intros [Hf _]; try discriminate; reflexivity|]);
    try discriminate; now intros _.
Qed.

(** The shape of a response, for any way the branches fill in the id and
    the message. *)
Lemma returns_undefined_intake line :
  returns_undefined line
  <-> exists request methodFunc,
      intake line = Normal (request, methodFunc)
      /\ ToBoolean methodFunc = true
      /\ Stdio.invoke methodFunc request = Normal VUndefined.
Proof.
  unfold returns_undefined. split.
  - intros [request [f [Hp [Hv [Hf [Ht Hi]]]]]]. exists request, f.
    split; [now apply intake_intro|now split].
  - intros [request [f [Ha [Ht Hi]]]]. exists request, f.
    destruct (@intake_inv _ _ _ Ha) as [Hp [Hv Hf]]. now repeat split.
Qed.

Lemma branch_shape line j :
  (match intake line with
   | Throw _ => exists id code message, j = error_json id code message
   | Normal (request, methodFunc) =>
       if negb (ToBoolean methodFunc) then
         exists id code message, j = error_json id code message
       else
         match Stdio.invoke methodFunc request with
         | Throw _ => exists id code message, j = error_json id code message
         | Normal result => exists id, j = result_json id (wire result)
         end
   end) ->
  well_shaped j /\ (bare j <-> returns_undefined line).
Proof.
  rewrite returns_undefined_intake.
  destruct (intake line) as [[request f]|e] eqn:Ha.
  - destruct (ToBoolean f) eqn:Hf; cbn [negb].
    + destruct (Stdio.invoke f request) as [result|err] eqn:Hi.
      * intros [id ->]. destruct (result_json_shape id result) as [Hs Hb].
        split; [exact Hs|]. rewrite Hb. split.
        -- intros Hw. exists request, f. repeat split; try assumption.
           destruct (@intake_inv _ _ _ Ha) as [Hp _].
           now rewrite (@invoke_result _ _ _ (@parse_plain _ _ Hp) Hi Hw) in Hi.
        -- intros [r [g [[= <- <-] [_ Hu]]]]. rewrite Hu in Hi.
           now injection Hi as <-.
      * intros [id [code [message ->]]].
        destruct (error_json_shape id code message line) as [Hs Hb].
        split; [exact Hs|]. rewrite Hb. split; [tauto|].
        intros [r [g [[= <- <-] [_ Hu]]]]. congruence.
    + intros [id [code [message ->]]].
      destruct (error_json_shape id code message line) as [Hs Hb].
      split; [exact Hs|]. rewrite Hb. split; [tauto|].
      intros [r [g [[= <- <-] [Hu _]]]]. congruence.
  - intros [id [code [message ->]]].
    destruct (error_json_shape id code message line) as [Hs Hb].
    split; [exact Hs|]. rewrite Hb. split; [tauto|].
    intros [r [g [H _]]]. discriminate.
Qed.

(** C3 as stated fails: echo on params without a text returns undefined,
    and the serialised response has neither result nor error. *)
Lemma response_members_counterexample :
  Stdio.processMessage (js "{'jsonrpc':'2.0','id':4,'method':'echo','params':{}}")
  = Normal (Some (js "{'jsonrpc':'2.0','id':4}"))
  /\ read_member (js "{'jsonrpc':'2.0','id':4}") (u "result") = None
  /\ read_member (js "{'jsonrpc':'2.0','id':4}") (u "error") = None
  /\ Http.handler (post (js "{'jsonrpc':'2.0','id':4,'method':'echo','params':{}}"))
     = Normal (Http.mk_response (Some (js "{'jsonrpc':'2.0','id':4}")) 200
                 Http.json_headers).
Proof. repeat split; vm_compute; reflexivity. Qed.

(** C3, amended.  For every payload both servers send a response that
    carries jsonrpc 2.0 and never both result and error.  It carries neither
    exactly when the request is valid, its method resolves and the handler
    returns undefined, as echo does on params without a text; in every
    other case it carries exactly one of the two. *)
Theorem response_members line :
  (exists j,
      Stdio.processMessage line = Normal (Some (render j))
      /\ well_shaped j /\ (bare j <-> returns_undefined line))
  /\ (exists status j,
         Http.handler (post line) = Normal (json_response status j)
         /\ well_shaped j /\ (bare j <-> returns_undefined line)).
Proof.
  split.
  - rewrite processMessage_cases.
    pose proof (@branch_shape line) as Hb.
    destruct (intake line) as [[request f]|e].
    + cbv zeta. destruct (negb (ToBoolean f)).
      * eexists. split; [reflexivity|]. apply Hb. eauto.
      * destruct (Stdio.invoke f request).
        -- eexists. split; [reflexivity|]. apply Hb. eauto.
        -- eexists. split; [reflexivity|]. apply Hb. eauto.
    + eexists. split; [reflexivity|]. apply Hb. unfold parse_error_json. eauto.
  - rewrite handler_cases by reflexivity. unfold post. cbn [Http.req_text bind].
    pose proof (@branch_shape line) as Hb.
    change Http.invoke with Stdio.invoke.
    destruct (intake line) as [[request f]|e].
    + cbv zeta. destruct (negb (ToBoolean f)).
      * do 2 eexists. split; [reflexivity|]. apply Hb. eauto.
      * destruct (Stdio.invoke f request).
        -- do 2 eexists. split; [reflexivity|]. apply Hb. eauto.
        -- do 2 eexists. split; [reflexivity|]. apply Hb. eauto.
    + do 2 eexists. split; [reflexivity|]. apply Hb. unfold parse_error_json. eauto.
Qed.

(** A valid request whose method resolves: what the two servers send back
    for either outcome of the call. *)
Lemma resolved_cases line request methodFunc :
  intake line = Normal (request, methodFunc) ->
  ToBoolean methodFunc = true ->
  let id := wire (nullish (field request (u "id")) VNull) in
  let answer := match Stdio.invoke methodFunc request with
                | Normal result => result_json id (wire result)
                | Throw err => error_json id (-32000) (err_message err)
                end in
  Stdio.processMessage line = Normal (Some (render answer))
  /\ Http.handler (post line) = Normal (json_response 200 answer).
Proof.
  intros Ha Hf. cbv zeta. split.
  - rewrite processMessage_cases, Ha. cbv zeta. rewrite Hf. cbn [negb].
    now destruct (Stdio.invoke methodFunc request).
  - rewrite handler_cases by reflexivity. unfold post. cbn [Http.req_text bind].
    rewrite Ha. cbv zeta. rewrite Hf. cbn [negb].
    change Http.invoke with Stdio.invoke.
    now destruct (Stdio.invoke methodFunc request).
Qed.

(** C9.  toString, constructor and hasOwnProperty are not entries of the
    methods record, yet looking them up gives a function of
    Object.prototype, and both servers call it with the request's params
    and answer with its outcome, a result or a -32000 error, not with
    -32601. *)
Theorem inherited_names_are_dispatched name :
  In name [u "toString"; u "constructor"; u "hasOwnProperty"] ->
  Props.lookup Stdio.methods name = None
  /\ Props.lookup Http.methods name = None
  /\ exists n,
      get_ordinary Stdio.methods name = VFun (Native n)
      /\ get_ordinary Http.methods name = VFun (Native n)
      /\ forall line request,
          JSON.parse line = Normal request ->
          Stdio.invalid request = Normal false ->
          ToPropertyKey (field request (u "method")) = Normal name ->
          let id := wire (nullish (field request (u "id")) VNull) in
          let answer := match call_native n (field request (u "params")) with
                        | Normal result => result_json id (wire result)
                        | Throw err => error_json id (-32000) (err_message err)
                        end in
          Stdio.processMessage line = Normal (Some (render answer))
          /\ Http.handler (post line) = Normal (json_response 200 answer).
Proof.
  intros Hin.
  assert (Hn : exists n, Props.lookup Stdio.methods name = None
                         /\ get_ordinary Stdio.methods name = VFun (Native n)).
  { destruct Hin as [<-|[<-|[<-|[]]]]; eexists; split; reflexivity. }
  destruct Hn as [n [Hown Hget]].
  split; [exact Hown|]. split; [exact Hown|].
  exists n. split; [exact Hget|]. split; [exact Hget|].
  intros line request Hp Hv Hk.
  assert (Ha : intake line = Normal (request, VFun (Native n))).
  { apply intake_intro; try assumption.
    unfold Stdio.lookup_method. rewrite (invalid_Get _ (u "method") Hv).
    cbn [bind]. rewrite Hk. cbn [bind]. now rewrite Hget. }
  pose proof (resolved_cases _ Ha eq_refl) as Hr. cbv zeta in Hr.
  unfold Stdio.invoke, await in Hr.
  rewrite (invalid_Get _ (u "params") Hv) in Hr. exact Hr.
Qed.

Lemma inherited_names_are_dispatched_witness :
  In (u "toString") [u "toString"; u "constructor"; u "hasOwnProperty"]
  /\ Props.lookup Stdio.methods (u "toString") = None
  /\ Props.lookup Http.methods (u "toString") = None.
Proof.
  split; [left; reflexivity|].
  destruct (@inherited_names_are_dispatched (u "toString") (or_introl eq_refl))
    as [H1 [H2 _]].
  split; [exact H1|exact H2].
Defined.

Example toString_is_called :
  Stdio.processMessage (js "{'jsonrpc':'2.0','id':5,'method':'toString'}")
  = Normal (Some (js "{'jsonrpc':'2.0','id':5,'result':'[object Undefined]'}"))
  /\ Stdio.processMessage (js "{'jsonrpc':'2.0','id':5,'method':'constructor','params':5}")
     = Normal (Some (js "{'jsonrpc':'2.0','id':5,'result':5}"))
  /\ Stdio.processMessage (js "{'jsonrpc':'2.0','id':5,'method':'hasOwnProperty'}")
     = Normal (Some (js "{'jsonrpc':'2.0','id':5,'error':{'code':-32000,'message':'Cannot convert undefined or null to object'}}")).
Proof. repeat split; vm_compute; reflexivity. Qed.

(** C7 as stated fails: add on a string and echo on an object without text
    do not fail, and the servers answer with a success response built from
    those params. *)
Lemma malformed_params_counterexample :
  Stdio.processMessage (js "{'jsonrpc':'2.0','id':4,'method':'add','params':'ab'}")
  = Normal (Some (js "{'jsonrpc':'2.0','id':4,'result':'ab'}"))
  /\ Stdio.processMessage (js "{'jsonrpc':'2.0','id':4,'method':'add','params':{'a':1}}")
     = Normal (Some (js "{'jsonrpc':'2.0','id':4,'result':null}"))
  /\ Http.handler (post (js "{'jsonrpc':'2.0','id':4,'method':'echo','params':{'x':1}}"))
     = Normal (Http.mk_response (Some (js "{'jsonrpc':'2.0','id':4}")) 200
                 Http.json_headers).
Proof. repeat split; vm_compute; reflexivity. Qed.

(** C7, amended.  For a valid request whose method resolves: when the call
    throws, both servers answer with code -32000, the thrown error's
    message, and the request's id (null when there is none); when the call
    returns, they answer with a success response built from what it
    returned.  The handlers do not check the shape of params: echo throws
    only when params is missing or null, add only when params is missing or
    null or one of the two operands cannot be made a primitive. *)
Theorem handler_outcome_response line request methodFunc :
  JSON.parse line = Normal request ->
  Stdio.invalid request = Normal false ->
  Stdio.lookup_method request = Normal methodFunc ->
  ToBoolean methodFunc = true ->
  let id := wire (nullish (field request (u "id")) VNull) in
  (forall err,
      Stdio.invoke methodFunc request = Throw err ->
      Stdio.processMessage line
      = Normal (Some (render (error_json id (-32000) (err_message err))))
      /\ Http.handler (post line)
         = Normal (json_response 200 (error_json id (-32000) (err_message err))))
  /\ (forall result,
         Stdio.invoke methodFunc request = Normal result ->
         Stdio.processMessage line
         = Normal (Some (render (result_json id (wire result))))
         /\ Http.handler (post line)
            = Normal (json_response 200 (result_json id (wire result))))
  /\ (forall params,
         (exists err, Stdio.echo params = Throw err)
         <-> params = VUndefined \/ params = VNull)
  /\ (forall params,
         (exists err, Stdio.add params = Throw err)
         <-> params = VUndefined \/ params = VNull
             \/ (exists err, ToPrimitive (field params (u "0")) = Throw err)
             \/ (exists err, ToPrimitive (field params (u "1")) = Throw err)).
Proof.
  intros Hp Hv Hf Ht. cbv zeta.
  pose proof (resolved_cases _ (intake_intro _ Hp Hv Hf) Ht) as Hr.
  cbv zeta in Hr.
  split; [intros err He; now rewrite He in Hr|].
  split; [intros result He; now rewrite He in Hr|].
  split.
  - intros params. unfold Stdio.echo. split.
    + intros [err He]. destruct params; try discriminate; auto.
    + intros [-> | ->]; eexists; reflexivity.
  - intros params. unfold Stdio.add, plus.
    destruct params;
      try (split; [intros _; auto|intros _; eexists; reflexivity]);
      (unfold field; cbn [Get bind];
       match goal with
       | |- context [ToPrimitive ?a] =>
           destruct (ToPrimitive a) as [l|e1] eqn:Ha; cbn [bind]
       end;
       [ match goal with
         | |- context [bind (ToPrimitive ?b)] =>
             destruct (ToPrimitive b) as [r|e2] eqn:Hb; cbn [bind]
         end|];
       (split;
        [ intros [err He];
          try (destruct l, r; discriminate);
          right; right; eauto
        | intros [H|[H|[[err H]|[err H]]]]; try discriminate; eauto ])).
Qed.

Lemma handler_outcome_response_witness :
  Stdio.processMessage (js "{'jsonrpc':'2.0','id':4,'method':'add','params':null}")
  = Normal (Some (render (error_json (Some (JNum (JsNumber.of_Z 4))) (-32000)
                            (u "Cannot read properties of null (reading '0')"))))
  /\ Http.handler (post (js "{'jsonrpc':'2.0','id':4,'method':'add','params':null}"))
     = Normal (json_response 200
                 (error_json (Some (JNum (JsNumber.of_Z 4))) (-32000)
                    (u "Cannot read properties of null (reading '0')"))).
Proof.
  exact (proj1 (@handler_outcome_response
                  (js "{'jsonrpc':'2.0','id':4,'method':'add','params':null}")
                  _ _ eq_refl eq_refl eq_refl eq_refl) _ eq_refl).
Defined.

(** Scenarios A and B, as text. *)
Example scenario_echo :
  Stdio.processMessage (js "{'jsonrpc':'2.0','id':1,'method':'echo','params':{'text':'hi'}}")
  = Normal (Some (js "{'jsonrpc':'2.0','id':1,'result':'hi'}")).
Proof. vm_compute. reflexivity. Qed.

Example scenario_add :
  Stdio.processMessage (js "{'jsonrpc':'2.0','id':2,'method':'add','params':[10,15]}")
  = Normal (Some (js "{'jsonrpc':'2.0','id':2,'result':25}")).
Proof. vm_compute. reflexivity. Qed.

(** ** The status of an HTTP response *)

Lemma rejected_or_accepted req :
  match (bodyText <- Http.req_text req ;; intake bodyText) with
  | Throw _ => rejected req
  | Normal (request, methodFunc) => accepted req request methodFunc
  end.
Proof.
  unfold rejected, accepted.
  destruct (Http.req_text req) as [text|e]; cbn [bind]; [|left; eauto].
  destruct (intake text) as [[request f]|e] eqn:Ha.
  - exists text. split; [reflexivity|]. exact (@intake_inv _ _ _ Ha).
  - right. exists text. split; [reflexivity|]. unfold intake in Ha.
    destruct (JSON.parse text) as [request|e'] eqn:Hp; [|left; eauto].
    right. exists request. split; [reflexivity|]. cbn [bind] in Ha.
    pose proof (parse_plain _ Hp) as Hplain.
    destruct (Stdio.invalid request) as [[|]|e'] eqn:Hv; cbn [bind] in Ha.
    + right. now left.
    + right. right. split; [reflexivity|]. unfold Stdio.lookup_method in Ha.
      rewrite (invalid_Get _ (u "method") Hv) in Ha. cbn [bind] in Ha.
      destruct (ToPropertyKey (field request (u "method"))); [discriminate|eauto].
    + left. destruct request; try contradiction; try reflexivity; exfalso;
        revert Hv; unfold Stdio.invalid; cbn [Get bind];
        match goal with
        | |- context [if ?c then _ else _] => destruct c
        end; discriminate.
Qed.

(** C4 as stated fails: a body that is valid JSON but not a valid request
    is answered with status 400 and code -32700, not with a 200 and
    -32600. *)
Lemma http_status_counterexample :
  exists request,
    JSON.parse (js "{'jsonrpc':'1.0','id':1,'method':'echo'}") = Normal request
    /\ Http.handler (post (js "{'jsonrpc':'1.0','id':1,'method':'echo'}"))
       = Normal (Http.mk_response (Some parse_error_text) 400 Http.json_headers)
    /\ read_error_code parse_error_text = Some (-32700)%Z.
Proof. eexists. repeat split; vm_compute; reflexivity. Qed.

(** C4, amended.  A request whose verb is not POST gets status 405 and the
    body Method Not Allowed, whatever its own body is: nothing is read or
    dispatched.  A POST request gets status 400 with the -32700 error as
    body when its body cannot be read, is not JSON, or fails the request
    check (a wrong jsonrpc, a missing or empty method, a method that cannot
    be made a property key).  Every other POST request gets status 200: the
    -32601 error for a method that does not resolve, the -32000 error for a
    call that throws, the success response otherwise. *)
Theorem http_status req :
  (is_post req = false ->
   Http.handler req
   = Normal (Http.mk_response (Some (u "Method Not Allowed")) 405 []))
  /\ (is_post req = true ->
      rejected req ->
      Http.handler req
      = Normal (json_response 400
                  (error_json (Some JNull) (-32700) (u "Parse error"))))
  /\ (is_post req = true ->
      forall request methodFunc,
        accepted req request methodFunc ->
        exists j,
          Http.handler req = Normal (json_response 200 j)
          /\ if ToBoolean methodFunc then
               match Stdio.invoke methodFunc request with
               | Throw err =>
                   j = error_json (wire (nullish (field request (u "id")) VNull))
                         (-32000) (err_message err)
               | Normal result =>
                   j = result_json (wire (nullish (field request (u "id")) VNull))
                         (wire result)
               end
             else j = error_json (wire (field request (u "id"))) (-32601)
                        (u "Method not found: " ++ method_name request))
  /\ (rejected req \/ exists request methodFunc, accepted req request methodFunc).
Proof.
  split; [|split; [|split]].
  - unfold is_post, Http.handler. now intros ->.
  - intros Hpost Hrej. rewrite handler_cases by exact Hpost.
    assert (Ht : exists e, (bodyText <- Http.req_text req ;; intake bodyText)
                           = Throw e).
    { destruct Hrej as [[e He]|[text [Ht Hrej]]];
        [rewrite He; eexists; reflexivity|].
      rewrite Ht. cbn [bind]. unfold intake.
      destruct Hrej as [[e He]|[request [Hp Hrej]]];
        [rewrite He; eexists; reflexivity|].
      rewrite Hp. cbn [bind].
      destruct Hrej as [->|[Hv|[Hv [e He]]]]; try (eexists; reflexivity).
      - rewrite Hv. eexists; reflexivity.
      - rewrite Hv. cbn [bind]. unfold Stdio.lookup_method.
        rewrite (invalid_Get _ (u "method") Hv). cbn [bind]. rewrite He.
        eexists; reflexivity. }
    destruct Ht as [e ->]. reflexivity.
  - intros Hpost request f [text [Ht [Hp [Hv Hf]]]].
    rewrite handler_cases by exact Hpost. rewrite Ht. cbn [bind].
    rewrite (intake_intro _ Hp Hv Hf). cbv zeta.
    change Http.invoke with Stdio.invoke.
    destruct (ToBoolean f); cbn [negb].
    + destruct (Stdio.invoke f request); eexists; split; reflexivity.
    + eexists; split; reflexivity.
  - pose proof (rejected_or_accepted req) as H.
    destruct (bodyText <- Http.req_text req ;; intake bodyText) as [[request f]|e];
      [right; eauto|now left].
Qed.

Example get_is_not_allowed :
  Http.handler (Http.mk_request (u "GET") (Normal (js "{'jsonrpc':'2.0','id':1,'method':'echo','params':{'text':'hi'}}")))
  = Normal (Http.mk_response (Some (u "Method Not Allowed")) 405 []).
Proof. reflexivity. Qed.

Lemma http_status_witness :
  Http.handler (post (js "{'jsonrpc':'2.0','id':3,'method':'nope'}"))
  = Normal (json_response 200
              (error_json (Some (JNum (JsNumber.of_Z 3))) (-32601)
                 (u "Method not found: nope")))
  /\ Http.handler (Http.mk_request (u "GET") (Throw (TypeError (u "body unusable"))))
     = Normal (Http.mk_response (Some (u "Method Not Allowed")) 405 []).
Proof.
  split.
  - destruct (proj1 (proj2 (proj2 (@http_status
                (post (js "{'jsonrpc':'2.0','id':3,'method':'nope'}")))))
              eq_refl _ _
              (ex_intro _ (js "{'jsonrpc':'2.0','id':3,'method':'nope'}")
                 (conj eq_refl (conj eq_refl (conj eq_refl eq_refl)))))
      as [j [Hj Hshape]].
    cbn in Hshape. now subst j.
  - exact (proj1 (@http_status
                    (Http.mk_request (u "GET") (Throw (TypeError (u "body unusable")))))
             eq_refl).
Defined.

(** ** More about the frame reader *)

Lemma split_pieces_no_newline s :
  Forall (fun piece => no_newline piece = true) (split s).
Proof.
  induction s as [|c s IH]; [repeat constructor|].
  rewrite split_cons. destruct (N.eqb c newline) eqn:Hc.
  - constructor; [reflexivity|exact IH].
  - destruct (split s) as [|piece rest]; simpl.
    + repeat constructor. simpl. now rewrite Hc.
    + inversion IH; subst. constructor; [|assumption].
      simpl. now rewrite Hc.
Qed.

Lemma frames_of_text_eq text :
  frames_of_text text
  = init_lines text
    ++ (if truthy_string (last_line text) then [last_line text] else []).
Proof.
  unfold frames_of_text, init_lines, last_line.
  now destruct (pop (split text)).
Qed.

Lemma readLines_frames reads :
  readLines reads = frames_of_text (decoded_chunks reads).
Proof.
  unfold readLines, decoded_chunks.
  now rewrite readLines_from_frames by reflexivity.
Qed.

(** X2.  No frame that [readLines] yields holds a line feed, whatever the
    bytes are and however they are cut into reads. *)
Theorem readLines_frames_hold_no_line_feed reads frame :
  In frame (readLines reads) -> ~ In newline frame.
Proof.
  rewrite readLines_frames, frames_of_text_eq.
  pose proof (split_pieces_no_newline (decoded_chunks reads)) as Hall.
  rewrite split_decompose in Hall. apply Forall_app in Hall.
  destruct Hall as [Hinit Hlast]. intros Hin.
  assert (Hn : no_newline frame = true).
  { apply in_app_or in Hin. destruct Hin as [Hin|Hin].
    - rewrite Forall_forall in Hinit. now apply Hinit.
    - destruct (truthy_string (last_line (decoded_chunks reads)));
        [|contradiction].
      destruct Hin as [<-|[]]. now inversion Hlast. }
  intros Hnl. unfold no_newline in Hn. rewrite forallb_forall in Hn.
  specialize (Hn _ Hnl). now rewrite N.eqb_refl in Hn.
Qed.

Lemma readLines_frames_hold_no_line_feed_witness :
  In (u "b") (readLines [[x61; x0a; x0a]; [x62]]) /\ ~ In newline (u "b").
Proof.
  split; [right; right; left; reflexivity|].
  apply (@readLines_frames_hold_no_line_feed [[x61; x0a; x0a]; [x62]]).
  right; right; left; reflexivity.
Defined.

Lemma with_line_feeds_app a b :
  with_line_feeds (a ++ b) = with_line_feeds a ++ with_line_feeds b.
Proof. apply flat_map_app. Qed.

(** The lines before the last line feed, each with its line feed, and the
    text after it make up the text. *)
Lemma lines_make_up_text s :
  with_line_feeds (init_lines s) ++ last_line s = s.
Proof.
  unfold init_lines, last_line, with_line_feeds.
  induction s as [|c s IH]; [reflexivity|].
  rewrite split_cons. destruct (N.eqb c newline) eqn:Hc.
  - rewrite pop_cons by apply split_not_nil. cbn [fst snd flat_map app].
    apply N.eqb_eq in Hc. subst c. f_equal. exact IH.
  - rewrite pop_split_cons_head by apply split_not_nil.
    destruct (pop_some (split_not_nil s)) as [x [Hx Hs]].
    rewrite Hx in *. cbn [coalesce] in IH.
    destruct (snd (pop (split s))) as [|first more];
      cbn [fst snd flat_map app option_map coalesce] in *.
    + now rewrite IH.
    + f_equal. exact IH.
Qed.

Lemma last_line_snoc s c :
  last_line (s ++ [c])
  = if N.eqb c newline then [] else last_line s ++ [c].
Proof.
  unfold last_line at 1. rewrite split_app.
  pose proof (last_line_no_newline s) as Hl.
  rewrite pop_app by apply split_not_nil. cbn [fst].
  destruct (N.eqb c newline) eqn:Hc.
  - assert (Hs : split (last_line s ++ [c]) = [last_line s; []]).
    { induction (last_line s) as [|x l IH]; simpl.
      - now rewrite Hc.
      - simpl in Hl. apply andb_true_iff in Hl. destruct Hl as [Hx Hl].
        apply negb_true_iff in Hx. rewrite Hx. now rewrite (IH Hl). }
    now rewrite Hs.
  - rewrite no_newline_split; [reflexivity|].
    unfold no_newline in *. rewrite forallb_app, Hl. simpl. now rewrite Hc.
Qed.

Lemma last_line_empty_iff s :
  truthy_string (last_line s) = negb (ends_with_line_feed s).
Proof.
  unfold ends_with_line_feed.
  induction s as [|c s _] using rev_ind; [reflexivity|].
  rewrite last_line_snoc, last_last.
  destruct (N.eqb c newline); [reflexivity|].
  now destruct (last_line s).
Qed.

(** X3.  Nothing is lost or reordered: the frames, each followed by a line
    feed, spell the decoded input, with one line feed added when the input
    does not end with one. *)
Theorem readLines_spells_the_input reads :
  with_line_feeds (readLines reads)
  = if ends_with_line_feed (decoded_chunks reads)
    then decoded_chunks reads
    else decoded_chunks reads ++ [newline].
Proof.
  rewrite readLines_frames, frames_of_text_eq, with_line_feeds_app.
  rewrite last_line_empty_iff.
  pose proof (lines_make_up_text (decoded_chunks reads)) as H.
  pose proof (last_line_empty_iff (decoded_chunks reads)) as He.
  destruct (ends_with_line_feed (decoded_chunks reads)); cbn [negb] in *.
  - destruct (last_line (decoded_chunks reads)); [|discriminate].
    simpl. now rewrite app_nil_r in *.
  - simpl. rewrite app_nil_r, app_assoc. now rewrite H.
Qed.

Lemma ascii_run bytes :
  forallb is_ascii bytes = true ->
  run init bytes = (map Byte.to_N bytes, init).
Proof.
  induction bytes as [|b rest IH]; [reflexivity|].
  simpl. rewrite andb_true_iff. intros [Hb Hrest].
  unfold step. cbn [bytes_needed init N.eqb]. unfold lead, in_range.
  unfold is_ascii in Hb. apply N.ltb_lt in Hb.
  replace (N.leb 0 (Byte.to_N b) && N.leb (Byte.to_N b) 127) with true.
  - now rewrite IH.
  - symmetry. apply andb_true_iff. split; apply N.leb_le; lia.
Qed.

Lemma ascii_decode bytes :
  forallb is_ascii bytes = true ->
  TextDecoder.decode bytes = map Byte.to_N bytes.
Proof.
  intros H. unfold TextDecoder.decode, scalars. rewrite (ascii_run _ H).
  cbn [flush bytes_needed init N.eqb]. rewrite app_nil_r.
  assert (Hall : Forall (fun c => (c < 128)%N) (map Byte.to_N bytes)).
  { rewrite Forall_map. rewrite forallb_forall in H. apply Forall_forall.
    intros b Hb. apply N.ltb_lt. now apply H. }
  assert (Hs : strip_bom (map Byte.to_N bytes) = map Byte.to_N bytes).
  { destruct Hall as [|c l Hc _]; [reflexivity|]. simpl.
    destruct (N.eqb_spec c 65279); [lia|reflexivity]. }
  rewrite Hs. clear Hs. induction Hall as [|c l Hc _ IH]; [reflexivity|].
  simpl. rewrite IH. unfold utf16.
  destruct (N.ltb_spec c 65536); [reflexivity|lia].
Qed.

(** X4.  On ASCII input the frames do not depend on how the bytes are cut
    into reads: they are the lines of the bytes read as characters. *)
Theorem readLines_ascii reads :
  forallb (forallb is_ascii) reads = true ->
  readLines reads = frames_of_text (map Byte.to_N (concat reads)).
Proof.
  intros H. rewrite readLines_frames. f_equal. unfold decoded_chunks.
  induction reads as [|chunk rest IH]; [reflexivity|].
  simpl in *. apply andb_true_iff in H. destruct H as [Hc Hrest].
  now rewrite map_app, ascii_decode, IH.
Qed.

Lemma readLines_ascii_witness :
  readLines [[x61; x62]; [x0a; x0a; x63]; [x64]] = [u "ab"; []; u "cd"].
Proof.
  rewrite (@readLines_ascii [[x61; x62]; [x0a; x0a; x63]; [x64]] eq_refl).
  reflexivity.
Defined.

(** ** JSON.parse reads back what JSON.stringify wrote *)

Lemma json_induction (P : json -> Prop) :
  P JNull -> (forall b, P (JBool b)) -> (forall n, P (JNum n)) ->
  (forall s, P (JStr s)) ->
  (forall elems, Forall P elems -> P (JArr elems)) ->
  (forall members, Forall (fun kv => P (snd kv)) members -> P (JObj members)) ->
  forall j, P j.
Proof.
  intros Hnull Hbool Hnum Hstr Harr Hobj.
  fix IH 1. intros [| b | n | s | elems | members].
  - exact Hnull.
  - apply Hbool.
  - apply Hnum.
  - apply Hstr.
  - apply Harr. induction elems as [|e l IHl]; constructor; [apply IH|exact IHl].
  - apply Hobj. induction members as [|[k e] l IHl]; constructor;
      [apply IH|exact IHl].
Qed.

Lemma lex_cons st c rest :
  lex st (c :: rest)
  = match lex_step st c with
    | None => None
    | Some (toks, st') => option_map (app toks) (lex st' rest)
    end.
Proof. reflexivity. Qed.

Lemma option_map_app (A : Type) (a b : list A) (o : option (list A)) :
  option_map (app a) (option_map (app b) o) = option_map (app (a ++ b)) o.
Proof. destruct o; simpl; [now rewrite app_assoc|reflexivity]. Qed.

Lemma option_map_nil (A : Type) (o : option (list A)) :
  option_map (app []) o = o.
Proof. now destruct o. Qed.

(** *** Strings *)

Lemma hex_digit_char d : (d < 16)%N -> hex_digit (hex_char d) = Some d.
Proof.
  intros H. destruct d as [|p]; [reflexivity|].
  do 4 (try destruct p as [p|p|]); try reflexivity; lia.
Qed.

Lemma hex_parts c :
  (c < 65536)%N ->
  (N.shiftr c 12 < 16
   /\ N.land (N.shiftr c 8) 15 < 16
   /\ N.land (N.shiftr c 4) 15 < 16
   /\ N.land c 15 < 16
   /\ 16 * (16 * (16 * (16 * 0 + N.shiftr c 12)
                  + N.land (N.shiftr c 8) 15)
            + N.land (N.shiftr c 4) 15)
      + N.land c 15 = c)%N.
Proof.
  intros H. change 15%N with (N.ones 4). rewrite !N.land_ones.
  rewrite !N.shiftr_div_pow2. change (2 ^ 12)%N with 4096%N.
  change (2 ^ 8)%N with 256%N. change (2 ^ 4)%N with 16%N.
  zify. Z.to_euclidean_division_equations. lia.
Qed.

Lemma lex_unicode_escape acc c rest :
  (c < 65536)%N ->
  lex (LString acc) (unicode_escape c ++ rest) = lex (LString (c :: acc)) rest.
Proof.
  intros H. destruct (hex_parts H) as [H3 [H2 [H1 [H0 Hc]]]].
  unfold unicode_escape. cbn [app].
  rewrite lex_cons. cbn [lex_step N.eqb Pos.eqb]. cbn [option_map].
  rewrite option_map_nil, lex_cons. cbn [lex_step N.eqb Pos.eqb option_map].
  rewrite option_map_nil.
  rewrite lex_cons. cbn [lex_step]. rewrite (hex_digit_char H3).
  cbn [option_map Nat.pred]. rewrite option_map_nil.
  rewrite lex_cons. cbn [lex_step]. rewrite (hex_digit_char H2).
  cbn [option_map Nat.pred]. rewrite option_map_nil.
  rewrite lex_cons. cbn [lex_step]. rewrite (hex_digit_char H1).
  cbn [option_map Nat.pred]. rewrite option_map_nil.
  rewrite lex_cons. cbn [lex_step]. rewrite (hex_digit_char H0).
  cbn [option_map Nat.pred]. rewrite option_map_nil.
  now rewrite Hc.
Qed.

Lemma lex_raw_char acc c rest :
  c <> 34%N -> c <> 92%N -> (32 <= c)%N ->
  lex (LString acc) (c :: rest) = lex (LString (c :: acc)) rest.
Proof.
  intros H34 H92 H32. rewrite lex_cons. cbn [lex_step].
  destruct (N.eqb_spec c 34); [contradiction|].
  destruct (N.eqb_spec c 92); [contradiction|].
  destruct (N.ltb_spec c 32); [lia|].
  cbn [option_map]. apply option_map_nil.
Qed.

Lemma lex_short_escape acc x c rest :
  escape_char x = Some c -> x <> 117%N ->
  lex (LString acc) (92%N :: x :: rest) = lex (LString (c :: acc)) rest.
Proof.
  intros He Hx. rewrite lex_cons. cbn [lex_step N.eqb Pos.eqb option_map].
  rewrite option_map_nil, lex_cons. cbn [lex_step].
  destruct (N.eqb_spec x 117); [contradiction|].
  rewrite He. cbn [option_map]. apply option_map_nil.
Qed.

Lemma lex_closing_quote acc rest :
  lex (LString acc) (34%N :: rest)
  = option_map (cons (TString (rev acc))) (lex LIdle rest).
Proof. reflexivity. Qed.

(** The characters of a quoted string, up to the closing quote, read back
    as the string. *)
Lemma lex_quote_chars n : forall s acc rest,
  (List.length s <= n)%nat ->
  lex (LString acc) (quote_chars s ++ 34%N :: rest)
  = option_map (cons (TString (rev acc ++ s))) (lex LIdle rest).
Proof.
  induction n as [|n IH]; intros s acc rest Hlen.
  - destruct s; [|simpl in Hlen; lia].
    cbn [quote_chars app]. now rewrite lex_closing_quote, app_nil_r.
  - destruct s as [|c s].
    { cbn [quote_chars app]. now rewrite lex_closing_quote, app_nil_r. }
    assert (Hnext : forall X,
               X = lex (LString (c :: acc)) (quote_chars s ++ 34%N :: rest) ->
               X = option_map (cons (TString (rev acc ++ c :: s)))
                     (lex LIdle rest)).
    { intros X ->. rewrite IH by (simpl in Hlen; lia).
      cbn [rev]. now rewrite <- app_assoc. }
    cbn [quote_chars].
    destruct (N.eqb_spec c 8) as [->|H8].
    { apply Hnext. simpl (u _). cbn [app]. now apply lex_short_escape. }
    destruct (N.eqb_spec c 9) as [->|H9].
    { apply Hnext. simpl (u _). cbn [app]. now apply lex_short_escape. }
    destruct (N.eqb_spec c 10) as [->|H10].
    { apply Hnext. simpl (u _). cbn [app]. now apply lex_short_escape. }
    destruct (N.eqb_spec c 12) as [->|H12].
    { apply Hnext. simpl (u _). cbn [app]. now apply lex_short_escape. }
    destruct (N.eqb_spec c 13) as [->|H13].
    { apply Hnext. simpl (u _). cbn [app]. now apply lex_short_escape. }
    destruct (N.eqb_spec c 34) as [->|H34].
    { apply Hnext. cbn [app]. now apply lex_short_escape. }
    destruct (N.eqb_spec c 92) as [->|H92].
    { apply Hnext. cbn [app]. now apply lex_short_escape. }
    destruct (N.ltb_spec c 32) as [Hlow|Hlow].
    { apply Hnext. rewrite <- app_assoc. apply lex_unicode_escape. lia. }
    unfold is_high_surrogate, is_low_surrogate.
    destruct (N.leb_spec 55296 c) as [Hh1|Hh1]; cbn [andb].
    + destruct (N.leb_spec c 56319) as [Hh2|Hh2]; cbn [andb].
      * destruct s as [|d s'].
        { apply Hnext. cbn [quote_chars app].
          apply lex_unicode_escape. lia. }
        destruct (N.leb_spec 56320 d) as [Hl1|Hl1]; cbn [andb].
        -- destruct (N.leb_spec d 57343) as [Hl2|Hl2].
           ++ cbn [app]. rewrite !lex_raw_char by lia.
              rewrite IH by (simpl in Hlen; lia).
              cbn [rev]. now rewrite <- !app_assoc.
           ++ apply Hnext. rewrite <- app_assoc. apply lex_unicode_escape. lia.
        -- apply Hnext. rewrite <- app_assoc. apply lex_unicode_escape. lia.
      * destruct (N.leb_spec 56320 c) as [Hl1|Hl1]; cbn [andb].
        -- destruct (N.leb_spec c 57343) as [Hl2|Hl2].
           ++ apply Hnext. rewrite <- app_assoc. apply lex_unicode_escape. lia.
           ++ apply Hnext. cbn [app]. apply lex_raw_char; lia.
        -- lia.
    + destruct (N.leb_spec 56320 c) as [Hl1|Hl1]; cbn [andb]; [lia|].
      apply Hnext. cbn [app]. apply lex_raw_char; lia.
Qed.

Lemma lex_quote s rest :
  lex LIdle (quote s ++ rest)
  = option_map (cons (TString s)) (lex LIdle rest).
Proof.
  unfold quote. cbn [app]. rewrite lex_cons.
  cbn [lex_step lex_idle is_whitespace N.eqb Pos.eqb orb option_map].
  rewrite option_map_nil, <- app_assoc. cbn [app].
  now rewrite (@lex_quote_chars (List.length s)) by lia.
Qed.

(** *** Numbers and literals *)

Lemma lex_idle_word c :
  is_word_char c = true -> lex_idle c = Some ([], LWord [c]).
Proof.
  intros H. unfold lex_idle, is_whitespace.
  repeat match goal with
         | |- context [N.eqb c ?k] =>
             destruct (N.eqb_spec c k) as [->|_]; [discriminate H|]
         end.
  cbn [orb]. now rewrite H.
Qed.

Lemma lex_word_chars w : forall acc rest,
  forallb is_word_char w = true ->
  lex (LWord acc) (w ++ rest) = lex (LWord (rev w ++ acc)) rest.
Proof.
  induction w as [|c w IH]; intros acc rest H; [reflexivity|].
  simpl in H. apply andb_true_iff in H. destruct H as [Hc Hw].
  cbn [app]. rewrite lex_cons. cbn [lex_step]. rewrite Hc.
  cbn [option_map]. rewrite option_map_nil, IH by exact Hw.
  cbn [rev]. now rewrite <- app_assoc.
Qed.

Lemma lex_word_end acc rest v :
  atom_of_word (rev acc) = Some v -> delimited rest ->
  lex (LWord acc) rest = option_map (cons (TAtom v)) (lex LIdle rest).
Proof.
  intros Hv Hd. destruct rest as [|c rest].
  - cbn [lex]. now rewrite Hv.
  - cbn [delimited] in Hd. rewrite !lex_cons. cbn [lex_step]. rewrite Hd, Hv.
    destruct (lex_idle c) as [[toks st']|]; [|reflexivity].
    now destruct (lex st' rest).
Qed.

Lemma lex_word w v rest :
  forallb is_word_char w = true -> atom_of_word w = Some v -> delimited rest ->
  lex LIdle (w ++ rest) = option_map (cons (TAtom v)) (lex LIdle rest).
Proof.
  intros Hw Hv Hd. destruct w as [|c w]; [discriminate Hv|].
  simpl in Hw. apply andb_true_iff in Hw. destruct Hw as [Hc Hw].
  cbn [app]. rewrite lex_cons. cbn [lex_step]. rewrite (lex_idle_word _ Hc).
  cbn [option_map]. rewrite option_map_nil, lex_word_chars by exact Hw.
  apply lex_word_end; [|exact Hd].
  rewrite rev_app_distr, rev_involutive. exact Hv.
Qed.

Lemma digits_fuel_word_chars fuel : forall z acc,
  forallb is_word_char acc = true ->
  forallb is_word_char (JsNumber.digits_fuel fuel z acc) = true.
Proof.
  induction fuel as [|fuel IH]; intros z acc Hacc; [exact Hacc|].
  cbn [JsNumber.digits_fuel].
  assert (Hd : forallb is_word_char (Z.to_N (48 + z mod 10) :: acc) = true).
  { cbn [forallb]. rewrite Hacc, andb_true_r.
    pose proof (Z.mod_pos_bound z 10 ltac:(lia)) as Hm.
    unfold is_word_char, Props.is_digit.
    replace (N.leb 48 (Z.to_N (48 + z mod 10))) with true
      by (symmetry; apply N.leb_le; lia).
    replace (N.leb (Z.to_N (48 + z mod 10)) 57) with true
      by (symmetry; apply N.leb_le; lia).
    reflexivity. }
  destruct (z <? 10)%Z; [exact Hd|now apply IH].
Qed.

Lemma digits_word_chars z : forallb is_word_char (JsNumber.digits z) = true.
Proof. now apply digits_fuel_word_chars. Qed.

Lemma forallb_firstn (A : Type) (f : A -> bool) n (l : list A) :
  forallb f l = true -> forallb f (firstn n l) = true.
Proof.
  revert l. induction n as [|n IH]; intros [|x l]; simpl; try reflexivity.
  rewrite !andb_true_iff. intros [Hx Hl]. split; [exact Hx|now apply IH].
Qed.

Lemma forallb_skipn (A : Type) (f : A -> bool) n (l : list A) :
  forallb f l = true -> forallb f (skipn n l) = true.
Proof.
  revert l. induction n as [|n IH]; intros [|x l]; simpl; try reflexivity.
  - trivial.
  - rewrite andb_true_iff. intros [_ Hl]. now apply IH.
Qed.

Lemma forallb_repeat (A : Type) (f : A -> bool) x n :
  f x = true -> forallb f (repeat x n) = true.
Proof. intros H. induction n; simpl; [reflexivity|now rewrite H]. Qed.

(** Number::toString writes digits, letters, signs and points only. *)
Lemma to_string_word_chars x :
  forallb is_word_char (JsNumber.to_string x) = true.
Proof.
  destruct x as [s|s| |s m e]; try reflexivity.
  - now destruct s.
  - unfold JsNumber.to_string.
    destruct (JsNumber.as_ratio m e) as [num den].
    destruct (JsNumber.shortest 17 1 (S754_finite false m e) num den
                (JsNumber.magnitude num den)) as [[sd k] n].
    pose proof (digits_word_chars sd) as Hd.
    assert (He : forallb is_word_char (JsNumber.exponent_part n) = true).
    { unfold JsNumber.exponent_part. cbn [forallb].
      rewrite digits_word_chars. now destruct (0 <=? n - 1)%Z. }
    rewrite forallb_app. apply andb_true_iff. split; [now destruct s|].
    repeat match goal with
           | |- context [if ?c then _ else _] => destruct c
           end;
      repeat (rewrite forallb_app; apply andb_true_iff; split);
      try reflexivity; try assumption;
      try (apply forallb_firstn; assumption);
      try (apply forallb_skipn; assumption);
      try (apply forallb_repeat; reflexivity).
Qed.

(** *** Whole values *)

Lemma join_cons sep p ps :
  join sep (p :: ps) = p ++ flat_map (fun q => sep ++ q) ps.
Proof.
  revert p. induction ps as [|q ps IH]; intros p.
  - simpl. now rewrite app_nil_r.
  - change (join sep (p :: q :: ps)) with (p ++ sep ++ join sep (q :: ps)).
    rewrite IH. cbn [flat_map]. now rewrite <- !app_assoc.
Qed.

Lemma render_array_cons e more :
  render (JArr (e :: more))
  = u "[" ++ render e
    ++ flat_map (fun x => u "," ++ render x) more ++ u "]".
Proof.
  cbn [render map]. rewrite join_cons, flat_map_concat_map, map_map.
  rewrite <- flat_map_concat_map. now rewrite <- !app_assoc.
Qed.

Lemma render_object members :
  render (JObj members)
  = u "{" ++ join (u ",") (map render_member members) ++ u "}".
Proof.
  assert (H : forall l,
             (fix each (l : list (jsstring * json)) : list jsstring :=
                match l with
                | [] => []
                | (k, e) :: l' => (quote k ++ u ":" ++ render e) :: each l'
                end) l = map render_member l).
  { induction l as [|[k e] l IH]; [reflexivity|]. cbn [map]. now rewrite <- IH. }
  cbn [render]. now rewrite H.
Qed.

Lemma render_object_cons kv more :
  render (JObj (kv :: more))
  = u "{" ++ render_member kv
    ++ flat_map (fun x => u "," ++ render_member x) more ++ u "}".
Proof.
  rewrite render_object. cbn [map].
  rewrite join_cons, flat_map_concat_map, map_map.
  rewrite <- flat_map_concat_map. now rewrite <- !app_assoc.
Qed.

Lemma tokens_array_cons e more :
  tokens (JArr (e :: more))
  = TLBracket :: tokens e
    ++ flat_map (fun x => TComma :: tokens x) more ++ [TRBracket].
Proof.
  assert (H : forall l,
             (fix each (l : list json) : list token :=
                match l with
                | [] => []
                | x :: l' => TComma :: tokens x ++ each l'
                end) l = flat_map (fun x => TComma :: tokens x) l).
  { induction l as [|x l IH]; [reflexivity|]. cbn [flat_map app].
    now rewrite <- IH. }
  cbn [tokens]. rewrite H. cbn [app]. now rewrite <- app_assoc.
Qed.

Lemma tokens_object_cons kv more :
  tokens (JObj (kv :: more))
  = TLBrace :: member_tokens kv
    ++ flat_map (fun x => TComma :: member_tokens x) more ++ [TRBrace].
Proof.
  assert (H : forall l,
             (fix each (l : list (jsstring * json)) : list token :=
                match l with
                | [] => []
                | (k', x) :: l' =>
                    TComma :: TString k' :: TColon :: tokens x ++ each l'
                end) l = flat_map (fun x => TComma :: member_tokens x) l).
  { induction l as [|[k' x] l IH]; [reflexivity|].
    unfold member_tokens in *. cbn [flat_map app fst snd]. now rewrite <- IH. }
  destruct kv as [k e]. cbn [tokens]. rewrite H. unfold member_tokens.
  cbn [fst snd app]. now rewrite <- app_assoc.
Qed.

Lemma readable_array elems : readable (JArr elems) <-> Forall readable elems.
Proof.
  induction elems as [|e l IH]; simpl.
  - split; auto.
  - split.
    + intros [He Hl]. constructor; [exact He|now apply IH].
    + intros H. inversion H; subst. split; [assumption|now apply IH].
Qed.

Lemma readable_object members :
  readable (JObj members) <-> Forall (fun kv => readable (snd kv)) members.
Proof.
  induction members as [|[k e] l IH]; simpl.
  - split; auto.
  - split.
    + intros [He Hl]. constructor; [exact He|now apply IH].
    + intros H. inversion H; subst. split; [assumption|now apply IH].
Qed.

Lemma lex_punctuation c tok rest :
  lex_idle c = Some ([tok], LIdle) ->
  lex LIdle (c :: rest) = option_map (app [tok]) (lex LIdle rest).
Proof. intros H. rewrite lex_cons. cbn [lex_step]. now rewrite H. Qed.

(** The lexer reads the text of a serialised value as its tokens. *)
Lemma lex_render j :
  readable j -> forall rest, delimited rest ->
  lex LIdle (render j ++ rest) = option_map (app (tokens j)) (lex LIdle rest).
Proof.
  induction j as [| b | n | s | elems IH | members IH] using json_induction;
    intros Hr rest Hd.
  - now apply (@lex_word (u "null") VNull).
  - destruct b; [now apply (@lex_word (u "true") (VBool true))
                |now apply (@lex_word (u "false") (VBool false))].
  - apply lex_word; [apply to_string_word_chars|exact Hr|exact Hd].
  - cbn [render tokens]. apply lex_quote.
  - apply readable_array in Hr. destruct elems as [|e more].
    + cbn [render map join tokens app]. simpl (u _). cbn [app].
      rewrite (@lex_punctuation 91 TLBracket) by reflexivity.
      rewrite (@lex_punctuation 93 TRBracket) by reflexivity.
      now rewrite option_map_app.
    + rewrite render_array_cons, tokens_array_cons.
      change (u "[") with [91%N]. change (u ",") with [44%N].
      change (u "]") with [93%N].
      inversion IH as [|? ? IHe IHmore]; subst.
      inversion Hr as [|? ? Hre Hrmore]; subst.
      cbn [app].
      rewrite (@lex_punctuation 91 TLBracket) by reflexivity.
      assert (Hrest :
                 lex LIdle (flat_map (fun x => 44%N :: render x) more
                            ++ 93%N :: rest)
                 = option_map
                     (app (flat_map (fun x => TComma :: tokens x) more
                           ++ [TRBracket]))
                     (lex LIdle rest)
                 /\ delimited (flat_map (fun x => 44%N :: render x) more
                               ++ 93%N :: rest)).
      { clear IHe Hre IH Hr. revert IHmore Hrmore.
        induction more as [|x l IHl]; intros IHmore Hrmore.
        - cbn [flat_map app]. split; [|reflexivity].
          now rewrite (@lex_punctuation 93 TRBracket) by reflexivity.
        - inversion IHmore; subst. inversion Hrmore; subst.
          destruct IHl as [IHl Hdl]; try assumption.
          cbn [flat_map app]. split; [|reflexivity].
          rewrite (@lex_punctuation 44 TComma) by reflexivity.
          rewrite <- !app_assoc. rewrite H1 by assumption.
          rewrite IHl. rewrite !option_map_app. reflexivity. }
      destruct Hrest as [Hl Hdl].
      rewrite <- !app_assoc. cbn [app]. rewrite IHe by assumption. rewrite Hl.
      destruct (lex LIdle rest); cbn [option_map app]; [|reflexivity].
      now rewrite <- !app_assoc.
  - apply readable_object in Hr. destruct members as [|kv more].
    + cbn [render join tokens app]. simpl (u _). cbn [app].
      rewrite (@lex_punctuation 123 TLBrace) by reflexivity.
      rewrite (@lex_punctuation 125 TRBrace) by reflexivity.
      now rewrite option_map_app.
    + rewrite render_object_cons, tokens_object_cons.
      change (u "{") with [123%N]. change (u ",") with [44%N].
      change (u "}") with [125%N].
      inversion IH as [|? ? IHe IHmore]; subst.
      inversion Hr as [|? ? Hre Hrmore]; subst.
      cbn [app].
      rewrite (@lex_punctuation 123 TLBrace) by reflexivity.
      assert (Hmember : forall x X,
                 (forall rest', delimited rest' ->
                    lex LIdle (render (snd x) ++ rest')
                    = option_map (app (tokens (snd x))) (lex LIdle rest')) ->
                 delimited X ->
                 lex LIdle (render_member x ++ X)
                 = option_map (app (member_tokens x)) (lex LIdle X)).
      { intros x X Hx HX. unfold render_member, member_tokens.
        rewrite <- !app_assoc, lex_quote. change (u ":") with [58%N].
        cbn [app].
        rewrite (@lex_punctuation 58 TColon) by reflexivity.
        rewrite Hx by exact HX. rewrite !option_map_app.
        destruct (lex LIdle X); reflexivity. }
      assert (Hrest :
                 lex LIdle (flat_map (fun x => 44%N :: render_member x) more
                            ++ 125%N :: rest)
                 = option_map
                     (app (flat_map (fun x => TComma :: member_tokens x) more
                           ++ [TRBrace]))
                     (lex LIdle rest)
                 /\ delimited (flat_map (fun x => 44%N :: render_member x) more
                               ++ 125%N :: rest)).
      { clear IHe Hre IH Hr. revert IHmore Hrmore.
        induction more as [|x l IHl]; intros IHmore Hrmore.
        - cbn [flat_map app]. split; [|reflexivity].
          now rewrite (@lex_punctuation 125 TRBrace) by reflexivity.
        - inversion IHmore; subst. inversion Hrmore; subst.
          destruct IHl as [IHl Hdl]; try assumption.
          cbn [flat_map app]. split; [|reflexivity].
          rewrite (@lex_punctuation 44 TComma) by reflexivity.
          rewrite <- !app_assoc.
          rewrite Hmember; [| intros; now apply H1 | exact Hdl].
          rewrite IHl. rewrite !option_map_app. reflexivity. }
      destruct Hrest as [Hl Hdl].
      rewrite <- !app_assoc. cbn [app].
      rewrite Hmember; [| intros; now apply IHe | exact Hdl].
      rewrite Hl.
      destruct (lex LIdle rest); cbn [option_map app]; [|reflexivity].
      now rewrite <- !app_assoc.
Qed.

Lemma parse_tokens_value stack toks :
  parse_tokens (PValue stack) toks = parse_from_value stack toks.
Proof. now destruct toks. Qed.

Lemma tokens_start j rest stack :
  parse_tokens (PArrayFirst stack) (tokens j ++ rest)
  = parse_from_value (FArray [] :: stack) (tokens j ++ rest).
Proof. destruct j as [| | | |[|e l]|[|[k e] l]]; reflexivity. Qed.

Lemma value_of_object members :
  value_of (JObj members) = VObj (define_members members []).
Proof. reflexivity. Qed.

(** The parser builds from the tokens of a serialised value the value it
    stands for. *)
Lemma parse_value_tokens j : forall stack rest,
  parse_from_value stack (tokens j ++ rest)
  = parse_tokens (complete stack (value_of j)) rest.
Proof.
  induction j as [| b | n | s | elems IH | members IH] using json_induction;
    intros stack rest; try reflexivity.
  - destruct elems as [|e more]; [reflexivity|].
    rewrite tokens_array_cons. inversion IH as [|? ? IHe IHmore]; subst.
    cbn [app parse_from_value start_value].
    rewrite <- app_assoc, tokens_start, IHe. cbn [complete].
    cbn [value_of map].
    change (VArr (value_of e :: map value_of more))
      with (VArr (rev [value_of e] ++ map value_of more)).
    generalize [value_of e] as done. clear IHe IH. rewrite <- !app_assoc.
    induction more as [|x l IHl]; intros done.
    + cbn [flat_map app parse_tokens parse_step map]. now rewrite app_nil_r.
    + inversion IHmore; subst.
      cbn [flat_map app parse_tokens parse_step].
      rewrite parse_tokens_value, <- !app_assoc, H1. cbn [complete].
      rewrite IHl by assumption. cbn [rev map]. now rewrite <- app_assoc.
  - destruct members as [|[k e] more]; [reflexivity|].
    rewrite tokens_object_cons, value_of_object.
    inversion IH as [|? ? IHe IHmore]; subst. cbn [snd] in IHe.
    unfold member_tokens at 1.
    cbn [fst snd app parse_from_value start_value parse_tokens parse_step].
    rewrite parse_tokens_value, <- app_assoc, IHe. cbn [complete].
    cbn [define_members].
    generalize (Props.define [] k (value_of e)) as done. clear IHe IH.
    rewrite <- !app_assoc.
    induction more as [|[k' x] l IHl]; intros done.
    + reflexivity.
    + inversion IHmore; subst. cbn [snd] in *.
      unfold member_tokens at 1.
      cbn [flat_map fst snd app parse_tokens parse_step].
      rewrite parse_tokens_value, <- !app_assoc, H1. cbn [complete].
      now rewrite IHl by assumption.
Qed.

(** JSON.parse reads a serialised value back, as long as its numbers read
    back. *)
Lemma parse_render j :
  readable j -> JSON.parse (render j) = Normal (value_of j).
Proof.
  intros Hr. unfold JSON.parse.
  pose proof (@lex_render j Hr [] I) as Hl. rewrite app_nil_r in Hl.
  rewrite Hl. cbn [lex option_map].
  rewrite parse_tokens_value, parse_value_tokens. reflexivity.
Qed.

(** ** Decoding what TextEncoder wrote *)

Lemma lor_shiftl_low a b n :
  (b < 2 ^ n)%N -> N.lor (N.shiftl a n) b = (a * 2 ^ n + b)%N.
Proof.
  intros Hb. rewrite N.shiftl_mul_pow2.
  assert (H0 : N.land (a * 2 ^ n) b = 0%N).
  { apply N.bits_inj_0. intros m. rewrite N.land_spec.
    destruct (N.lt_ge_cases m n) as [Hm|Hm].
    - now rewrite N.mul_pow2_bits_low.
    - rewrite <- (N.mod_small b (2 ^ n)) by exact Hb.
      rewrite N.mod_pow2_bits_high by exact Hm. apply andb_false_r. }
  rewrite <- N.lxor_lor by exact H0. symmetry. now apply N.add_nocarry_lxor.
Qed.

Lemma to_N_to_byte n :
  (n < 256)%N -> Byte.to_N (TextEncoder.to_byte n) = n.
Proof.
  intros H. unfold TextEncoder.to_byte.
  destruct (Byte.of_N n) as [b|] eqn:Hb.
  - now apply Byte.to_of_N.
  - apply Byte.of_N_None_iff in Hb. lia.
Qed.

Lemma in_range_true lo hi b :
  (lo <= b)%N -> (b <= hi)%N -> in_range lo hi b = true.
Proof.
  intros H1 H2. unfold in_range. apply andb_true_iff.
  split; now apply N.leb_le.
Qed.

Lemma in_range_false lo hi b :
  (b < lo)%N \/ (hi < b)%N -> in_range lo hi b = false.
Proof.
  intros H. unfold in_range. apply andb_false_iff.
  destruct H; [left|right]; now apply N.leb_gt.
Qed.

Lemma land_low a k :
  N.land a (N.ones k) = (a mod 2 ^ k)%N.
Proof. apply N.land_ones. Qed.

(** A continuation byte in the expected range. *)
Lemma step_continuation cp seen needed lo hi r :
  needed <> 0%N -> (r < 64)%N -> (lo <= 128 + r)%N -> (128 + r <= hi)%N ->
  step (mk_state cp seen needed lo hi) (128 + r)
  = if N.eqb (N.succ seen) needed then ([(cp * 64 + r)%N], init)
    else ([], mk_state (cp * 64 + r) (N.succ seen) needed 128 191).
Proof.
  intros Hn Hr Hlo Hhi. unfold step. cbn [bytes_needed lower upper code_point
                                            bytes_seen].
  destruct (N.eqb_spec needed 0); [contradiction|].
  rewrite in_range_true by assumption. cbn [negb].
  assert (Hland : N.land (128 + r) 63 = r).
  { change 63%N with (N.ones 6). rewrite land_low. change (2 ^ 6)%N with 64%N.
    zify. Z.to_euclidean_division_equations. lia. }
  rewrite Hland, lor_shiftl_low by exact Hr. reflexivity.
Qed.

Lemma step_lead2 q :
  (2 <= q)%N -> (q < 32)%N ->
  step init (192 + q) = ([], mk_state q 0 1 128 191).
Proof.
  intros H1 H2. unfold step. cbn [bytes_needed init N.eqb]. unfold lead.
  rewrite in_range_false by lia. rewrite in_range_true by lia.
  assert (Hland : N.land (192 + q) 31 = q).
  { change 31%N with (N.ones 5). rewrite land_low. change (2 ^ 5)%N with 32%N.
    zify. Z.to_euclidean_division_equations. lia. }
  now rewrite Hland.
Qed.

Lemma step_lead3 q :
  (q < 16)%N ->
  step init (224 + q)
  = ([], mk_state q 0 2 (if N.eqb q 0 then 160 else 128)
                        (if N.eqb q 13 then 159 else 191)).
Proof.
  intros H. unfold step. cbn [bytes_needed init N.eqb]. unfold lead.
  rewrite !in_range_false by lia. rewrite in_range_true by lia.
  assert (Hland : N.land (224 + q) 15 = q).
  { change 15%N with (N.ones 4). rewrite land_low. change (2 ^ 4)%N with 16%N.
    zify. Z.to_euclidean_division_equations. lia. }
  rewrite Hland.
  replace (N.eqb (224 + q) 224) with (N.eqb q 0)
    by (destruct (N.eqb_spec q 0), (N.eqb_spec (224 + q) 224); trivial; lia).
  replace (N.eqb (224 + q) 237) with (N.eqb q 13)
    by (destruct (N.eqb_spec q 13), (N.eqb_spec (224 + q) 237); trivial; lia).
  reflexivity.
Qed.

Lemma step_lead4 q :
  (q < 5)%N ->
  step init (240 + q)
  = ([], mk_state q 0 3 (if N.eqb q 0 then 144 else 128)
                        (if N.eqb q 4 then 143 else 191)).
Proof.
  intros H. unfold step. cbn [bytes_needed init N.eqb]. unfold lead.
  rewrite !in_range_false by lia. rewrite in_range_true by lia.
  assert (Hland : N.land (240 + q) 7 = q).
  { change 7%N with (N.ones 3). rewrite land_low. change (2 ^ 3)%N with 8%N.
    zify. Z.to_euclidean_division_equations. lia. }
  rewrite Hland.
  replace (N.eqb (240 + q) 240) with (N.eqb q 0)
    by (destruct (N.eqb_spec q 0), (N.eqb_spec (240 + q) 240); trivial; lia).
  replace (N.eqb (240 + q) 244) with (N.eqb q 4)
    by (destruct (N.eqb_spec q 4), (N.eqb_spec (240 + q) 244); trivial; lia).
  reflexivity.
Qed.

Lemma run_cons st b rest :
  run st (b :: rest)
  = (fst (step st (Byte.to_N b)) ++ fst (run (snd (step st (Byte.to_N b))) rest),
     snd (run (snd (step st (Byte.to_N b))) rest)).
Proof.
  change (run st (b :: rest))
    with (let '(out, st1) := step st (Byte.to_N b) in
          let '(outs, st2) := run st1 rest in (out ++ outs, st2)).
  destruct (step st (Byte.to_N b)) as [out st1]. cbn [fst snd].
  now destruct (run st1 rest).
Qed.

Lemma run_one st b :
  run st [b] = step st (Byte.to_N b).
Proof.
  rewrite run_cons. cbn [run fst snd]. rewrite app_nil_r.
  now destruct (step st (Byte.to_N b)).
Qed.

(** The decoder reads the bytes of one scalar value back as that value. *)
Lemma run_utf8 cp :
  is_scalar cp ->
  run init (map TextEncoder.to_byte (TextEncoder.utf8 cp)) = ([cp], init).
Proof.
  intros [Hmax Hsur]. unfold TextEncoder.utf8.
  destruct (N.ltb_spec cp 128) as [H1|H1].
  { cbn [map]. rewrite run_one, to_N_to_byte by lia.
    unfold step. cbn [bytes_needed init N.eqb]. unfold lead.
    now rewrite in_range_true by lia. }
  assert (Hr : N.land cp 63 = (cp mod 64)%N)
    by (change 63%N with (N.ones 6); apply land_low).
  destruct (N.ltb_spec cp 2048) as [H2|H2].
  { assert (Hq : N.shiftr cp 6 = (cp / 64)%N)
      by (rewrite N.shiftr_div_pow2; reflexivity).
    rewrite Hq, Hr.
    remember (cp / 64)%N as q eqn:Eq. remember (cp mod 64)%N as r eqn:Er.
    assert (Hcp : (cp = 64 * q + r /\ r < 64)%N)
      by (subst q r; zify; Z.to_euclidean_division_equations; lia).
    destruct Hcp as [Hcp Hrlt].
    cbn [map]. rewrite run_cons. rewrite to_N_to_byte by lia.
    rewrite step_lead2 by lia. cbn [fst snd]. rewrite run_one.
    rewrite to_N_to_byte by lia.
    rewrite step_continuation by (try discriminate; lia).
    cbn [N.eqb N.succ Pos.eqb fst snd app]. do 2 f_equal. lia. }
  assert (Hr2 : N.land (N.shiftr cp 6) 63 = ((cp / 64) mod 64)%N).
  { change 63%N with (N.ones 6). rewrite land_low, N.shiftr_div_pow2.
    reflexivity. }
  destruct (N.ltb_spec cp 65536) as [H3|H3].
  { assert (Hq : N.shiftr cp 12 = (cp / 4096)%N)
      by (rewrite N.shiftr_div_pow2; reflexivity).
    rewrite Hq, Hr, Hr2.
    remember (cp / 4096)%N as q eqn:Eq.
    remember ((cp / 64) mod 64)%N as r2 eqn:Er2.
    remember (cp mod 64)%N as r3 eqn:Er3.
    assert (Hcp : (cp = 4096 * q + 64 * r2 + r3 /\ r2 < 64 /\ r3 < 64)%N)
      by (subst q r2 r3; zify; Z.to_euclidean_division_equations; lia).
    destruct Hcp as [Hcp [Hr2lt Hr3lt]].
    cbn [map]. rewrite run_cons. rewrite to_N_to_byte by lia.
    rewrite step_lead3 by lia. cbn [fst snd]. rewrite run_cons.
    rewrite to_N_to_byte by lia.
    rewrite step_continuation;
      [ | discriminate | lia
        | destruct (N.eqb_spec q 0); lia
        | destruct (N.eqb_spec q 13); lia ].
    cbn [N.eqb N.succ Pos.eqb fst snd]. rewrite run_one.
    rewrite to_N_to_byte by lia.
    rewrite step_continuation by (try discriminate; lia).
    cbn [N.eqb N.succ Pos.eqb Pos.succ fst snd app]. do 2 f_equal. lia. }
  assert (Hr3 : N.land (N.shiftr cp 12) 63 = ((cp / 4096) mod 64)%N).
  { change 63%N with (N.ones 6). rewrite land_low, N.shiftr_div_pow2.
    reflexivity. }
  assert (Hq : N.shiftr cp 18 = (cp / 262144)%N)
    by (rewrite N.shiftr_div_pow2; reflexivity).
  rewrite Hq, Hr, Hr2, Hr3.
  remember (cp / 262144)%N as q eqn:Eq.
  remember ((cp / 4096) mod 64)%N as r2 eqn:Er2.
  remember ((cp / 64) mod 64)%N as r3 eqn:Er3.
  remember (cp mod 64)%N as r4 eqn:Er4.
  assert (Hcp : (cp = 262144 * q + 4096 * r2 + 64 * r3 + r4
                 /\ r2 < 64 /\ r3 < 64 /\ r4 < 64)%N)
    by (subst q r2 r3 r4; zify; Z.to_euclidean_division_equations; lia).
  destruct Hcp as [Hcp [Hr2lt [Hr3lt Hr4lt]]].
  cbn [map]. rewrite run_cons. rewrite to_N_to_byte by lia.
  rewrite step_lead4 by lia. cbn [fst snd]. rewrite run_cons.
  rewrite to_N_to_byte by lia.
  rewrite step_continuation;
    [ | discriminate | lia
      | destruct (N.eqb_spec q 0); lia
      | destruct (N.eqb_spec q 4); lia ].
  cbn [N.eqb N.succ Pos.eqb fst snd]. rewrite run_cons.
  rewrite to_N_to_byte by lia.
  rewrite step_continuation by (try discriminate; lia).
  cbn [N.eqb N.succ Pos.eqb Pos.succ fst snd]. rewrite run_one.
  rewrite to_N_to_byte by lia.
  rewrite step_continuation by (try discriminate; lia).
  cbn [N.eqb N.succ Pos.eqb Pos.succ fst snd app]. do 2 f_equal. lia.
Qed.

Lemma run_encoded cps :
  Forall is_scalar cps ->
  run init (map TextEncoder.to_byte (flat_map TextEncoder.utf8 cps))
  = (cps, init).
Proof.
  induction 1 as [|cp cps Hcp _ IH]; [reflexivity|].
  cbn [flat_map]. rewrite map_app, run_app, (run_utf8 Hcp). cbn [fst snd].
  now rewrite IH.
Qed.

Lemma surrogate_pair c d :
  is_high_surrogate c = true -> is_low_surrogate d = true ->
  is_scalar (65536 + N.shiftl (c - 55296) 10 + (d - 56320))
  /\ utf16 (65536 + N.shiftl (c - 55296) 10 + (d - 56320)) = [c; d].
Proof.
  unfold is_high_surrogate, is_low_surrogate.
  rewrite !andb_true_iff, !N.leb_le. intros [Hc1 Hc2] [Hd1 Hd2].
  rewrite N.shiftl_mul_pow2. change (2 ^ 10)%N with 1024%N.
  split; [split; lia|].
  unfold utf16. destruct (N.ltb_spec (65536 + (c - 55296) * 1024 + (d - 56320))
                            65536); [lia|].
  change 1023%N with (N.ones 10). rewrite land_low, N.shiftr_div_pow2.
  change (2 ^ 10)%N with 1024%N.
  f_equal; [|f_equal]; zify; Z.to_euclidean_division_equations; lia.
Qed.

(** The code units of well-formed text are scalar values, each written
    back by [utf16] as it was. *)
Lemma scalars_well_formed n : forall s,
  (List.length s <= n)%nat -> well_formed s = true ->
  Forall is_scalar (TextEncoder.scalars s)
  /\ flat_map utf16 (TextEncoder.scalars s) = s.
Proof.
  induction n as [|n IH]; intros s Hlen Hwf.
  - destruct s; [now split|simpl in Hlen; lia].
  - destruct s as [|c s]; [now split|].
    cbn [well_formed TextEncoder.scalars] in *.
    destruct (is_high_surrogate c) eqn:Hh.
    + destruct s as [|d s]; [discriminate|].
      apply andb_true_iff in Hwf. destruct Hwf as [Hl Hwf]. rewrite Hl.
      destruct (IH s ltac:(simpl in Hlen; lia) Hwf) as [IH1 IH2].
      destruct (surrogate_pair _ _ Hh Hl) as [Hs Hu].
      split; [now constructor|]. cbn [flat_map]. now rewrite Hu, IH2.
    + apply andb_true_iff in Hwf. destruct Hwf as [Hc Hwf].
      apply andb_true_iff in Hc. destruct Hc as [Hl Hc].
      apply negb_true_iff in Hl. rewrite Hl. apply N.ltb_lt in Hc.
      destruct (IH s ltac:(simpl in Hlen; lia) Hwf) as [IH1 IH2].
      unfold is_high_surrogate, is_low_surrogate in Hh, Hl.
      assert (Hs : is_scalar c).
      { split; [lia|]. intros [H1 H2].
        destruct (N.leb_spec 55296 c), (N.leb_spec c 56319),
          (N.leb_spec 56320 c), (N.leb_spec c 57343);
          cbn in Hh, Hl; try discriminate; lia. }
      split; [now constructor|]. cbn [flat_map]. rewrite IH2.
      unfold utf16. destruct (N.ltb_spec c 65536); [reflexivity|lia].
Qed.

Lemma scalars_head s :
  well_formed s = true -> no_leading_bom s = true ->
  no_bom (TextEncoder.scalars s) = true.
Proof.
  destruct s as [|c s]; [reflexivity|]. cbn [well_formed TextEncoder.scalars].
  destruct (is_high_surrogate c) eqn:Hh.
  - destruct s as [|d s]; [discriminate|]. rewrite andb_true_iff.
    intros [Hl _] _. rewrite Hl. cbn [no_bom].
    destruct (surrogate_pair _ _ Hh Hl) as [_ Hu]. unfold utf16 in Hu.
    destruct (N.ltb_spec (65536 + N.shiftl (c - 55296) 10 + (d - 56320)) 65536);
      [discriminate|].
    destruct (N.eqb_spec (65536 + N.shiftl (c - 55296) 10 + (d - 56320)) 65279);
      [lia|reflexivity].
  - rewrite !andb_true_iff, negb_true_iff. intros [[Hl _] _]. rewrite Hl.
    trivial.
Qed.

(** What TextEncoder writes for well-formed text, TextDecoder reads back,
    unless the text begins with a byte order mark (which the decoder
    drops). *)
Lemma decode_encode s :
  well_formed s = true -> no_leading_bom s = true ->
  TextDecoder.decode (TextEncoder.encode s) = s.
Proof.
  intros Hwf Hbom.
  destruct (@scalars_well_formed (List.length s) s (le_n _) Hwf) as [Hs Hu].
  unfold TextDecoder.decode, TextDecoder.scalars, TextEncoder.encode.
  rewrite (run_encoded Hs). cbn [flush bytes_needed init N.eqb].
  rewrite app_nil_r, strip_bom_no_bom by now apply scalars_head.
  exact Hu.
Qed.

Lemma encode_ends_clean s :
  well_formed s = true -> ends_clean (TextEncoder.encode s) = true.
Proof.
  intros Hwf.
  destruct (@scalars_well_formed (List.length s) s (le_n _) Hwf) as [Hs _].
  unfold ends_clean, TextEncoder.encode. now rewrite (run_encoded Hs).
Qed.

(** ** The text of a serialised value *)

Lemma clean_nil : clean [].
Proof. now split. Qed.

Lemma clean_app a b : clean a -> clean b -> clean (a ++ b).
Proof.
  intros [Ha1 Ha2] [Hb1 Hb2]. split.
  - intros rest. now rewrite <- app_assoc, Ha1, Hb1.
  - unfold no_newline in *. now rewrite forallb_app, Ha2, Hb2.
Qed.

Lemma clean_tame_char c : tame c = true -> clean [c].
Proof.
  unfold tame. rewrite andb_true_iff, negb_true_iff, N.ltb_lt.
  intros [Hc Hn]. split.
  - intros rest. cbn [app well_formed].
    unfold is_high_surrogate, is_low_surrogate.
    destruct (N.leb_spec 55296 c); [lia|]. destruct (N.leb_spec 56320 c); [lia|].
    cbn [andb negb]. destruct (N.ltb_spec c 65536); [reflexivity|lia].
  - unfold no_newline, newline. cbn [forallb]. now rewrite Hn.
Qed.

Lemma clean_tame s : forallb tame s = true -> clean s.
Proof.
  induction s as [|c s IH]; [intros _; apply clean_nil|].
  cbn [forallb]. rewrite andb_true_iff. intros [Hc Hs].
  apply (@clean_app [c] s); [now apply clean_tame_char|now apply IH].
Qed.

Lemma word_char_tame c : is_word_char c = true -> tame c = true.
Proof.
  unfold is_word_char, Props.is_digit, is_letter, tame.
  rewrite !orb_true_iff, !andb_true_iff, !N.leb_le, !N.eqb_eq, negb_true_iff,
    N.ltb_lt, N.eqb_neq. lia.
Qed.

Lemma clean_word s : forallb is_word_char s = true -> clean s.
Proof.
  intros H. apply clean_tame. rewrite forallb_forall in *.
  intros c Hc. apply word_char_tame. now apply H.
Qed.

Lemma hex_char_tame d : (d < 16)%N -> tame (hex_char d) = true.
Proof.
  intros H. unfold hex_char, tame.
  destruct (N.ltb_spec d 10); apply andb_true_iff; rewrite negb_true_iff;
    split; try apply N.ltb_lt; try apply N.eqb_neq; lia.
Qed.

Lemma clean_unicode_escape c : (c < 65536)%N -> clean (unicode_escape c).
Proof.
  intros H. destruct (hex_parts H) as [H3 [H2 [H1 [H0 _]]]].
  apply clean_tame. unfold unicode_escape. cbn [forallb].
  now rewrite !hex_char_tame by assumption.
Qed.

Lemma clean_pair c d :
  is_high_surrogate c = true -> is_low_surrogate d = true -> clean [c; d].
Proof.
  intros Hh Hl. split.
  - intros rest. cbn [app well_formed]. now rewrite Hh, Hl.
  - unfold is_high_surrogate, is_low_surrogate in *.
    apply andb_true_iff in Hh, Hl. destruct Hh as [Hh _], Hl as [Hl _].
    apply N.leb_le in Hh, Hl. unfold no_newline. cbn [forallb].
    destruct (N.eqb_spec c newline) as [E|_]; [unfold newline in E; lia|].
    destruct (N.eqb_spec d newline) as [E|_]; [unfold newline in E; lia|].
    reflexivity.
Qed.

(** The characters JSON.stringify writes for a string. *)
Lemma clean_quote_chars n : forall s,
  (List.length s <= n)%nat -> code_units s = true -> clean (quote_chars s).
Proof.
  induction n as [|n IH]; intros s Hlen Hu.
  - destruct s; [apply clean_nil|simpl in Hlen; lia].
  - destruct s as [|c s]; [apply clean_nil|].
    cbn [code_units forallb] in Hu. apply andb_true_iff in Hu.
    destruct Hu as [Hc Hu]. apply N.ltb_lt in Hc.
    assert (Hs : clean (quote_chars s))
      by (apply IH; [simpl in Hlen; lia|exact Hu]).
    cbn [quote_chars].
    destruct (N.eqb_spec c 8); [apply clean_app; [now apply clean_tame|exact Hs]|].
    destruct (N.eqb_spec c 9); [apply clean_app; [now apply clean_tame|exact Hs]|].
    destruct (N.eqb_spec c 10); [apply clean_app; [now apply clean_tame|exact Hs]|].
    destruct (N.eqb_spec c 12); [apply clean_app; [now apply clean_tame|exact Hs]|].
    destruct (N.eqb_spec c 13); [apply clean_app; [now apply clean_tame|exact Hs]|].
    destruct (N.eqb_spec c 34); [apply clean_app; [now apply clean_tame|exact Hs]|].
    destruct (N.eqb_spec c 92); [apply clean_app; [now apply clean_tame|exact Hs]|].
    destruct (N.ltb_spec c 32);
      [apply clean_app; [now apply clean_unicode_escape|exact Hs]|].
    destruct (is_high_surrogate c) eqn:Hh.
    + destruct s as [|d s'].
      * now apply clean_unicode_escape.
      * destruct (is_low_surrogate d) eqn:Hl.
        -- apply (@clean_app [c; d]); [now apply clean_pair|].
           apply IH; [simpl in Hlen; lia|].
           cbn [code_units forallb] in Hu. now apply andb_true_iff in Hu.
        -- apply clean_app; [now apply clean_unicode_escape|exact Hs].
    + destruct (is_low_surrogate c) eqn:Hl.
      * apply clean_app; [now apply clean_unicode_escape|exact Hs].
      * apply (@clean_app [c]); [|exact Hs]. split.
        -- intros rest. cbn [app well_formed]. rewrite Hh, Hl. cbn [negb andb].
           destruct (N.ltb_spec c 65536); [reflexivity|lia].
        -- unfold no_newline. cbn [forallb].
           destruct (N.eqb_spec c newline) as [E|_];
             [unfold newline in E; lia|reflexivity].
Qed.

Lemma clean_quote s : code_units s = true -> clean (quote s).
Proof.
  intros H. unfold quote. apply (@clean_app [34%N]); [now apply clean_tame|].
  apply clean_app; [|now apply clean_tame].
  now apply (@clean_quote_chars (List.length s)).
Qed.

Lemma proper_array elems : proper (JArr elems) <-> Forall proper elems.
Proof.
  induction elems as [|e l IH]; simpl.
  - split; auto.
  - split.
    + intros [He Hl]. constructor; [exact He|now apply IH].
    + intros H. inversion H; subst. split; [assumption|now apply IH].
Qed.

Lemma proper_object members :
  proper (JObj members)
  <-> Forall (fun kv => code_units (fst kv) = true /\ proper (snd kv)) members.
Proof.
  induction members as [|[k e] l IH]; simpl.
  - split; auto.
  - split.
    + intros [He Hl]. constructor; [exact He|now apply IH].
    + intros H. inversion H; subst. split; [assumption|now apply IH].
Qed.

(** The text JSON.stringify writes is well formed and holds no line
    feed. *)
Lemma clean_render j : proper j -> clean (render j).
Proof.
  induction j as [| b | n | s | elems IH | members IH] using json_induction;
    intros Hp.
  - now apply clean_tame.
  - destruct b; now apply clean_tame.
  - apply clean_word, to_string_word_chars.
  - now apply clean_quote.
  - apply proper_array in Hp. destruct elems as [|e more].
    + now apply clean_tame.
    + rewrite render_array_cons. inversion IH; subst. inversion Hp; subst.
      apply clean_app; [now apply clean_tame|].
      apply clean_app; [auto|]. apply clean_app; [|now apply clean_tame].
      clear H1 H3 IH Hp. induction more as [|x l IHl]; [apply clean_nil|].
      inversion H2; subst. inversion H4; subst. cbn [flat_map].
      apply clean_app; [|now apply IHl].
      apply clean_app; [now apply clean_tame|auto].
  - apply proper_object in Hp. destruct members as [|kv more].
    + now apply clean_tame.
    + rewrite render_object_cons. inversion IH; subst. inversion Hp; subst.
      assert (Hm : forall x, (proper (snd x) -> clean (render (snd x))) ->
                             code_units (fst x) = true /\ proper (snd x) ->
                             clean (render_member x)).
      { intros x Hx [Hk He]. unfold render_member.
        apply clean_app; [now apply clean_quote|].
        apply clean_app; [now apply clean_tame|auto]. }
      apply clean_app; [now apply clean_tame|].
      apply clean_app; [auto|]. apply clean_app; [|now apply clean_tame].
      clear H1 H3 IH Hp. induction more as [|x l IHl]; [apply clean_nil|].
      inversion H2; subst. inversion H4; subst. cbn [flat_map].
      apply clean_app; [|now apply IHl].
      apply clean_app; [now apply clean_tame|auto].
Qed.

(** ** Text on its way between a client and a server *)

Lemma clean_well_formed s : clean s -> well_formed s = true.
Proof. intros [H _]. specialize (H []). now rewrite app_nil_r in H. Qed.

Lemma clean_no_newline s : clean s -> no_newline s = true.
Proof. now intros [_ H]. Qed.

Lemma render_object_no_bom members :
  no_leading_bom (render (JObj members)) = true.
Proof. destruct members as [|[k e] more]; reflexivity. Qed.

(** The text of a serialised object survives the way over the wire. *)
Lemma transported members :
  proper (JObj members) ->
  TextDecoder.decode (TextEncoder.encode (render (JObj members)))
  = render (JObj members).
Proof.
  intros Hp. apply decode_encode.
  - now apply clean_well_formed, clean_render.
  - apply render_object_no_bom.
Qed.

Lemma reads_back_finite n : reads_back n -> JsNumber.is_finite n = true.
Proof.
  unfold reads_back. destruct n as [s|s| |s m e]; try reflexivity.
  - destruct s; vm_compute; discriminate.
  - vm_compute; discriminate.
Qed.

Lemma wire_sendable id :
  sendable id ->
  exists j, wire id = Some j /\ proper j /\ readable j /\ value_of j = id
            /\ nullish id VNull = id.
Proof.
  destruct id as [| |b|n|s|l|p|v|f]; try contradiction; intros H.
  - exists (JNum n). cbn [wire]. rewrite (reads_back_finite H). now repeat split.
  - exists (JStr s). now repeat split.
Qed.

(** ** The HTTP client in front of the HTTP server *)

(** What the client reads of the response to a request object. *)
Lemma served_object members :
  proper (JObj members) ->
  served (Some (render (JObj members)))
  = Normal (TextEncoder.encode
              match Http.handler (post (render (JObj members))) with
              | Normal response => body_text (Http.body response)
              | Throw _ => u "Internal Server Error"
              end).
Proof.
  intros Hp. unfold served. cbn [body_text]. now rewrite (transported _ Hp).
Qed.

Lemma response_json_object members :
  proper (JObj members) -> readable (JObj members) ->
  HttpClient.response_json (TextEncoder.encode (render (JObj members)))
  = Normal (value_of (JObj members)).
Proof.
  intros Hp Hr. unfold HttpClient.response_json.
  rewrite (transported _ Hp). now apply parse_render.
Qed.

(** The handler on a body some JSON.stringify wrote. *)
Lemma handler_render j :
  readable j ->
  Http.handler (post (render j))
  = try_catch (Http.dispatch (value_of j))
      (fun _ =>
         Normal (Http.mk_response (JSON.stringify Http.parse_error) 400
                   Http.json_headers)).
Proof.
  intros Hr. unfold Http.handler, post. cbn [Http.req_method Http.req_text].
  change (negb (str_eqb (u "POST") (u "POST"))) with false. cbv iota.
  unfold await. cbn [bind]. now rewrite (parse_render _ Hr).
Qed.

(** X5.  Over HTTP, [echo] gives every string back: [jsonRPCRequest("echo",
    { text }, id)] against the server resolves to [text] itself, whatever
    code units it holds (line feeds, quotes, lone surrogates), for every
    id that is a string or a number that reads back, the default included. *)
Theorem echo_over_http text id :
  code_units text = true -> sendable (HttpClient.default_id id) ->
  HttpClient.jsonRPCRequest served (VStr (u "echo"))
    (VObj [(u "text", VStr text)]) id
  = Normal (VStr text).
Proof.
  intros Ht Hid. unfold HttpClient.jsonRPCRequest.
  generalize dependent (HttpClient.default_id id). clear id. intros id Hid.
  destruct (wire_sendable _ Hid) as [j [Hw [Hp [Hr [Hv Hn]]]]].
  unfold HttpClient.payload, JSON.stringify. cbn [wire]. rewrite Hw.
  cbn [option_map].
  rewrite served_object by (simpl; repeat split; assumption).
  unfold await. cbn [bind].
  rewrite handler_render by (simpl; repeat split; assumption).
  change (value_of (JObj
                    [(u "jsonrpc", JStr (u "2.0"));
                     (u "method", JStr (u "echo"));
                     (u "params", JObj [(u "text", JStr text)]); (
                     u "id", j)]))
    with (VObj [(u "jsonrpc", VStr (u "2.0"));
                     (u "method", VStr (u "echo"));
                     (u "params", VObj [(u "text", VStr text)]); (
                     u "id", value_of j)]).
  rewrite Hv.
  change (Http.dispatch _)
    with (Normal (Http.ok (Http.success (nullish id VNull) (VStr text)))).
  rewrite Hn. cbn [try_catch Http.ok Http.body].
  rewrite stringify_success. cbn [wire body_text]. rewrite Hw.
  unfold result_json, optional. cbn [app].
  rewrite response_json_object by (simpl; repeat split; assumption).
  reflexivity.
Qed.

Lemma echo_over_http_witness :
  HttpClient.jsonRPCRequest served (VStr (u "echo"))
    (VObj [(u "text", VStr (u "Hello, JSON-RPC!!"))]) VUndefined
  = Normal (VStr (u "Hello, JSON-RPC!!")).
Proof.
  apply (@echo_over_http (u "Hello, JSON-RPC!!") VUndefined);
    vm_compute; reflexivity.
Defined.



Lemma code_units_app s t :
  code_units (s ++ t) = code_units s && code_units t.
Proof. apply forallb_app. Qed.

(** X7.  Over HTTP, a method the server does not know makes the client
    throw, and the message it throws ends in [undefined]: the server's
    error objects hold no [data]. *)
Theorem unknown_method_over_http name params id :
  code_units name = true -> name <> [] ->
  get_ordinary Http.methods name = VUndefined ->
  transmittable params ->
  sendable (HttpClient.default_id id) ->
  HttpClient.jsonRPCRequest served (VStr name) params id
  = Throw (Error (u "Error -32601: Method not found: " ++ name
                  ++ u ": undefined")).
Proof.
  intros Hname Hne Hlook Hparams Hid. unfold HttpClient.jsonRPCRequest.
  generalize dependent (HttpClient.default_id id). clear id. intros id Hid.
  destruct (wire_sendable _ Hid) as [j [Hw [Hp [Hr [Hv Hn]]]]].
  unfold HttpClient.payload, JSON.stringify. cbn [wire]. rewrite Hw.
  assert (Hdis : forall request,
             Get request (u "jsonrpc") = Normal (VStr (u "2.0")) ->
             Get request (u "method") = Normal (VStr name) ->
             Get request (u "id") = Normal id ->
             Http.dispatch request
             = Normal (Http.ok (Http.failure id (-32601)
                                  (u "Method not found: " ++ name)))).
  { intros request Hj Hm Hi.
    unfold Http.dispatch, Http.invalid, Http.lookup_method.
    rewrite Hj. cbn [bind]. change (negb (strict_equals_string _ _)) with false.
    cbv iota. rewrite Hm. cbn [bind ToBoolean].
    destruct name as [|c name']; [contradiction|]. cbn [negb].
    cbv iota. unfold ToPropertyKey, ToString. cbn [ToPrimitive bind prim_to_string].
    rewrite Hlook. cbn [ToBoolean negb]. cbv iota. rewrite Hi. cbn [bind].
    reflexivity. }
  assert (Hresp :
            proper (error_json (Some j) (-32601) (u "Method not found: " ++ name))
            /\ readable (error_json (Some j) (-32601) (u "Method not found: " ++ name))).
  { split.
    - simpl. repeat split; assumption.
    - simpl. repeat split; assumption || (vm_compute; reflexivity). }
  destruct Hresp as [Hrp Hrr].
  destruct (wire params) as [p|] eqn:Hwp.
  - destruct (Hparams p Hwp) as [Hpp Hpr].
    cbn [option_map].
    rewrite served_object by (simpl; repeat split; assumption).
    unfold await. cbn [bind].
    rewrite handler_render by (simpl; repeat split; assumption).
    rewrite Hdis; [| reflexivity | reflexivity | cbn; now rewrite Hv].
    cbn [try_catch Http.ok Http.body].
    rewrite (@stringify_failure id (-32601) _ eq_refl). rewrite Hw.
    cbn [body_text]. unfold error_json, optional in *. cbn [app] in *.
    rewrite response_json_object by assumption.
    reflexivity.
  - cbn [option_map].
    rewrite served_object by (simpl; repeat split; assumption).
    unfold await. cbn [bind].
    rewrite handler_render by (simpl; repeat split; assumption).
    rewrite Hdis; [| reflexivity | reflexivity | cbn; now rewrite Hv].
    cbn [try_catch Http.ok Http.body].
    rewrite (@stringify_failure id (-32601) _ eq_refl). rewrite Hw.
    cbn [body_text]. unfold error_json, optional in *. cbn [app] in *.
    rewrite response_json_object by assumption.
    reflexivity.
Qed.

Lemma unknown_method_over_http_witness :
  HttpClient.jsonRPCRequest served (VStr (u "subtract"))
    (VArr [VNum (JsNumber.of_Z 18); VNum (JsNumber.of_Z 6)]) VUndefined
  = Throw (Error (u "Error -32601: Method not found: subtract: undefined")).
Proof.
  apply (@unknown_method_over_http (u "subtract")
           (VArr [VNum (JsNumber.of_Z 18); VNum (JsNumber.of_Z 6)]) VUndefined).
  - reflexivity.
  - discriminate.
  - reflexivity.
  - intros j [= <-]. vm_compute. repeat split.
  - vm_compute. reflexivity.
Defined.

(** ** Lines written, lines read *)

Lemma well_formed_app n : forall a b,
  (List.length a <= n)%nat -> well_formed a = true ->
  well_formed (a ++ b) = well_formed b.
Proof.
  induction n as [|n IH]; intros a b Hlen Ha.
  - destruct a; [reflexivity|simpl in Hlen; lia].
  - destruct a as [|c a]; [reflexivity|].
    cbn [app well_formed] in *. destruct (is_high_surrogate c).
    + destruct a as [|d a]; [discriminate|].
      apply andb_true_iff in Ha. destruct Ha as [Hd Ha].
      cbn [app]. rewrite Hd. cbn [andb]. apply IH; [simpl in Hlen; lia|exact Ha].
    + apply andb_true_iff in Ha. destruct Ha as [Hc Ha]. rewrite Hc.
      cbn [andb]. apply IH; [simpl in Hlen; lia|exact Ha].
Qed.

Lemma well_formed_lines lines :
  Forall (fun line => well_formed line = true) lines ->
  well_formed (with_line_feeds lines) = true.
Proof.
  induction 1 as [|line lines Hl _ IH]; [reflexivity|].
  unfold with_line_feeds. cbn [flat_map]. rewrite <- app_assoc.
  rewrite (@well_formed_app (List.length line)) by (auto; lia).
  exact IH.
Qed.

Lemma split_line s rest :
  no_newline s = true -> split (s ++ newline :: rest) = s :: split rest.
Proof.
  induction s as [|c s IH]; intros Hs.
  - cbn [app]. rewrite split_cons. now rewrite N.eqb_refl.
  - unfold no_newline in Hs. cbn [forallb] in Hs.
    apply andb_true_iff in Hs. destruct Hs as [Hc Hs].
    apply negb_true_iff in Hc.
    rewrite <- app_comm_cons, split_cons, Hc, (IH Hs). reflexivity.
Qed.

Lemma frames_of_line s rest :
  no_newline s = true ->
  frames_of_text (s ++ newline :: rest) = s :: frames_of_text rest.
Proof.
  intros Hs. unfold frames_of_text. rewrite (@split_line s rest Hs).
  rewrite pop_cons by apply split_not_nil.
  destruct (pop (split rest)) as [last lines]. reflexivity.
Qed.

Lemma frames_of_lines lines :
  Forall (fun line => no_newline line = true) lines ->
  frames_of_text (with_line_feeds lines) = lines.
Proof.
  induction 1 as [|line lines Hl _ IH]; [reflexivity|].
  unfold with_line_feeds. cbn [flat_map]. rewrite <- app_assoc.
  cbn [app]. rewrite (@frames_of_line line _ Hl). f_equal. exact IH.
Qed.

Lemma encoder_scalars_app n : forall a b,
  (List.length a <= n)%nat -> well_formed a = true ->
  TextEncoder.scalars (a ++ b)
  = TextEncoder.scalars a ++ TextEncoder.scalars b.
Proof.
  induction n as [|n IH]; intros a b Hlen Ha.
  - destruct a; [reflexivity|simpl in Hlen; lia].
  - destruct a as [|c a]; [reflexivity|].
    cbn [app well_formed TextEncoder.scalars] in *.
    destruct (is_high_surrogate c).
    + destruct a as [|d a]; [discriminate|].
      apply andb_true_iff in Ha. destruct Ha as [Hd Ha].
      cbn [app]. rewrite Hd. cbn [app]. f_equal.
      apply IH; [simpl in Hlen; lia|exact Ha].
    + apply andb_true_iff in Ha. destruct Ha as [Hc Ha].
      apply andb_true_iff in Hc. destruct Hc as [Hc _].
      apply negb_true_iff in Hc. rewrite Hc. cbn [app]. f_equal.
      apply IH; [simpl in Hlen; lia|exact Ha].
Qed.

Lemma encode_app a b :
  well_formed a = true ->
  TextEncoder.encode (a ++ b) = TextEncoder.encode a ++ TextEncoder.encode b.
Proof.
  intros Ha. unfold TextEncoder.encode.
  rewrite (@encoder_scalars_app (List.length a)) by (auto; lia).
  now rewrite flat_map_app, map_app.
Qed.

Lemma well_formed_line line :
  well_formed line = true -> well_formed (line ++ [newline]) = true.
Proof.
  intros H. now rewrite (@well_formed_app (List.length line)) by (auto; lia).
Qed.

(** The writes of the main loop, end to end, are the encoding of the lines
    with their line feeds. *)
Lemma writes_concat lines :
  Forall one_line lines ->
  concat (map written lines) = TextEncoder.encode (with_line_feeds lines).
Proof.
  induction 1 as [|line lines [_ Hl] _ IH]; [reflexivity|].
  cbn [map concat]. unfold with_line_feeds. cbn [flat_map].
  rewrite encode_app by now apply well_formed_line.
  now rewrite IH.
Qed.

Lemma read_line line reads :
  one_line line -> no_leading_bom (line ++ [newline]) = true ->
  carries (written line) reads ->
  readLines reads = [line].
Proof.
  intros [Hn Hw] Hbom [Hcat Hal].
  rewrite readLines_frames. unfold decoded_chunks.
  rewrite <- (decode_concat _ Hal), Hcat. unfold written.
  rewrite decode_encode by (auto using well_formed_line).
  now rewrite (@frames_of_line line [] Hn).
Qed.

(** X8.  What is written the way the main loop writes, one line and its
    line feed per write, is read back by [readLines] line for line,
    however the pipe cuts the bytes into reads, as long as no read ends
    inside a character or starts with a byte order mark. *)
Theorem written_lines_are_read_back lines reads :
  Forall one_line lines ->
  no_leading_bom (with_line_feeds lines) = true ->
  carries (concat (map written lines)) reads ->
  readLines reads = lines.
Proof.
  intros Hlines Hbom [Hcat Hal].
  rewrite readLines_frames. unfold decoded_chunks.
  rewrite <- (decode_concat _ Hal), Hcat, (writes_concat Hlines).
  rewrite decode_encode.
  - apply frames_of_lines. eapply Forall_impl; [|exact Hlines]. now intros l [H _].
  - apply well_formed_lines. eapply Forall_impl; [|exact Hlines]. now intros l [_ H].
  - exact Hbom.
Qed.

Lemma written_lines_are_read_back_witness :
  readLines [[x61; x0a; xc3; xa9]; [x0a; x0a; xe2; x82; xac; x21]; [x0a]]
  = [u "a"; [233%N]; []; [8364%N; 33%N]].
Proof.
  apply (@written_lines_are_read_back [u "a"; [233%N]; []; [8364%N; 33%N]]).
  - repeat constructor.
  - reflexivity.
  - split; vm_compute; reflexivity.
Defined.

(** ** The main loop of the stdio server *)

Lemma serve_responses lines :
  Stdio.serve lines = Normal (map (fun line => written (response_text line)) lines).
Proof.
  induction lines as [|line rest IH]; [reflexivity|].
  cbn [Stdio.serve map]. unfold response_text.
  destruct (processMessage_some line) as [j Hj]. rewrite Hj.
  unfold await. cbn [bind]. rewrite IH. cbn [bind]. reflexivity.
Qed.

(** The server on a line some JSON.stringify wrote. *)
Lemma processMessage_render j :
  readable j ->
  Stdio.processMessage (render j)
  = try_catch (Stdio.dispatch (value_of j))
      (fun _ => Normal (JSON.stringify Stdio.parse_error)).
Proof.
  intros Hr. unfold Stdio.processMessage. now rewrite (parse_render _ Hr).
Qed.

(** ** The stdio client in front of the stdio server *)

(** What [sendRequest] gets when the request and the answer are made of
    code units and of numbers that read back. *)
Lemma sendRequest_answer serverProcess request members answer :
  JSON.stringify request = Some (render (JObj members)) ->
  proper (JObj members) -> readable (JObj members) ->
  Stdio.dispatch (value_of (JObj members))
  = Normal (Some (render (JObj answer))) ->
  proper (JObj answer) -> readable (JObj answer) ->
  runs_server serverProcess (TextEncoder.encode (StdioClient.message request)) ->
  StdioClient.sendRequest serverProcess request
  = Normal (value_of (JObj answer)).
Proof.
  intros Hreq Hp Hr Hdis Hpa Hra [stdin [writes [Hin [Hmain Hout]]]].
  unfold StdioClient.sendRequest.
  unfold StdioClient.message in *. rewrite Hreq in *.
  assert (Hline : forall ms, proper (JObj ms) ->
                    one_line (render (JObj ms))
                    /\ no_leading_bom (render (JObj ms) ++ [newline]) = true).
  { intros ms Hms. pose proof (clean_render _ Hms) as Hc. split.
    - split; [now apply clean_no_newline|now apply clean_well_formed].
    - destruct ms as [|[k e] more]; reflexivity. }
  destruct (Hline _ Hp) as [H1 H2]. destruct (Hline _ Hpa) as [H3 H4].
  assert (Hread : readLines stdin = [render (JObj members)]).
  { now apply read_line. }
  unfold Stdio.main in Hmain. rewrite Hread, serve_responses in Hmain.
  change (map _ [render (JObj members)])
    with [written (response_text (render (JObj members)))] in Hmain.
  assert (Hw : writes = [written (response_text (render (JObj members)))])
    by congruence.
  rewrite Hw in Hout. clear Hw Hmain.
  unfold response_text in Hout.
  rewrite (processMessage_render _ Hr), Hdis in Hout. cbn [try_catch] in Hout.
  change (concat [?w]) with (w ++ []) in Hout. rewrite app_nil_r in Hout.
  rewrite (@read_line (render (JObj answer)) _ H3 H4 Hout).
  now apply parse_render.
Qed.

(** X9.  Over stdio, [echo] gives every string back: [sendRequest] of an
    echo request to a process that runs the server returns the response
    object with the request's id and, as result, the text itself, however
    the two pipes cut the bytes into reads, as long as no read ends
    inside a character. *)
Theorem echo_over_stdio serverProcess text id :
  code_units text = true -> sendable id ->
  runs_server serverProcess
    (TextEncoder.encode
       (StdioClient.message
          (request_of id (VStr (u "echo")) (VObj [(u "text", VStr text)])))) ->
  StdioClient.sendRequest serverProcess
    (request_of id (VStr (u "echo")) (VObj [(u "text", VStr text)]))
  = Normal (VObj [ (u "jsonrpc", VStr (u "2.0")); (u "id", id);
                   (u "result", VStr text) ]).
Proof.
  intros Ht Hid Hrun.
  destruct (wire_sendable _ Hid) as [j [Hw [Hp [Hr [Hv Hn]]]]].
  rewrite (@sendRequest_answer serverProcess _
             [ (u "jsonrpc", JStr (u "2.0")); (u "id", j);
               (u "method", JStr (u "echo"));
               (u "params", JObj [(u "text", JStr text)]) ]
             [ (u "jsonrpc", JStr (u "2.0")); (u "id", j);
               (u "result", JStr text) ]).
  - change (value_of (JObj _))
      with (VObj [ (u "jsonrpc", VStr (u "2.0")); (u "id", value_of j);
                   (u "result", VStr text) ]).
    now rewrite Hv.
  - unfold request_of, JSON.stringify. cbn [wire]. now rewrite Hw.
  - simpl; repeat split; assumption.
  - simpl; repeat split; assumption.
  - change (value_of (JObj _))
      with (VObj [ (u "jsonrpc", VStr (u "2.0")); (u "id", value_of j);
                   (u "method", VStr (u "echo"));
                   (u "params", VObj [(u "text", VStr text)]) ]).
    rewrite Hv.
    change (Stdio.dispatch _)
      with (Normal (JSON.stringify
                      (Stdio.success (nullish id VNull) (VStr text)))).
    rewrite Hn, stringify_success. cbn [wire]. now rewrite Hw.
  - simpl; repeat split; assumption.
  - simpl; repeat split; assumption.
  - exact Hrun.
Qed.

Lemma echo_over_stdio_witness :
  StdioClient.sendRequest piped_server
    (request_of (VNum (JsNumber.of_Z 1)) (VStr (u "echo"))
       (VObj [(u "text", VStr (u "Hello, STDIO RPC!"))]))
  = Normal (VObj [ (u "jsonrpc", VStr (u "2.0"));
                   (u "id", VNum (JsNumber.of_Z 1));
                   (u "result", VStr (u "Hello, STDIO RPC!")) ]).
Proof.
  apply (@echo_over_stdio piped_server (u "Hello, STDIO RPC!")
           (VNum (JsNumber.of_Z 1))).
  - reflexivity.
  - vm_compute. reflexivity.
  - match goal with
    | |- runs_server _ ?bytes =>
        exists (in_two_reads bytes);
        exists (match Stdio.main (in_two_reads bytes) with
                | Normal writes => writes
                | Throw _ => []
                end)
    end.
    split; [|split]; [split| |split]; vm_compute; reflexivity.
Defined.



(** ** No response breaks the framing *)

Lemma no_newline_app a b :
  no_newline (a ++ b) = no_newline a && no_newline b.
Proof. apply forallb_app. Qed.

Lemma no_newline_In s : no_newline s = true <-> ~ In newline s.
Proof.
  unfold no_newline. induction s as [|c s IH]; [now split|].
  cbn [forallb In]. rewrite andb_true_iff, negb_true_iff, N.eqb_neq, IH.
  intuition congruence.
Qed.

Lemma hex_char_no_newline d : N.eqb (hex_char d) newline = false.
Proof.
  apply N.eqb_neq. unfold hex_char, newline.
  destruct (N.ltb_spec d 10); lia.
Qed.

Lemma no_newline_unicode_escape c : no_newline (unicode_escape c) = true.
Proof.
  unfold no_newline, unicode_escape. cbn [forallb].
  now rewrite !hex_char_no_newline.
Qed.

Lemma no_newline_quote_chars n : forall s,
  (List.length s <= n)%nat -> no_newline (quote_chars s) = true.
Proof.
  induction n as [|n IH]; intros s Hlen.
  - destruct s; [reflexivity|simpl in Hlen; lia].
  - destruct s as [|c s]; [reflexivity|].
    assert (Hs : no_newline (quote_chars s) = true)
      by (apply IH; simpl in Hlen; lia).
    cbn [quote_chars].
    destruct (N.eqb_spec c 8); [now rewrite no_newline_app, Hs|].
    destruct (N.eqb_spec c 9); [now rewrite no_newline_app, Hs|].
    destruct (N.eqb_spec c 10); [now rewrite no_newline_app, Hs|].
    destruct (N.eqb_spec c 12); [now rewrite no_newline_app, Hs|].
    destruct (N.eqb_spec c 13); [now rewrite no_newline_app, Hs|].
    destruct (N.eqb_spec c 34); [now rewrite no_newline_app, Hs|].
    destruct (N.eqb_spec c 92); [now rewrite no_newline_app, Hs|].
    assert (Hc : N.eqb c newline = false) by now apply N.eqb_neq.
    destruct (N.ltb c 32);
      [now rewrite no_newline_app, no_newline_unicode_escape, Hs|].
    destruct (is_high_surrogate c) eqn:Hh.
    + destruct s as [|d s'].
      * apply no_newline_unicode_escape.
      * destruct (is_low_surrogate d) eqn:Hl.
        -- unfold no_newline. cbn [forallb]. rewrite Hc. cbn [negb andb].
           unfold is_low_surrogate in Hl. apply andb_true_iff in Hl.
           destruct Hl as [Hl _]. apply N.leb_le in Hl.
           destruct (N.eqb_spec d newline) as [E|_];
             [unfold newline in E; lia|].
           cbn [negb andb]. apply IH. simpl in Hlen. lia.
        -- now rewrite no_newline_app, no_newline_unicode_escape, Hs.
    + destruct (is_low_surrogate c).
      * now rewrite no_newline_app, no_newline_unicode_escape, Hs.
      * unfold no_newline in *. cbn [forallb]. now rewrite Hc, Hs.
Qed.

Lemma no_newline_quote s : no_newline (quote s) = true.
Proof.
  unfold quote. change (34%N :: quote_chars s ++ [34%N])
    with ([34%N] ++ quote_chars s ++ [34%N]).
  rewrite !no_newline_app, (@no_newline_quote_chars (List.length s)) by lia.
  reflexivity.
Qed.

Lemma no_newline_word s : forallb is_word_char s = true -> no_newline s = true.
Proof.
  intros H. now apply clean_no_newline, clean_word.
Qed.

(** Whatever JSON.stringify writes holds no line feed. *)
Lemma no_newline_render j : no_newline (render j) = true.
Proof.
  induction j as [| b | n | s | elems IH | members IH] using json_induction.
  - reflexivity.
  - now destruct b.
  - apply no_newline_word, to_string_word_chars.
  - apply no_newline_quote.
  - destruct elems as [|e more]; [reflexivity|].
    rewrite render_array_cons. inversion IH; subst.
    assert (Hrest : no_newline (flat_map (fun x => u "," ++ render x) more)
                    = true).
    { clear H1 IH. induction more as [|x l IHl]; [reflexivity|].
      inversion H2; subst. cbn [flat_map].
      now rewrite !no_newline_app, H1, IHl. }
    now rewrite !no_newline_app, H1, Hrest.
  - destruct members as [|kv more]; [reflexivity|].
    rewrite render_object_cons. inversion IH; subst.
    assert (Hm : forall x, no_newline (render (snd x)) = true ->
                           no_newline (render_member x) = true).
    { intros x Hx. unfold render_member.
      now rewrite !no_newline_app, no_newline_quote, Hx. }
    assert (Hrest : no_newline
                      (flat_map (fun x => u "," ++ render_member x) more)
                    = true).
    { clear H1 IH. induction more as [|x l IHl]; [reflexivity|].
      inversion H2; subst. cbn [flat_map].
      now rewrite !no_newline_app, (Hm _ H1), IHl. }
    now rewrite !no_newline_app, (Hm _ H1), Hrest.
Qed.

Lemma to_byte_line_feed n : TextEncoder.to_byte n = x0a -> n = 10%N.
Proof.
  unfold TextEncoder.to_byte. destruct (Byte.of_N n) as [b|] eqn:Hb.
  - intros ->. now apply Byte.to_of_N in Hb.
  - discriminate.
Qed.

Lemma utf8_line_feed cp :
  In x0a (map TextEncoder.to_byte (TextEncoder.utf8 cp)) -> cp = 10%N.
Proof.
  unfold TextEncoder.utf8.
  destruct (N.ltb_spec cp 128) as [H1|H1].
  - cbn [map In]. intros [H|[]]. now apply to_byte_line_feed.
  - assert (Hno : forall a b, TextEncoder.to_byte (a + b) = x0a ->
                              (a <= 10)%N).
    { intros a b H. apply to_byte_line_feed in H. lia. }
    destruct (N.ltb cp 2048); [|destruct (N.ltb cp 65536)];
      cbn [map In]; intros H;
      repeat match type of H with
             | _ \/ _ => destruct H as [H|H]
             | False => contradiction
             | _ = x0a => apply Hno in H; lia
             end.
Qed.

Lemma scalars_line_feed n : forall s,
  (List.length s <= n)%nat -> In 10%N (TextEncoder.scalars s) -> In 10%N s.
Proof.
  induction n as [|n IH]; intros s Hlen.
  - destruct s; [intros []|simpl in Hlen; lia].
  - destruct s as [|c s]; [intros []|].
    cbn [TextEncoder.scalars].
    destruct (is_high_surrogate c) eqn:Hh.
    + destruct s as [|d s'].
      * cbn [In]. intros [H|[]]. discriminate.
      * destruct (is_low_surrogate d) eqn:Hl.
        -- cbn [In]. intros [H|H]; [lia|].
           right. right. apply IH; [simpl in Hlen; lia|exact H].
        -- cbn [In]. intros [H|H]; [discriminate|].
           right. apply (IH (d :: s')); [simpl in Hlen; simpl; lia|exact H].
    + destruct (is_low_surrogate c).
      * cbn [In]. intros [H|H]; [discriminate|].
        right. apply IH; [simpl in Hlen; lia|exact H].
      * cbn [In]. intros [H|H]; [now left|].
        right. apply IH; [simpl in Hlen; lia|exact H].
Qed.

Lemma encode_line_feed s :
  In x0a (TextEncoder.encode s) -> In newline s.
Proof.
  unfold TextEncoder.encode. rewrite in_map_iff.
  intros [n [Hn Hin]]. apply in_flat_map in Hin. destruct Hin as [cp [Hcp Hin]].
  assert (cp = 10%N).
  { apply utf8_line_feed. apply in_map_iff. now exists n. }
  subst cp. now apply (@scalars_line_feed (List.length s)).
Qed.

Lemma scalars_snoc_line_feed n : forall s,
  (List.length s <= n)%nat ->
  TextEncoder.scalars (s ++ [newline]) = TextEncoder.scalars s ++ [newline].
Proof.
  induction n as [|n IH]; intros s Hlen.
  - destruct s; [reflexivity|simpl in Hlen; lia].
  - destruct s as [|c s]; [reflexivity|].
    cbn [app TextEncoder.scalars].
    destruct (is_high_surrogate c).
    + destruct s as [|d s']; [reflexivity|]. cbn [app].
      destruct (is_low_surrogate d).
      * cbn [app]. f_equal. apply IH. simpl in Hlen. lia.
      * cbn [app]. f_equal.
        apply (IH (d :: s')). simpl in Hlen. simpl. lia.
    + destruct (is_low_surrogate c); cbn [app]; f_equal; apply IH;
        simpl in Hlen; lia.
Qed.

Lemma written_single_line line :
  no_newline line = true -> single_line (written line).
Proof.
  intros Hn. exists (TextEncoder.encode line). split.
  - unfold written, TextEncoder.encode.
    rewrite (@scalars_snoc_line_feed (List.length line)) by lia.
    now rewrite flat_map_app, map_app.
  - intros H. apply encode_line_feed in H. now apply no_newline_In in Hn.
Qed.

Lemma response_text_no_newline line :
  no_newline (response_text line) = true.
Proof.
  unfold response_text. destruct (processMessage_some line) as [j ->].
  apply no_newline_render.
Qed.

(** X11.  The main loop answers every line it reads, in order and without
    ever failing, and each of its writes is exactly one line: it ends
    with the byte of a line feed and holds no other, whatever the request
    was. *)
Theorem main_writes_one_line_each stdin :
  exists writes,
    Stdio.main stdin = Normal writes
    /\ writes = map (fun line => written (response_text line))
                  (readLines stdin)
    /\ Forall single_line writes.
Proof.
  unfold Stdio.main. rewrite serve_responses. eexists.
  split; [reflexivity|]. split; [reflexivity|].
  apply Forall_forall. intros w Hw. apply in_map_iff in Hw.
  destruct Hw as [line [<- _]].
  apply written_single_line, response_text_no_newline.
Qed.

(** ** The two servers side by side *)

(** X12.  The two servers answer the same text alike, byte for byte, unless
    it names a method they do not know: the body of the HTTP response is
    what [processMessage] resolves to. *)
Theorem transports_agree text :
  (forall request methodFunc,
      intake text = Normal (request, methodFunc) ->
      ToBoolean methodFunc = true) ->
  exists response,
    Http.handler (post text) = Normal response
    /\ Stdio.processMessage text = Normal (Http.body response).
Proof.
  intros Hknown. rewrite handler_cases by reflexivity.
  rewrite processMessage_cases. unfold post. cbn [Http.req_text bind].
  destruct (intake text) as [[request f]|e] eqn:Hin.
  - rewrite (Hknown _ _ eq_refl). cbn [negb]. cbv zeta.
    change Http.invoke with Stdio.invoke.
    destruct (Stdio.invoke f request); eexists; split; reflexivity.
  - eexists. split; reflexivity.
Qed.

Lemma transports_agree_witness :
  exists response,
    Http.handler (post (js "{'jsonrpc':'2.0','method':'add','params':[1,2],'id':7}"))
    = Normal response
    /\ Stdio.processMessage
         (js "{'jsonrpc':'2.0','method':'add','params':[1,2],'id':7}")
       = Normal (Http.body response).
Proof.
  apply (@transports_agree
           (js "{'jsonrpc':'2.0','method':'add','params':[1,2],'id':7}")).
  intros request f H. vm_compute in H. injection H as <- <-. reflexivity.
Defined.

(** ** A process that does not answer *)

Lemma frames_of_text_nil text : frames_of_text text = [] -> text = [].
Proof.
  rewrite frames_of_text_eq. intros H. apply app_eq_nil in H.
  destruct H as [Hi Hl].
  pose proof (lines_make_up_text text) as Hm. rewrite Hi in Hm.
  destruct (last_line text) as [|c l]; [now symmetry|discriminate].
Qed.

(** X13.  [sendRequest] fails with [No response received] exactly when
    what it reads from the process decodes to no text at all. *)
Theorem no_response_received serverProcess request :
  StdioClient.sendRequest serverProcess request
  = Throw (Error (u "No response received"))
  <-> decoded_chunks
        (serverProcess (TextEncoder.encode (StdioClient.message request)))
      = [].
Proof.
  unfold StdioClient.sendRequest. rewrite readLines_frames.
  set (text := decoded_chunks _). split.
  - destruct (frames_of_text text) as [|line rest] eqn:Hf.
    + intros _. now apply frames_of_text_nil.
    + unfold JSON.parse. destruct (lex LIdle line) as [toks|];
        [destruct (parse_tokens (PValue []) toks)|]; discriminate.
  - intros ->. reflexivity.
Qed.



(** ** Lines are yielded as they come *)

(** X15.  What [readLines] has yielded is final: the lines completed by a
    line feed within the first reads come first, unchanged, whatever is
    read later; only the unfinished rest is still open. *)
Theorem readLines_yields_are_final reads more :
  readLines (reads ++ more)
  = init_lines (decoded_chunks reads)
    ++ frames_of_text (last_line (decoded_chunks reads) ++ decoded_chunks more).
Proof.
  rewrite readLines_frames. unfold decoded_chunks.
  rewrite map_app, concat_app. apply frames_of_text_app.
Qed.
